(** * Drive utilities of the Apps Script project: a shallow embedding

    The JavaScript sources [utils/generate_project_folder.js] and
    [utils/locate_file.js] drive Google's [DriveApp] service.  The service is
    modelled here as a flat store of items and containment edges; the utility
    functions are transcribed over that store in a small state-and-exception
    monad, and the properties of the hierarchical navigator are then proved
    about the transcriptions. *)

From Stdlib Require Import List String Ascii Bool Arith PeanoNat NArith Lia
  DecimalString.
Set Warnings "-register-all".
Import ListNotations.
Open Scope string_scope.
Open Scope list_scope.
Open Scope nat_scope.

(** ** The Drive store *)

Module Drive.

(** Identifiers are opaque to the scripts; the store numbers its items. *)
Abbreviation id := nat (only parsing).

Inductive kind := File | Folder.

Definition kind_eqb (a b : kind) : bool :=
  match a, b with
  | File, File | Folder, Folder => true
  | _, _ => false
  end.

(** An item of the store: files carry a payload, folders do not use it. *)
Record item := mkItem {
  item_name : string;
  item_kind : kind;
  item_content : string
}.

(** The store.  [items] is the provider-wide index in listing order, [edges]
    the containment relation as (parent, child) pairs in listing order: an item
    may be the child of several folders.  [next_id] is the next unused
    identifier and [root] the folder that [DriveApp.createFolder] fills. *)
Record drive := mkDrive {
  items : list (id * item);
  edges : list (id * id);
  next_id : id;
  root : id
}.

Definition lookup (d : drive) (i : id) : option item :=
  match find (fun p => fst p =? i) (items d) with
  | Some p => Some (snd p)
  | None => None
  end.

Definition has_kind (k : kind) (d : drive) (i : id) : bool :=
  match lookup d i with
  | Some it => kind_eqb (item_kind it) k
  | None => false
  end.

Definition is_folder := has_kind Folder.
Definition is_file := has_kind File.

(** [x.getName()] *)
Definition getName (d : drive) (i : id) : string :=
  match lookup d i with
  | Some it => item_name it
  | None => EmptyString
  end.

Definition getContent (d : drive) (i : id) : string :=
  match lookup d i with
  | Some it => item_content it
  | None => EmptyString
  end.

Definition children (d : drive) (f : id) : list id :=
  map snd (filter (fun e => fst e =? f) (edges d)).

(** [folder.getFolders()] and [folder.getFiles()]: the iterator is taken as the
    sequence of children that exists when it is requested. *)
Definition getFolders (d : drive) (f : id) : list id :=
  filter (is_folder d) (children d f).

Definition getFiles (d : drive) (f : id) : list id :=
  filter (is_file d) (children d f).

(** [x.getParents()] *)
Definition getParents (d : drive) (x : id) : list id :=
  map fst (filter (fun e => snd e =? x) (edges d)).

(** [DriveApp.getFoldersByName(name)]: every folder of the index bearing
    exactly this name, wherever it is contained. *)
Definition getFoldersByName (d : drive) (name : string) : list id :=
  map fst
    (filter (fun p => kind_eqb (item_kind (snd p)) Folder
                      && String.eqb (item_name (snd p)) name)
            (items d)).

Definition edge_eqb (e1 e2 : id * id) : bool :=
  (fst e1 =? fst e2) && (snd e1 =? snd e2).

Definition with_edges (d : drive) (es : list (id * id)) : drive :=
  mkDrive (items d) es (next_id d) (root d).

(** [parent.removeFolder(child)] *)
Definition removeFolder (parent child : id) (d : drive) : drive :=
  with_edges d (filter (fun e => negb (edge_eqb e (parent, child))) (edges d)).

(** [parent.addFolder(child)] *)
Definition addFolder (parent child : id) (d : drive) : drive :=
  with_edges d (edges d ++ [(parent, child)]).

(** A new item under [parent]; its identifier is the store's next unused one. *)
Definition create (parent : id) (it : item) (d : drive) : id * drive :=
  (next_id d,
   mkDrive (items d ++ [(next_id d, it)])
           (edges d ++ [(parent, next_id d)])
           (S (next_id d))
           (root d)).

(** The store that holds nothing but its root folder. *)
Definition empty_drive (rootName : string) : drive :=
  mkDrive [(0, mkItem rootName Folder EmptyString)] [] 1 0.

End Drive.
Import Drive.

(** ** Computations over the store *)

(** What a script run can end in.  [Error_*] are the three [throw new Error]
    sites of [moveFolderToFolderByName]; [TypeError] is a method call on
    [undefined]; [NoSuchItem] is the service refusing an identifier. *)
Inductive error :=
| Error_SourceNotUnique
| Error_DestinationNotUnique
| Error_SourceInDestination
| TypeError
| NoSuchItem.

(** [Diverge] is a recursion that does not bottom out.  A run of the script
    has no result then: it goes on until the runtime gives up, with a
    [RangeError] once the call stack is used up. *)
Inductive outcome (A : Type) :=
| Return (a : A) (d : drive)
| Throw (e : error) (d : drive)
| Diverge.
Arguments Return {A} a d.
Arguments Throw {A} e d.
Arguments Diverge {A}.

Definition M (A : Type) := drive -> outcome A.

Definition ret {A} (a : A) : M A := fun d => Return a d.
Definition throw {A} (e : error) : M A := fun d => Throw e d.
Definition diverge {A} : M A := fun _ => Diverge.
Definition bind {A B} (m : M A) (k : A -> M B) : M B :=
  fun d => match m d with
           | Return a d' => k a d'
           | Throw e d' => Throw e d'
           | Diverge => Diverge
           end.
Definition gets {A} (f : drive -> A) : M A := fun d => Return (f d) d.
Definition modify (f : drive -> drive) : M unit := fun d => Return tt (f d).

Declare Scope drive_scope.
Delimit Scope drive_scope with drive.
Notation "x <- m ;; k" := (bind m (fun x => k))
  (at level 61, m at next level, right associativity) : drive_scope.
Notation "m ;;; k" := (bind m (fun _ => k))
  (at level 61, right associativity) : drive_scope.
Open Scope drive_scope.

(** [while (it.hasNext()) { var x = it.next(); body(x) }] *)
Fixpoint forEach {A} (it : list A) (body : A -> M unit) : M unit :=
  match it with
  | [] => ret tt
  | x :: it' => body x ;;; forEach it' body
  end.

(** A possibly [undefined] receiver: calling a method on it is a [TypeError]. *)
Definition deref {A} (x : option A) : M A :=
  match x with
  | Some a => ret a
  | None => throw TypeError
  end.

(** [DriveApp.getFolderById(id)] *)
Definition DriveApp_getFolderById (i : id) : M id :=
  fun d => if is_folder d i then Return i d else Throw NoSuchItem d.

(** [DriveApp.createFolder(name)]: the new folder is placed in the root folder
    of the user's Drive. *)
Definition DriveApp_createFolder (name : string) : M id :=
  fun d => let (i, d') := create (root d) (mkItem name Folder EmptyString) d in
           Return i d'.

(** [targetFolder.createFolder(name)] *)
Definition Folder_createFolder (targetFolder : id) (name : string) : M id :=
  fun d => let (i, d') := create targetFolder (mkItem name Folder EmptyString) d in
           Return i d'.

(** [file.makeCopy(name, destination)] *)
Definition File_makeCopy (file : id) (name : string) (destination : id) : M id :=
  fun d => let (i, d') := create destination (mkItem name File (getContent d file)) d in
           Return i d'.

(** The loop shared by the two move functions:
    [var currentFolders = x.getParents();
     while (currentFolders.hasNext()) currentFolders.next().removeFolder(x);] *)
Definition detachAll (x : id) : M unit :=
  currentFolders <- gets (fun d => getParents d x) ;;
  forEach currentFolders (fun currentFolder => modify (removeFolder currentFolder x)).

(** [folder.moveTo(destination)]: out of every folder that holds it, into
    [destination]. *)
Definition Folder_moveTo (folder destination : id) : M unit :=
  detachAll folder ;;; modify (addFolder destination folder).

(** ** utils/generate_project_folder.js, Drive utilities *)

(** The searches and the copy recurse along containment, which nothing in the
    store bounds: they take a [fuel] argument, one unit per level of nesting,
    and end in [Diverge] when it runs out. *)

Module Utils.

(** The variables [found] and [target] shared by the nested [search]
    functions.  [visited] is a ghost field: it records, in order, every item an
    iterator's [next()] handed to the search. *)
Record sstate := mkS {
  found : bool;
  target : option id;
  visited : list id
}.

Definition s0 : sstate := mkS false None [].

Definition visit (x : id) (s : sstate) : sstate :=
  mkS (found s) (target s) (visited s ++ [x]).

Definition hit (x : id) (s : sstate) : sstate :=
  mkS true (Some x) (visited s).

(** [while (it.hasNext()) { if (found) break; var x = it.next(); body(x) }] *)
Fixpoint whileNext (it : list id) (body : id -> sstate -> option sstate)
         (s : sstate) : option sstate :=
  match it with
  | [] => Some s
  | x :: it' =>
      if found s then Some s
      else match body x (visit x s) with
           | Some s' => whileNext it' body s'
           | None => None
           end
  end.

(** [s.indexOf(x) !== -1] *)
Definition includes (s x : string) : bool :=
  match String.index 0 x s with
  | Some _ => true
  | None => false
  end.

(** The inner [search] of [findFileByName]. *)
Fixpoint searchFile (fuel : nat) (d : drive) (partialMatch : bool)
         (sourceFolder : id) (fileName : string) (s : sstate) : option sstate :=
  match fuel with
  | 0 => None
  | S fuel' =>
      let folders := getFolders d sourceFolder in
      let files := getFiles d sourceFolder in
      match whileNext files
              (fun file s =>
                 if String.eqb (getName d file) fileName then Some (hit file s)
                 else if partialMatch && includes (getName d file) fileName
                      then Some (hit file s)
                      else Some s) s with
      | Some s1 =>
          whileNext folders
            (fun subFolder s => searchFile fuel' d partialMatch subFolder fileName s) s1
      | None => None
      end
  end.

(** The inner [search] of [findFolderByName]. *)
Fixpoint searchFolder (fuel : nat) (d : drive)
         (sourceFolder : id) (folderName : string) (s : sstate) : option sstate :=
  match fuel with
  | 0 => None
  | S fuel' =>
      let folders := getFolders d sourceFolder in
      whileNext folders
        (fun subFolder s =>
           let s := if String.eqb (getName d subFolder) folderName
                    then hit subFolder s else s in
           searchFolder fuel' d subFolder folderName s) s
  end.

(** [if (found) return target;] *)
Definition result (s : sstate) : option id :=
  if found s then target s else None.

(** A search reads the store and nothing else. *)
Definition runSearch (search : drive -> option sstate) : M sstate :=
  fun d => match search d with
           | Some s => Return s d
           | None => Diverge
           end.

(** [findFileByName(sourceFolderId, fileName, partialMatch = false)]; the
    result is [None] where the script returns [undefined]. *)
Definition findFileByName (fuel : nat) (sourceFolderId : id) (fileName : string)
           (partialMatch : bool) : M (option id) :=
  sourceFolder <- DriveApp_getFolderById sourceFolderId ;;
  s <- runSearch (fun d => searchFile fuel d partialMatch sourceFolder fileName s0) ;;
  ret (result s).

(** [findFolderByName(sourceFolderId, folderName)] *)
Definition findFolderByName (fuel : nat) (sourceFolderId : id) (folderName : string)
  : M (option id) :=
  sourceFolder <- DriveApp_getFolderById sourceFolderId ;;
  s <- runSearch (fun d => searchFolder fuel d sourceFolder folderName s0) ;;
  ret (result s).

(** [copyFolder(folderToCopy, targetFolder)]: both iterators are requested
    before the first copy is made. *)
Fixpoint copyFolder (fuel : nat) (folderToCopy targetFolder : id) : M unit :=
  match fuel with
  | 0 => diverge
  | S fuel' =>
      folders <- gets (fun d => getFolders d folderToCopy) ;;
      files <- gets (fun d => getFiles d folderToCopy) ;;
      forEach files (fun file =>
        name <- gets (fun d => getName d file) ;;
        File_makeCopy file name targetFolder ;;; ret tt) ;;;
      forEach folders (fun subFolder =>
        folderName <- gets (fun d => getName d subFolder) ;;
        newFolder <- Folder_createFolder targetFolder folderName ;;
        copyFolder fuel' subFolder newFolder)
  end.

(** [moveFolderToFolderById(sourceFolderId, targetFolderId)] *)
Definition moveFolderToFolderById (sourceFolderId targetFolderId : id) : M unit :=
  sourceFolder <- DriveApp_getFolderById sourceFolderId ;;
  targetFolder <- DriveApp_getFolderById targetFolderId ;;
  detachAll sourceFolder ;;;
  modify (addFolder targetFolder sourceFolder).

(** [it.hasNext()] *)
Definition nonempty {A} (l : list A) : bool :=
  match l with [] => false | _ :: _ => true end.

(** [moveFolderToFolderByName(sourceFolderName, destinationFolderName,
    isUnique = false)].  [sourceFolder] and [targetFolder] are assigned inside
    the two [if (matchedFolders.hasNext())] blocks only, and are [undefined]
    ([None]) when the block is skipped. *)
Definition moveFolderToFolderByName (sourceFolderName destinationFolderName : string)
           (isUnique : bool) : M unit :=
  matchedFolders <- gets (fun d => getFoldersByName d sourceFolderName) ;;
  sourceFolder <-
    match matchedFolders with
    | sourceFolder :: more =>
        if isUnique && nonempty more then throw Error_SourceNotUnique
        else ret (Some sourceFolder)
    | [] => ret None
    end ;;
  matchedFolders <- gets (fun d => getFoldersByName d destinationFolderName) ;;
  targetFolder <-
    match matchedFolders with
    | targetFolder :: more =>
        targetFolderContents <- gets (fun d => getFolders d targetFolder) ;;
        if nonempty more then throw Error_DestinationNotUnique
        else
          names <- gets (fun d => map (getName d) targetFolderContents) ;;
          if existsb (fun n => String.eqb n sourceFolderName) names
          then throw Error_SourceInDestination
          else ret (Some targetFolder)
    | [] => ret None
    end ;;
  sourceFolder <- deref sourceFolder ;;
  detachAll sourceFolder ;;;
  targetFolder <- deref targetFolder ;;
  modify (addFolder targetFolder sourceFolder).

(** [getFileId] and [getFolderId]: [x.getId()] on what the search returned. *)
Definition getFileId (fuel : nat) (folderId : id) (fileName : string) : M id :=
  file <- findFileByName fuel folderId fileName false ;;
  deref file.

Definition getFolderId (fuel : nat) (folderId : id) (folderName : string) : M id :=
  folder <- findFolderByName fuel folderId folderName ;;
  deref folder.

(** [findOrCreateFolder(parentFolderId, folderName, moveTo = false)] *)
Definition findOrCreateFolder (fuel : nat) (parentFolderId : id) (folderName : string)
           (moveTo : bool) : M id :=
  locatedFolder <- findFolderByName fuel parentFolderId folderName ;;
  folder <-
    match locatedFolder with
    | Some f => ret f
    | None => DriveApp_createFolder folderName
    end ;;
  (if moveTo
   then parentFolder <- DriveApp_getFolderById parentFolderId ;;
        Folder_moveTo folder parentFolder
   else ret tt) ;;;
  ret folder.

End Utils.
Import Utils.

(** ** utils/locate_file.js *)

Record request := mkRequest {
  folderId : id;
  folderName : string;
  fileName : string
}.

Definition quote : string := String (ascii_of_nat 34) EmptyString.

(** [JSON.stringify] of an identifier: its text between quotes. *)
Definition JSON_stringify (i : id) : string :=
  (quote ++ NilEmpty.string_of_uint (Nat.to_uint i) ++ quote)%string.

(** [locateFileId(request)] *)
Definition locateFileId (fuel : nat) (r : request) : M string :=
  subFolderId <- Utils.getFolderId fuel (folderId r) (folderName r) ;;
  fileId <- Utils.getFileId fuel subFolderId (fileName r) ;;
  ret (JSON_stringify fileId).

(** ** Trees seen from a folder, and traversal orders *)

(** The containment graph unfolded from a folder: the folder, its files and
    the unfoldings of its sub-folders, all in listing order. *)
Inductive tree := Node (i : id) (files : list id) (subs : list tree).

Definition tree_id (t : tree) : id := match t with Node i _ _ => i end.
Definition tree_files (t : tree) : list id := match t with Node _ fs _ => fs end.
Definition tree_subs (t : tree) : list tree := match t with Node _ _ ts => ts end.

Fixpoint sequence {A} (l : list (option A)) : option (list A) :=
  match l with
  | [] => Some []
  | Some a :: l' =>
      match sequence l' with
      | Some r => Some (a :: r)
      | None => None
      end
  | None :: _ => None
  end.

(** [view n d f] unfolds the store from [f] when nothing below [f] lies deeper
    than [n] levels. *)
Fixpoint view (n : nat) (d : drive) (f : id) : option tree :=
  match n with
  | 0 => None
  | S n' =>
      match sequence (map (view n' d) (getFolders d f)) with
      | Some ts => Some (Node f (getFiles d f) ts)
      | None => None
      end
  end.

(** Pre-order listing of the folders strictly below the root of [t]. *)
Fixpoint folderOrder (t : tree) : list id :=
  match t with
  | Node _ _ subs => flat_map (fun c => tree_id c :: folderOrder c) subs
  end.

(** The order in which the file search meets items: the files of a folder,
    then each sub-folder followed by what the search meets inside it. *)
Fixpoint fileOrder (t : tree) : list id :=
  match t with
  | Node _ files subs => files ++ flat_map (fun c => tree_id c :: fileOrder c) subs
  end.

(** Every folder of [t], its root included. *)
Definition folder_ids (t : tree) : list id := tree_id t :: folderOrder t.

Definition fileMatches (d : drive) (partialMatch : bool) (name : string) (i : id) : bool :=
  is_file d i
  && (String.eqb (getName d i) name
      || (partialMatch && Utils.includes (getName d i) name)).

Definition folderMatches (d : drive) (name : string) (i : id) : bool :=
  is_folder d i && String.eqb (getName d i) name.

(** The prefix of [l] that ends with its first element satisfying [p]; all of
    [l] when there is none. *)
Fixpoint upto (p : id -> bool) (l : list id) : list id :=
  match l with
  | [] => []
  | x :: l' => if p x then [x] else x :: upto p l'
  end.

(** Meeting the items of [l] in order until one satisfies [p]. *)
Fixpoint scan (p : id -> bool) (l : list id) (s : Utils.sstate) : Utils.sstate :=
  match l with
  | [] => s
  | x :: l' =>
      if Utils.found s then s
      else scan p l' (if p x then Utils.hit x (Utils.visit x s) else Utils.visit x s)
  end.

(** ** The state the move functions leave behind *)

(** The store once no folder holds [x] any more. *)
Definition detached (x : id) (d : drive) : drive :=
  with_edges d (filter (fun e => negb (snd e =? x)) (edges d)).

(** Edges that do not end in [x]. *)
Definition edges_off (x : id) (d : drive) : list (id * id) :=
  filter (fun e => negb (snd e =? x)) (edges d).

(** What the three checks let through: the two folders as the code holds them
    when it reaches the loop over the parents, each possibly [undefined]. *)
Definition checks (d : drive) (sourceFolderName destinationFolderName : string)
           (isUnique : bool) : error + (option id * option id) :=
  let sources := getFoldersByName d sourceFolderName in
  if isUnique && (1 <? List.length sources) then inl Error_SourceNotUnique
  else
    match getFoldersByName d destinationFolderName with
    | [] => inr (hd_error sources, None)
    | [t] =>
        if existsb (fun n => String.eqb n sourceFolderName)
                   (map (getName d) (getFolders d t))
        then inl Error_SourceInDestination
        else inr (hd_error sources, Some t)
    | _ :: _ :: _ => inl Error_DestinationNotUnique
    end.

(** ** Well-formed stores *)

(** Identifiers in use lie below [next_id]: those of the items, both ends of
    every edge, and the root folder. *)
Definition wf (d : drive) : Prop :=
  (forall i it, In (i, it) (items d) -> i < next_id d)
  /\ (forall p c, In (p, c) (edges d) -> p < next_id d /\ c < next_id d)
  /\ root d < next_id d.

(** ** What a copy is *)

(** Every item of [t]: its root, and below it the files and folders in the
    order [fileOrder] lists them. *)
Definition tree_ids (t : tree) : list id := tree_id t :: fileOrder t.

(** A tree without its identifiers: the name of the folder, the name and
    content of each file, and the same for the sub-folders. *)
Inductive shape := Shape (name : string) (files : list (string * string))
                         (subs : list shape).

Definition file_shape (d : drive) (f : id) : string * string :=
  (getName d f, getContent d f).

Fixpoint shape_of (d : drive) (t : tree) : shape :=
  match t with
  | Node i files subs =>
      Shape (getName d i) (map (file_shape d) files) (map (shape_of d) subs)
  end.

(** [d'] keeps every item of [d] and, but for folder [B], what each folder of
    [d] holds. *)
Definition extends_at (B : id) (d d' : drive) : Prop :=
  next_id d <= next_id d'
  /\ root d' = root d
  /\ (forall i, i < next_id d -> lookup d' i = lookup d i)
  /\ (forall f, f < next_id d -> f <> B -> children d' f = children d f).

(** [copied m d d' B tA c]: between [d] and [d'] folder [B] has received,
    after what it held, the files [tree_files c] and the folders
    [tree_subs c]; these are the unfoldings in [d'] of new folders; they have
    the shape of the files and sub-folders of [tA]; and their identifiers, read
    files first and then each folder followed by its contents, are the
    identifiers [next_id d], [next_id d + 1], ... in the order of creation. *)
Definition copied (m : nat) (d d' : drive) (B : id) (tA c : tree) : Prop :=
  tree_id c = B
  /\ children d' B = children d B ++ tree_files c ++ map tree_id (tree_subs c)
  /\ Forall (fun f => is_file d' f = true) (tree_files c)
  /\ Forall (fun t => is_folder d' (tree_id t) = true) (tree_subs c)
  /\ sequence (map (view m d') (map tree_id (tree_subs c))) = Some (tree_subs c)
  /\ map (file_shape d') (tree_files c) = map (file_shape d) (tree_files tA)
  /\ map (shape_of d') (tree_subs c) = map (shape_of d) (tree_subs tA)
  /\ fileOrder c = seq (next_id d) (List.length (fileOrder tA))
  /\ next_id d' = next_id d + List.length (fileOrder tA).

(** The two loop bodies of [copyFolder]. *)
Definition copyFile (targetFolder file : id) : M unit :=
  name <- gets (fun d => getName d file) ;;
  File_makeCopy file name targetFolder ;;; ret tt.

Definition copySub (fuel : nat) (targetFolder subFolder : id) : M unit :=
  folderName <- gets (fun d => getName d subFolder) ;;
  newFolder <- Folder_createFolder targetFolder folderName ;;
  copyFolder fuel subFolder newFolder.

(** What is proved of [copyFolder] at a given fuel. *)
Definition CopySpec (n : nat) : Prop :=
  forall d A B tA,
    wf d -> B < next_id d -> A < next_id d ->
    view n d A = Some tA -> ~ In B (folderOrder tA) ->
    exists d' c,
      copyFolder n A B d = Return tt d'
      /\ wf d' /\ extends_at B d d' /\ copied (pred n) d d' B tA c.

(** [below d f x]: folder [x] is reached from folder [f] by going down, once
    or more, into a sub-folder. *)
Inductive below (d : drive) : id -> id -> Prop :=
| below_child f x : In x (getFolders d f) -> below d f x
| below_step f y x : In y (getFolders d f) -> below d y x -> below d f x.

(** Induction over trees, with the property available for every sub-tree. *)
Section TreeInduction.
Variable P : tree -> Prop.
Hypothesis step : forall i fs ts, Forall P ts -> P (Node i fs ts).

Fixpoint tree_induction (t : tree) : P t :=
  match t with
  | Node i fs ts =>
      step i fs ts
        ((fix all (l : list tree) : Forall P l :=
            match l with
            | [] => Forall_nil P
            | x :: l' => Forall_cons x (tree_induction x) (all l')
            end) ts)
  end.
End TreeInduction.

(** ** Example stores *)

(** A folder "Reports" in the root folder, and no folder named "Archive". *)
Definition drive_reports : drive :=
  mkDrive [(0, mkItem "My Drive" Folder ""); (1, mkItem "Reports" Folder "")]
          [(0, 1)] 2 0.

(** A folder "Reports" held by two folders, and no folder named "Archive". *)
Definition drive_shared : drive :=
  mkDrive [(0, mkItem "My Drive" Folder ""); (1, mkItem "P1" Folder "");
           (2, mkItem "P2" Folder ""); (3, mkItem "Reports" Folder "")]
          [(0, 1); (0, 2); (1, 3); (2, 3)] 4 0.

(** Folder "Reports" held by P1 and P2, and a folder "Archive". *)
Definition drive_two_parents : drive :=
  mkDrive [(0, mkItem "My Drive" Folder ""); (1, mkItem "P1" Folder "");
           (2, mkItem "P2" Folder ""); (3, mkItem "Reports" Folder "");
           (4, mkItem "Archive" Folder "")]
          [(0, 1); (0, 2); (1, 3); (0, 4); (2, 3)] 5 0.

(** Two folders named "S", two folders named "D" and one named "E". *)
Definition drive_twins : drive :=
  mkDrive [(0, mkItem "My Drive" Folder ""); (1, mkItem "S" Folder "");
           (2, mkItem "S" Folder ""); (3, mkItem "D" Folder "");
           (4, mkItem "D" Folder ""); (5, mkItem "E" Folder "")]
          [(0, 1); (0, 2); (0, 3); (0, 4); (0, 5)] 6 0.

(** A folder "A" holding a folder "T", listed before a second folder "T". *)
Definition drive_nested : drive :=
  mkDrive [(0, mkItem "My Drive" Folder ""); (1, mkItem "A" Folder "");
           (2, mkItem "T" Folder ""); (3, mkItem "T" Folder "")]
          [(0, 1); (0, 2); (1, 3)] 4 0.

(** A small project tree with files. *)
Definition drive_project : drive :=
  mkDrive [(0, mkItem "My Drive" Folder "");
           (1, mkItem "Templates" Folder "");
           (2, mkItem "notes.txt" File "remember");
           (3, mkItem "Invoices" Folder "");
           (4, mkItem "invoice-2020.pdf" File "pdf-a");
           (5, mkItem "Archive" Folder "");
           (6, mkItem "invoice-2020.pdf" File "pdf-b")]
          [(0, 1); (0, 2); (1, 3); (3, 4); (0, 5); (5, 6)] 7 0.

Definition tree_project : tree :=
  Node 0 [2] [Node 1 [] [Node 3 [4] []]; Node 5 [6] []].

(** A store whose folder "Clients" is held by the root folder. *)
Definition drive_clients : drive :=
  mkDrive [(0, mkItem "My Drive" Folder ""); (1, mkItem "Clients" Folder "")]
          [(0, 1)] 2 0.

(** ** generate_project_folder.js: the entry point *)

Record start_request := mkStartRequest {
  sourceFolderName : string;
  destinationFolderId : id;
  templateFolderName : string
}.

(** [start(request)].  [getUrl] stands for [source.getUrl()], which the store
    does not model; the pair returned is the object [{ id, url }]. *)
Definition start (getUrl : id -> string) (fuel : nat) (r : start_request)
  : M (id * string) :=
  template <- gets (fun d => getFoldersByName d (templateFolderName r)) ;;
  source <- DriveApp_createFolder (sourceFolderName r) ;;
  destination <- DriveApp_getFolderById (destinationFolderId r) ;;
  match template with
  | first :: _ => Utils.copyFolder fuel first source
  | [] => ret tt
  end ;;;
  Utils.moveFolderToFolderById source (destinationFolderId r) ;;;
  ret (source, getUrl source).

(** ** Stores whose items have distinct identifiers *)

Definition unique_ids (d : drive) : Prop := NoDup (map fst (items d)).

(** [d'] is [d] with items and edges added after those of [d]: every new item
    and every new edge's child has an identifier that [d] had not used, and
    every new edge starts from [B] or from a new folder. *)
Definition grows (B : id) (d d' : drive) : Prop :=
  exists its es,
    items d' = items d ++ its
    /\ edges d' = edges d ++ es
    /\ next_id d <= next_id d'
    /\ root d' = root d
    /\ Forall (fun p => next_id d <= fst p < next_id d') its
    /\ Forall (fun e => (fst e = B \/ next_id d <= fst e) /\ next_id d <= snd e) es.

(** The source check of [moveFolderToFolderByName] lets the call through. *)
Definition isUnique_ok (isUnique : bool) (sources : list id) : bool :=
  negb (isUnique && (1 <? List.length sources)).

(** ** generate_project_folder.js, generic helpers *)

(** *** [unique] *)

(** A [Set] of values of type [A], as the sequence of its members in
    insertion order; [same] is the comparison a [Set] makes between values. *)
Section SetOfValues.
Variable A : Type.
Variable same : A -> A -> bool.

(** [set.add(x)] *)
Definition Set_add (s : list A) (x : A) : list A :=
  if existsb (same x) s then s else s ++ [x].

(** [new Set(array)]: the members are added from first to last. *)
Definition Set_new (array : list A) : list A := fold_left Set_add array [].

(** [Array.from(set)] *)
Definition Array_from (s : list A) : list A := s.

(** [unique(array)].  The argument is [Some a] when [Array.isArray] holds of
    it, and the result is [None] when the function returns [undefined]. *)
Definition unique (array : option (list A)) : option (list A) :=
  match array with
  | Some a =>
      if negb (Nat.eqb (List.length a) 0) then Some (Array_from (Set_new a))
      else Some a
  | None => None
  end.
End SetOfValues.
Arguments Set_add {A} same s x.
Arguments Set_new {A} same array.
Arguments Array_from {A} s.
Arguments unique {A} same array.

(** *** [buildQueryParams] *)

(** The value of a parameter: an array of values, or a single value.  Values
    are taken as the strings that [encodeURIComponent] makes of them. *)
Inductive param := One (v : string) | Many (vs : list string).

(** [array.reduce(f, init)], [f] receiving the accumulator, the element and
    its index. *)
Fixpoint reduce_from {A B} (f : B -> A -> nat -> B) (i : nat) (l : list A) (acc : B) : B :=
  match l with
  | [] => acc
  | x :: l' => reduce_from f (S i) l' (f acc x i)
  end.

Definition reduce {A B} (f : B -> A -> nat -> B) (l : list A) (init : B) : B :=
  reduce_from f 0 l init.

(** [buildQueryParams(params)]; [params] lists the keys in the order of
    [Object.keys], each with its value. *)
Definition buildQueryParams (encodeURIComponent : string -> string)
           (params : list (string * param)) : string :=
  reduce
    (fun p kv i =>
       let e := fst kv in
       (p ++ (if Nat.eqb i 0 then "?" else "&")
          ++ match snd kv with
             | Many fs =>
                 reduce
                   (fun str f j =>
                      str ++ e ++ "=" ++ encodeURIComponent f
                          ++ (if negb (Nat.eqb j (List.length fs - 1)%nat) then "&" else ""))
                   fs ""
             | One v => e ++ "=" ++ encodeURIComponent v
             end)%string)
    params "".

(** One [key=value] pair. *)
Definition pair_text (enc : string -> string) (e v : string) : string :=
  (e ++ "=" ++ enc v)%string.

(** What a key contributes: its pairs, joined. *)
Definition segment (enc : string -> string) (kv : string * param) : string :=
  match snd kv with
  | One v => pair_text enc (fst kv) v
  | Many fs => String.concat "&" (map (pair_text enc (fst kv)) fs)
  end.

(** Every pair of [params], in order. *)
Definition pairs (enc : string -> string) (params : list (string * param)) : list string :=
  flat_map (fun kv => match snd kv with
                      | One v => [pair_text enc (fst kv) v]
                      | Many fs => map (pair_text enc (fst kv)) fs
                      end) params.

Definition no_empty_array (kv : string * param) : bool :=
  match snd kv with
  | Many [] => false
  | _ => true
  end.

(** *** [flattenObject] *)

(** A value: an object, or anything else (a primitive or [null]; functions
    are left out).  An object is given by its own enumerable properties in the
    order in which [for ... in] lists them, and by whether it is [bare], that
    is, has no prototype; an object that is not bare inherits
    [hasOwnProperty] and the [__proto__] accessor of [Object.prototype] and no
    enumerable property.  An array is an object whose keys are its indices. *)
Inductive value (L : Type) :=
| Leaf (x : L)
| Object (bare : bool) (fields : list (string * value L)).
Arguments Leaf {L} x.
Arguments Object {L} bare fields.

(** The object a call builds: whether it has lost its prototype, and its own
    properties in the order in which [for ... in] lists them. *)
Record object (L : Type) := mkObject {
  bare : bool;
  props : list (string * L)
}.
Arguments mkObject {L} bare props.
Arguments bare {L} o.
Arguments props {L} o.

(** Keys that are array indices: the canonical decimal text of a number below
    [2^32 - 1].  An object lists them first, in ascending order, and its other
    keys after them in the order of their creation. *)
Definition digit (c : ascii) : option N :=
  let n := N_of_ascii c in
  if (N.leb 48 n && N.leb n 57)%bool then Some (N.sub n 48) else None.

Fixpoint digits (s : string) (acc : N) : option N :=
  match s with
  | EmptyString => Some acc
  | String c s' =>
      match digit c with
      | Some v => digits s' (N.add (N.mul 10 acc) v)
      | None => None
      end
  end.

Definition array_index (k : string) : option N :=
  match k with
  | EmptyString => None
  | String c s' =>
      if (Ascii.eqb c "0" && negb (String.eqb s' ""))%bool then None
      else match digits k 0%N with
           | Some n => if N.ltb n 4294967295 then Some n else None
           | None => None
           end
  end.

(** Whether a new key [k] is listed before the existing key [k']. *)
Definition listed_before (k k' : string) : bool :=
  match array_index k, array_index k' with
  | Some n, Some n' => N.ltb n n'
  | Some _, None => true
  | None, _ => false
  end.

Definition has_key {L} (k : string) (o : list (string * L)) : bool :=
  existsb (fun kv => String.eqb (fst kv) k) o.

(** [o[k]] for an own property *)
Fixpoint field {L} (k : string) (o : list (string * L)) : option L :=
  match o with
  | [] => None
  | (k', v) :: o' => if String.eqb k' k then Some v else field k o'
  end.

(** The value of an own property is replaced where it stands. *)
Fixpoint update {L} (k : string) (v : L) (o : list (string * L)) : list (string * L) :=
  match o with
  | [] => []
  | (k', v') :: o' =>
      if String.eqb k' k then (k', v) :: o' else (k', v') :: update k v o'
  end.

(** A new own property takes its place in the listing. *)
Fixpoint insert {L} (k : string) (v : L) (o : list (string * L)) : list (string * L) :=
  match o with
  | [] => [(k, v)]
  | (k', v') :: o' =>
      if listed_before k k' then (k, v) :: o else (k', v') :: insert k v o'
  end.

(** Defining or redefining the own property [k]. *)
Definition assign {L} (k : string) (v : L) (o : list (string * L)) : list (string * L) :=
  if has_key k o then update k v o else insert k v o.

(** Whether [o.hasOwnProperty] is the function of [Object.prototype]: no own
    property hides it and the object has a prototype.  Calling it otherwise is
    a [TypeError]. *)
Definition inherits_hasOwnProperty (is_bare : bool) (keys : list string) : bool :=
  negb is_bare && negb (existsb (String.eqb "hasOwnProperty") keys).

Section FlattenObject.
Variable L : Type.

(** [v === null] *)
Variable isNull : L -> bool.

(** [finalObject[k] = v] for a value [v] that is no object.  Without an own
    property [__proto__], an object that has a prototype passes the
    assignment to the setter of [Object.prototype]: [null] takes the prototype
    away, any other value is dropped. *)
Definition set_property (k : string) (v : L) (finalObject : object L) : object L :=
  if String.eqb k "__proto__" && negb (bare finalObject)
     && negb (has_key "__proto__" (props finalObject))
  then if isNull v then mkObject true (props finalObject) else finalObject
  else mkObject (bare finalObject) (assign k v (props finalObject)).

(** The inner loop: [for (let x in flatObject)], with the call of
    [flatObject.hasOwnProperty] at each turn. *)
Fixpoint copy_properties (i : string) (callable : bool) (xs : list (string * L))
         (finalObject : object L) : error + object L :=
  match xs with
  | [] => inr finalObject
  | (x, v) :: xs' =>
      if callable
      then copy_properties i callable xs' (set_property (i ++ "_" ++ x) v finalObject)
      else inl TypeError
  end.

(** [flattenObject(obj)]: [finalObject], or the [TypeError] of a call of
    [hasOwnProperty] that is not there.  The recursion only reaches objects,
    and so do the properties below; the clause for [Leaf] is never used. *)
Fixpoint flattenObject (obj : value L) : error + object L :=
  match obj with
  | Leaf _ => inr (mkObject false [])
  | Object is_bare fields =>
      (fix loop (fs : list (string * value L)) (finalObject : object L)
         : error + object L :=
         match fs with
         | [] => inr finalObject
         | (i, v) :: fs' =>
             if inherits_hasOwnProperty is_bare (map fst fields) then
               match v with
               | Object _ _ =>
                   match flattenObject v with
                   | inr flatObject =>
                       match copy_properties i
                               (inherits_hasOwnProperty (bare flatObject)
                                  (map fst (props flatObject)))
                               (props flatObject) finalObject with
                       | inr finalObject' => loop fs' finalObject'
                       | inl e => inl e
                       end
                   | inl e => inl e
                   end
               | Leaf a => loop fs' (set_property i a finalObject)
               end
             else inl TypeError
         end) fields (mkObject false [])
  end.

(** One turn of the outer loop of [flattenObject]. *)
Definition flatten_field (callable : bool) (finalObject : object L)
           (iv : string * value L) : error + object L :=
  if callable then
    match snd iv with
    | Object _ _ =>
        match flattenObject (snd iv) with
        | inr flatObject =>
            copy_properties (fst iv)
              (inherits_hasOwnProperty (bare flatObject) (map fst (props flatObject)))
              (props flatObject) finalObject
        | inl e => inl e
        end
    | Leaf a => inr (set_property (fst iv) a finalObject)
    end
  else inl TypeError.

(** The outer loop from a given turn on. *)
Fixpoint flatten_fields (callable : bool) (fs : list (string * value L))
         (finalObject : object L) : error + object L :=
  match fs with
  | [] => inr finalObject
  | iv :: fs' =>
      match flatten_field callable finalObject iv with
      | inr finalObject' => flatten_fields callable fs' finalObject'
      | inl e => inl e
      end
  end.
End FlattenObject.
Arguments set_property {L} isNull k v finalObject.
Arguments copy_properties {L} isNull i callable xs finalObject.
Arguments flattenObject {L} isNull obj.
Arguments flatten_field {L} isNull callable finalObject iv.
Arguments flatten_fields {L} isNull callable fs finalObject.

(** Induction on values, with the hypothesis for every field of an object. *)
Section ValueInduction.
Variable L : Type.
Variable P : value L -> Prop.
Hypothesis P_Leaf : forall x, P (Leaf x).
Hypothesis P_Object :
  forall b fields, Forall (fun iv => P (snd iv)) fields -> P (Object b fields).

Fixpoint value_induction (v : value L) : P v :=
  match v with
  | Leaf x => P_Leaf x
  | Object b fields =>
      P_Object b fields
        ((fix all (fs : list (string * value L)) : Forall (fun iv => P (snd iv)) fs :=
            match fs with
            | [] => Forall_nil _
            | (i, v') :: fs' =>
                Forall_cons (P := fun iv => P (snd iv)) (i, v') (value_induction v') (all fs')
            end) fields)
  end.
End ValueInduction.

(** The first of two optional values that is there. *)
Definition or_else {A} (a b : option A) : option A :=
  match a with
  | Some v => Some v
  | None => b
  end.

(** The leaves of a value in the order the loops reach them, each with the
    keys that lead to it joined by ["_"]. *)
Fixpoint leaves {L} (obj : value L) : list (string * L) :=
  match obj with
  | Leaf _ => []
  | Object _ fields =>
      flat_map (fun iv =>
                  match snd iv with
                  | Object _ _ =>
                      map (fun xy => ((fst iv ++ "_" ++ fst xy)%string, snd xy))
                          (leaves (snd iv))
                  | Leaf a => [(fst iv, a)]
                  end) fields
  end.

(** The binding of [k] that comes last in [l]. *)
Definition last_field {L} (k : string) (l : list (string * L)) : option L :=
  field k (rev l).

(** A one-level object with a prototype, as a value. *)
Definition as_object {L} (o : list (string * L)) : value L :=
  Object false (map (fun kv => (fst kv, Leaf (snd kv))) o).

(** Objects that stay clear of the two names the function trips over: every
    object, at any depth, has a prototype and no own property
    [hasOwnProperty], and no leaf of it comes under the joined key
    [__proto__]. *)
Fixpoint plain {L} (obj : value L) : bool :=
  match obj with
  | Leaf _ => true
  | Object is_bare fields =>
      negb is_bare
      && forallb (fun iv : string * value L => let (i, v) := iv in
                            negb (String.eqb i "hasOwnProperty") && plain v) fields
      && negb (has_key "__proto__" (leaves obj))
  end.

(** Keys in an order in which an object can list them: no key twice, array
    indices first and ascending. *)
Fixpoint listing (ks : list string) : bool :=
  match ks with
  | [] => true
  | k :: ks' =>
      forallb (fun k' => negb (String.eqb k' k) && negb (listed_before k' k)) ks'
      && listing ks'
  end.

(** Some object at some depth, met by the loops, has a property while its
    [hasOwnProperty] is hidden or lost. *)
Fixpoint trips {L} (obj : value L) : bool :=
  match obj with
  | Leaf _ => false
  | Object is_bare fields =>
      match fields with
      | [] => false
      | _ :: _ =>
          negb (inherits_hasOwnProperty is_bare (map fst fields))
          || existsb (fun iv : string * value L => let (i, v) := iv in trips v) fields
      end
  end.

(** *** [fetchPDFs] *)

(** What the loop does to the outside, in order. *)
Inductive event :=
| Slept (ms : option nat)
| Logged (item : string)
| Fetched (url : string).

Definition is_fetch (e : event) : bool :=
  match e with Fetched _ => true | _ => false end.

Definition is_sleep (e : event) : bool :=
  match e with Slept _ => true | _ => false end.

(** The variables of the loop, and what has happened so far. *)
Record fetch_state (R : Type) := mkFetch {
  count : nat;
  resources : list R;
  events : list event
}.
Arguments mkFetch {R} count resources events.
Arguments count {R} f.
Arguments resources {R} f.
Arguments events {R} f.

(** How the call ends. *)
Inductive completion := Returns | Throws.

(** [s.length] as a condition *)
Definition nonblank (s : string) : bool := negb (Nat.eqb (String.length s) 0).

(** The first statement of the loop body: the pause when the limit is
    reached.  [Utilities.sleep] is taken to return; its argument
    [rateLimit[1]] is [undefined] when the array has one element, and the
    properties of [fetchPDFs] are stated for the other arrays. *)
Definition pause {R} (rateLimit : list nat) (s : fetch_state R) : fetch_state R :=
  match rateLimit with
  | limit :: _ =>
      if Nat.eqb limit (count s)
      then mkFetch 0 (resources s) (events s ++ [Slept (nth_error rateLimit 1)])
      else s
  | [] => s
  end.

(** The last statement of the loop body. *)
Definition tally {R} (rateLimit : list nat) (s : fetch_state R) : fetch_state R :=
  match rateLimit with
  | _ :: _ => mkFetch (S (count s)) (resources s) (events s)
  | [] => s
  end.

(** The loop of [fetchPDFs].  [UrlFetchApp_fetch item] is the response, or
    [None] when the request, or [getAs] on its response, throws; nothing
    catches it. *)
Fixpoint fetchPDFs_loop {R} (UrlFetchApp_fetch : string -> option R)
         (rateLimit : list nat) (data : list string) (s : fetch_state R)
  : completion * fetch_state R :=
  match data with
  | [] => (Returns, s)
  | item :: data' =>
      let s1 := pause rateLimit s in
      if nonblank item then
        let s2 := mkFetch (count s1) (resources s1)
                          (events s1 ++ [Logged item; Fetched item]) in
        match UrlFetchApp_fetch item with
        | Some res =>
            fetchPDFs_loop UrlFetchApp_fetch rateLimit data'
              (tally rateLimit (mkFetch (count s2) (resources s2 ++ [res]) (events s2)))
        | None => (Throws, s2)
        end
      else fetchPDFs_loop UrlFetchApp_fetch rateLimit data' (tally rateLimit s1)
  end.

(** [fetchPDFs(data, rateLimit)]: how the call ends and the state then;
    [resources] is what a call that returns returns. *)
Definition fetchPDFs {R} (UrlFetchApp_fetch : string -> option R) (data : list string)
           (rateLimit : list nat) : completion * fetch_state R :=
  fetchPDFs_loop UrlFetchApp_fetch rateLimit data (mkFetch 0 [] []).

(** The value of a call, if it returns one. *)
Definition returned {R} (r : completion * fetch_state R) : option (list R) :=
  match fst r with
  | Returns => Some (resources (snd r))
  | Throws => None
  end.

(** All of [l] through [f], if [f] gives a value for each. *)
Fixpoint traverse {A B} (f : A -> option B) (l : list A) : option (list B) :=
  match l with
  | [] => Some []
  | x :: l' =>
      match f x with
      | Some y => option_map (cons y) (traverse f l')
      | None => None
      end
  end.

(** The items up to and with the first that [f] has no value for. *)
Fixpoint until_failure {A B} (f : A -> option B) (l : list A) : list A :=
  match l with
  | [] => []
  | x :: l' =>
      match f x with
      | Some _ => x :: until_failure f l'
      | None => [x]
      end
  end.

(** The urls fetched, in order. *)
Definition fetched (es : list event) : list string :=
  flat_map (fun e => match e with Fetched u => [u] | _ => [] end) es.

(** What the loop does from a given count on. *)
Fixpoint trace {R} (UrlFetchApp_fetch : string -> option R) (rateLimit : list nat)
         (data : list string) (c : nat) : list event :=
  match data with
  | [] => []
  | item :: data' =>
      let sleeps := match rateLimit with
                    | limit :: _ => Nat.eqb limit c
                    | [] => false
                    end in
      let c1 := if sleeps then 0 else c in
      let next := match rateLimit with _ :: _ => S c1 | [] => c1 end in
      (if sleeps then [Slept (nth_error rateLimit 1)] else [])
        ++ (if nonblank item
            then Logged item :: Fetched item
                   :: match UrlFetchApp_fetch item with
                      | Some _ => trace UrlFetchApp_fetch rateLimit data' next
                      | None => []
                      end
            else trace UrlFetchApp_fetch rateLimit data' next)
  end.


(** * Properties *)

(** Well-formedness of a store that is written out. *)
Ltac wf_by_cases :=
  split; [|split]; simpl;
  [ intros ? ? H; repeat (destruct H as [H|H]; [inversion H; lia|]); destruct H
  | intros ? ? H; repeat (destruct H as [H|H]; [inversion H; lia|]); destruct H
  | lia ].

(** ** Reasoning about computations *)

Lemma bind_Return {A B} (m : M A) (k : A -> M B) d a d' :
  m d = Return a d' -> bind m k d = k a d'.
Proof. unfold bind; intros ->; reflexivity. Qed.

Lemma bind_Throw {A B} (m : M A) (k : A -> M B) d e d' :
  m d = Throw e d' -> bind m k d = Throw e d'.
Proof. unfold bind; intros ->; reflexivity. Qed.

(** ** Lists *)

Lemma filter_filter {A} (f g : A -> bool) (l : list A) :
  filter f (filter g l) = filter (fun x => g x && f x) l.
Proof.
  induction l as [|x l IH]; simpl; [reflexivity|].
  destruct (g x); simpl; [destruct (f x)|]; now rewrite IH.
Qed.

(** ** Detaching and attaching *)

Lemma with_edges_same d : with_edges d (edges d) = d.
Proof. destruct d; reflexivity. Qed.

Lemma forEach_removeFolder x ps d :
  forEach ps (fun currentFolder => modify (removeFolder currentFolder x)) d
  = Return tt
      (with_edges d
         (filter (fun e => negb ((snd e =? x) && existsb (Nat.eqb (fst e)) ps))
                 (edges d))).
Proof.
  revert d; induction ps as [|p ps IH]; intros d; simpl.
  - unfold ret. f_equal.
    rewrite <- (with_edges_same d) at 1. f_equal.
    symmetry. apply forallb_filter_id.
    apply forallb_forall. intros e _. now rewrite andb_false_r.
  - unfold bind, modify. rewrite IH. f_equal.
    unfold removeFolder, with_edges; simpl. f_equal.
    rewrite filter_filter. apply filter_ext. intros [a b]; unfold edge_eqb; simpl.
    destruct (b =? x); destruct (a =? p); simpl; try reflexivity;
      now rewrite ?andb_true_r, ?andb_false_r.
Qed.

Lemma detachAll_run x d : detachAll x d = Return tt (detached x d).
Proof.
  unfold detachAll, bind, gets. rewrite forEach_removeFolder.
  f_equal. unfold detached. f_equal.
  apply filter_ext_in. intros [a b] Hin; simpl.
  destruct (b =? x) eqn:E; simpl; [|reflexivity].
  replace (existsb (Nat.eqb a) (getParents d x)) with true; [reflexivity|].
  symmetry. apply existsb_exists. exists a. split; [|apply Nat.eqb_refl].
  unfold getParents. apply in_map_iff. exists (a, b). split; [reflexivity|].
  apply filter_In. split; assumption.
Qed.

Lemma getParents_detached x d : getParents (detached x d) x = [].
Proof.
  unfold getParents, detached; simpl. rewrite filter_filter.
  replace (filter _ (edges d)) with (@nil (id * id)); [reflexivity|].
  symmetry. induction (edges d) as [|[a b] es IH]; simpl; [reflexivity|].
  destruct (b =? x); simpl; assumption.
Qed.

Lemma getParents_addFolder p x d :
  getParents (addFolder p x d) x = getParents d x ++ [p].
Proof.
  unfold getParents, addFolder; simpl.
  rewrite filter_app, map_app; simpl. now rewrite Nat.eqb_refl.
Qed.

Lemma edges_off_detached x d : edges_off x (detached x d) = edges_off x d.
Proof.
  unfold edges_off, detached; simpl. rewrite filter_filter.
  apply filter_ext. intros e. now rewrite andb_diag.
Qed.

Lemma edges_off_addFolder p x d : edges_off x (addFolder p x d) = edges_off x d.
Proof.
  unfold edges_off, addFolder; simpl. rewrite filter_app; simpl.
  rewrite Nat.eqb_refl; simpl. apply app_nil_r.
Qed.

(** C3.  [moveFolderToFolderById] on a folder [src] held by any number of
    folders (none, one or several) and a folder [dst] runs to completion, and
    afterwards [dst] is the one folder holding [src]: every edge into [src]
    that existed is gone, one edge from [dst] to [src] has been added, and the
    edges into other items are left as they were. *)
Theorem moveFolderToFolderById_parents (d : drive) (src dst : id)
  (Hsrc : is_folder d src = true) (Hdst : is_folder d dst = true) :
  exists d',
    Utils.moveFolderToFolderById src dst d = Return tt d'
    /\ getParents d' src = [dst]
    /\ edges d' = edges_off src d ++ [(dst, src)]
    /\ edges_off src d' = edges_off src d
    /\ items d' = items d.
Proof.
  unfold Utils.moveFolderToFolderById.
  exists (addFolder dst src (detached src d)).
  split.
  { unfold bind at 1. unfold DriveApp_getFolderById at 1. rewrite Hsrc.
    unfold bind at 1. unfold DriveApp_getFolderById at 1. rewrite Hdst.
    unfold bind. rewrite detachAll_run. reflexivity. }
  split; [now rewrite getParents_addFolder, getParents_detached|].
  split; [reflexivity|].
  split; [now rewrite edges_off_addFolder, edges_off_detached|reflexivity].
Qed.

Lemma moveFolderToFolderById_parents_witness :
  getParents drive_two_parents 3 = [1; 2]
  /\ exists d',
       moveFolderToFolderById 3 4 drive_two_parents = Return tt d'
       /\ getParents d' 3 = [4]
       /\ edges d' = [(0, 1); (0, 2); (0, 4); (4, 3)].
Proof.
  split; [reflexivity|].
  destruct (moveFolderToFolderById_parents drive_two_parents 3 4 eq_refl eq_refl)
    as (d' & Hrun & Hp & He & _).
  exists d'. split; [exact Hrun|]. split; [exact Hp|exact He].
Defined.

(** ** [moveFolderToFolderByName] case by case *)

Lemma moveFolderToFolderByName_run d src dst u :
  Utils.moveFolderToFolderByName src dst u d =
  match checks d src dst u with
  | inl e => Throw e d
  | inr (None, _) => Throw TypeError d
  | inr (Some s, None) => Throw TypeError (detached s d)
  | inr (Some s, Some t) => Return tt (addFolder t s (detached s d))
  end.
Proof.
  unfold Utils.moveFolderToFolderByName, checks.
  unfold bind at 1. unfold gets at 1.
  destruct (getFoldersByName d src) as [|s [|s' more]] eqn:Es;
    destruct u; simpl;
    unfold bind, gets, ret, throw;
    destruct (getFoldersByName d dst) as [|t [|t' more']] eqn:Et; simpl;
    try reflexivity;
    try (destruct (existsb _ _); simpl; try reflexivity);
    rewrite ?detachAll_run; reflexivity.
Qed.

(** The three [throw new Error] sites are reached before any edge is touched,
    and so is the failure on a source name that no folder bears. *)
Lemma moveFolderToFolderByName_Error_unchanged d src dst u e d' :
  Utils.moveFolderToFolderByName src dst u d = Throw e d' ->
  e <> TypeError -> d' = d.
Proof.
  rewrite moveFolderToFolderByName_run.
  destruct (checks d src dst u) as [e0|[[s|] [t|]]]; intros H Hne;
    inversion H; subst; congruence.
Qed.

Lemma moveFolderToFolderByName_no_source d src dst u :
  getFoldersByName d src = [] ->
  exists e, Utils.moveFolderToFolderByName src dst u d = Throw e d.
Proof.
  intros Hs. rewrite moveFolderToFolderByName_run. unfold checks. rewrite Hs.
  simpl. rewrite andb_false_r.
  destruct (getFoldersByName d dst) as [|t [|t' more']]; simpl;
    try destruct (existsb _ _); eauto.
Qed.

(** C1.  At a store where one folder bears the source name and no folder bears
    the destination name, [moveFolderToFolderByName] fails on the missing
    destination only after the loop over the parents has run: the source
    folder has been taken out of the folder that held it. *)
Theorem moveFolderToFolderByName_missing_destination_detaches :
  getFoldersByName drive_reports "Archive" = []
  /\ getParents drive_reports 1 = [0]
  /\ exists d',
       Utils.moveFolderToFolderByName "Reports" "Archive" false drive_reports
       = Throw TypeError d'
       /\ getParents d' 1 = []
       /\ edges d' <> edges drive_reports.
Proof.
  split; [reflexivity|]. split; [reflexivity|].
  eexists. split; [reflexivity|]. split; [reflexivity|]. discriminate.
Qed.

(** C2.  When no folder bears the destination name the call always fails;
    when moreover the source check lets a source folder through, the failure
    is the [TypeError] of [targetFolder.addFolder] on [undefined], raised
    after the source folder has been removed from every folder holding it. *)
Theorem moveFolderToFolderByName_no_destination (d : drive) (src dst : string)
  (u : bool) (Hdst : getFoldersByName d dst = []) :
  (exists e d', Utils.moveFolderToFolderByName src dst u d = Throw e d')
  /\ (forall s more,
        getFoldersByName d src = s :: more ->
        u && Utils.nonempty more = false ->
        Utils.moveFolderToFolderByName src dst u d = Throw TypeError (detached s d)
        /\ getParents (detached s d) s = []).
Proof.
  rewrite moveFolderToFolderByName_run. unfold checks. rewrite Hdst. split.
  - destruct (getFoldersByName d src) as [|s [|s' more]]; destruct u; simpl; eauto.
  - intros s more Hs Hu. rewrite Hs. split; [|apply getParents_detached].
    destruct more as [|s' more]; destruct u; try discriminate; reflexivity.
Qed.

Lemma moveFolderToFolderByName_no_destination_witness :
  getParents drive_shared 3 = [1; 2]
  /\ Utils.moveFolderToFolderByName "Reports" "Archive" true drive_shared
     = Throw TypeError (detached 3 drive_shared)
  /\ getParents (detached 3 drive_shared) 3 = [].
Proof.
  split; [reflexivity|].
  apply (proj2 (moveFolderToFolderByName_no_destination
                  drive_shared "Reports" "Archive" true eq_refl) 3 [] eq_refl eq_refl).
Defined.

(** C5, as stated, fails: with two folders bearing the destination name, the
    error is not the destination one when [isUnique] is set and the source
    name is ambiguous too. *)
Lemma destination_ambiguity_not_always_reported :
  ~ (forall (d : drive) (src dst : string) (u : bool),
       1 < List.length (getFoldersByName d dst) ->
       Utils.moveFolderToFolderByName src dst u d = Throw Error_DestinationNotUnique d).
Proof.
  intros H.
  specialize (H drive_twins "S" "D" true).
  assert (L : 1 < List.length (getFoldersByName drive_twins "D")) by (simpl; lia).
  specialize (H L). discriminate H.
Qed.

(** C5, amended.  The source check comes first.  Several folders bearing the
    source name raise the source error exactly when [isUnique] is set;
    otherwise the first of them is the one moved.  Several folders bearing the
    destination name raise the destination error whatever [isUnique] is, as
    soon as the source check has let the call through. *)
Theorem moveFolderToFolderByName_uniqueness (d : drive) (src dst : string) (u : bool) :
  (1 < List.length (getFoldersByName d src) -> u = true ->
     Utils.moveFolderToFolderByName src dst u d = Throw Error_SourceNotUnique d)
  /\ (u = false ->
      forall d', Utils.moveFolderToFolderByName src dst u d
                 <> Throw Error_SourceNotUnique d')
  /\ (1 < List.length (getFoldersByName d dst) ->
      u = false \/ List.length (getFoldersByName d src) <= 1 ->
      Utils.moveFolderToFolderByName src dst u d = Throw Error_DestinationNotUnique d)
  /\ (forall s more t,
        getFoldersByName d src = s :: more -> u = false ->
        getFoldersByName d dst = [t] ->
        existsb (fun n => String.eqb n src) (map (getName d) (getFolders d t)) = false ->
        Utils.moveFolderToFolderByName src dst u d
        = Return tt (addFolder t s (detached s d))).
Proof.
  rewrite moveFolderToFolderByName_run. unfold checks.
  split; [|split; [|split]].
  - intros Hlen ->.
    apply Nat.ltb_lt in Hlen. now rewrite Hlen.
  - intros -> d'. simpl.
    destruct (getFoldersByName d dst) as [|t [|t' more']];
      try destruct (existsb _ _);
      try destruct (hd_error (getFoldersByName d src)); discriminate.
  - intros Hlen Hsrc.
    replace (u && (1 <? List.length (getFoldersByName d src))) with false.
    + destruct (getFoldersByName d dst) as [|t [|t' more']]; simpl in Hlen; try lia.
      reflexivity.
    + destruct Hsrc as [-> | Hsrc]; [reflexivity|].
      symmetry. apply andb_false_intro2. apply Nat.ltb_ge. exact Hsrc.
  - intros s more t Hs -> Ht Hc. rewrite Hs, Ht, Hc. reflexivity.
Qed.

Lemma moveFolderToFolderByName_uniqueness_witness :
  Utils.moveFolderToFolderByName "S" "D" true drive_twins
    = Throw Error_SourceNotUnique drive_twins
  /\ Utils.moveFolderToFolderByName "S" "D" false drive_twins
    = Throw Error_DestinationNotUnique drive_twins
  /\ Utils.moveFolderToFolderByName "S" "E" false drive_twins
    = Return tt (addFolder 5 1 (detached 1 drive_twins)).
Proof.
  split; [|split].
  - apply (proj1 (moveFolderToFolderByName_uniqueness drive_twins "S" "D" true));
      [simpl; lia|reflexivity].
  - apply (proj1 (proj2 (proj2
             (moveFolderToFolderByName_uniqueness drive_twins "S" "D" false))));
      [simpl; lia|left; reflexivity].
  - apply (proj2 (proj2 (proj2
             (moveFolderToFolderByName_uniqueness drive_twins "S" "E" false)))
             1 [2] 5); reflexivity.
Defined.

(** ** The searches follow the traversal orders *)

Lemma has_kind_excl d i : is_folder d i = true -> is_file d i = false.
Proof.
  unfold is_folder, is_file, has_kind.
  destruct (lookup d i) as [it|]; [|reflexivity].
  destruct (item_kind it); simpl; congruence.
Qed.

Lemma getFolders_is_folder d f x : In x (getFolders d f) -> is_folder d x = true.
Proof. unfold getFolders. intros H. now apply filter_In in H. Qed.

Lemma getFiles_is_file d f x : In x (getFiles d f) -> is_file d x = true.
Proof. unfold getFiles. intros H. now apply filter_In in H. Qed.

Lemma sequence_cons {A} (o : option A) l r :
  sequence (o :: l) = Some r ->
  exists a r', o = Some a /\ sequence l = Some r' /\ r = a :: r'.
Proof.
  simpl. destruct o as [a|]; [|discriminate].
  destruct (sequence l) as [r'|]; [|discriminate].
  intros H; inversion H; eauto.
Qed.

Lemma view_S n d f t :
  view (S n) d f = Some t ->
  exists ts, sequence (map (view n d) (getFolders d f)) = Some ts
             /\ t = Node f (getFiles d f) ts.
Proof.
  simpl. destruct (sequence _) as [ts|]; [|discriminate].
  intros H; inversion H; eauto.
Qed.

Lemma view_id n d f t : view n d f = Some t -> tree_id t = f.
Proof.
  destruct n; [discriminate|]. intros H.
  apply view_S in H as (ts & _ & ->). reflexivity.
Qed.

Lemma scan_found p l s : found s = true -> scan p l s = s.
Proof. destruct l; simpl; [reflexivity|]. now intros ->. Qed.

Lemma scan_app p l1 l2 s : scan p (l1 ++ l2) s = scan p l2 (scan p l1 s).
Proof.
  revert s; induction l1 as [|x l1 IH]; intros s; simpl; [reflexivity|].
  destruct (found s) eqn:E; [now rewrite scan_found|apply IH].
Qed.

Lemma scan_closed p l s :
  found s = false ->
  scan p l s = mkS (existsb p l)
                   (match find p l with Some x => Some x | None => target s end)
                   (visited s ++ upto p l).
Proof.
  revert s; induction l as [|x l IH]; intros s Hs; simpl.
  - rewrite app_nil_r. destruct s; simpl in *; now subst.
  - rewrite Hs. destruct (p x) eqn:Ep; simpl.
    + now rewrite scan_found.
    + rewrite IH by exact Hs. simpl. now rewrite <- app_assoc.
Qed.

Lemma result_scan p l : result (scan p l s0) = find p l.
Proof.
  rewrite scan_closed by reflexivity. unfold result; simpl.
  destruct (find p l) as [x|] eqn:E.
  - apply find_some in E as [Hin Hp].
    replace (existsb p l) with true; [reflexivity|].
    symmetry. apply existsb_exists. eauto.
  - destruct (existsb p l); reflexivity.
Qed.

Lemma visited_scan p l : visited (scan p l s0) = upto p l.
Proof. now rewrite scan_closed. Qed.

(** The items met up to a match are those that precede it in the order,
    then the match: nothing that follows it is met. *)
Lemma upto_split p l x :
  find p l = Some x ->
  exists l1 l2, l = l1 ++ x :: l2 /\ upto p l = l1 ++ [x]
                /\ forall y, In y l1 -> p y = false.
Proof.
  induction l as [|a l IH]; simpl; [discriminate|].
  destruct (p a) eqn:Ea.
  - intros H; inversion H; subst. exists [], l. repeat split. intros y [].
  - intros H. destruct (IH H) as (l1 & l2 & -> & -> & Hno).
    exists (a :: l1), l2. repeat split.
    intros y [<-|Hy]; auto.
Qed.

Lemma whileNext_files d partialMatch name files s :
  (forall x, In x files -> is_file d x = true) ->
  whileNext files
    (fun file s =>
       if String.eqb (getName d file) name then Some (hit file s)
       else if partialMatch && includes (getName d file) name
            then Some (hit file s)
            else Some s) s
  = Some (scan (fileMatches d partialMatch name) files s).
Proof.
  revert s; induction files as [|x files IH]; intros s Hf; simpl; [reflexivity|].
  destruct (found s); [reflexivity|].
  assert (E : fileMatches d partialMatch name x
              = String.eqb (getName d x) name
                || (partialMatch && includes (getName d x) name))
    by (unfold fileMatches; now rewrite (Hf x) by now left).
  rewrite E.
  destruct (String.eqb (getName d x) name); simpl.
  - apply IH. intros; apply Hf; now right.
  - destruct (partialMatch && includes (getName d x) name);
      apply IH; intros; apply Hf; now right.
Qed.

Lemma searchFile_scan n : forall d partialMatch name f t s,
  view n d f = Some t ->
  searchFile n d partialMatch f name s
  = Some (scan (fileMatches d partialMatch name) (fileOrder t) s).
Proof.
  induction n as [|n IH]; intros d pm name f t s Hv; [discriminate|].
  apply view_S in Hv as (ts & Hts & ->). simpl.
  rewrite whileNext_files by apply getFiles_is_file.
  rewrite scan_app.
  generalize (scan (fileMatches d pm name) (getFiles d f) s). clear s.
  assert (Hfo : forall x, In x (getFolders d f) -> is_folder d x = true)
    by apply getFolders_is_folder.
  revert ts Hts Hfo. generalize (getFolders d f) as l.
  induction l as [|x l IHl]; intros ts Hts Hfo s.
  - simpl in Hts. inversion Hts; subst. reflexivity.
  - apply sequence_cons in Hts as (tx & ts' & Hx & Hts' & ->).
    simpl. destruct (found s) eqn:Es; [reflexivity|].
    rewrite (IH _ _ _ _ _ _ Hx). rewrite (IHl ts' Hts'); [|intros; apply Hfo; now right].
    rewrite (view_id _ _ _ _ Hx).
    assert (E : fileMatches d pm name x = false)
      by (unfold fileMatches; now rewrite (has_kind_excl d x) by (apply Hfo; now left)).
    rewrite E. now rewrite scan_app.
Qed.

Lemma searchFolder_scan n : forall d name f t s,
  view n d f = Some t ->
  searchFolder n d f name s = Some (scan (folderMatches d name) (folderOrder t) s).
Proof.
  induction n as [|n IH]; intros d name f t s Hv; [discriminate|].
  apply view_S in Hv as (ts & Hts & ->). simpl.
  assert (Hfo : forall x, In x (getFolders d f) -> is_folder d x = true)
    by apply getFolders_is_folder.
  revert ts Hts Hfo s. generalize (getFolders d f) as l.
  induction l as [|x l IHl]; intros ts Hts Hfo s.
  - simpl in Hts. inversion Hts; subst. reflexivity.
  - apply sequence_cons in Hts as (tx & ts' & Hx & Hts' & ->).
    simpl. destruct (found s) eqn:Es; [reflexivity|].
    rewrite (IH _ _ _ _ _ Hx). rewrite (IHl ts' Hts'); [|intros; apply Hfo; now right].
    rewrite (view_id _ _ _ _ Hx).
    assert (E : folderMatches d name x = String.eqb (getName d x) name)
      by (unfold folderMatches; now rewrite (Hfo x) by now left).
    rewrite E. now rewrite scan_app.
Qed.

Lemma findFileByName_run d n F t name partialMatch :
  is_folder d F = true -> view n d F = Some t ->
  findFileByName n F name partialMatch d
  = Return (find (fileMatches d partialMatch name) (fileOrder t)) d.
Proof.
  intros HF Hv. unfold findFileByName, bind, DriveApp_getFolderById, runSearch, ret.
  rewrite HF, (searchFile_scan _ _ _ _ _ _ _ Hv). now rewrite result_scan.
Qed.

Lemma findFolderByName_run d n F t name :
  is_folder d F = true -> view n d F = Some t ->
  findFolderByName n F name d
  = Return (find (folderMatches d name) (folderOrder t)) d.
Proof.
  intros HF Hv. unfold findFolderByName, bind, DriveApp_getFolderById, runSearch, ret.
  rewrite HF, (searchFolder_scan _ _ _ _ _ _ Hv). now rewrite result_scan.
Qed.

Lemma find_all_false {A} (p : A -> bool) l :
  (forall x, In x l -> p x = false) -> find p l = None.
Proof.
  induction l as [|a l IH]; simpl; intros H; [reflexivity|].
  rewrite (H a) by now left. apply IH. intros; apply H; now right.
Qed.

(** The searches only read the store. *)
Lemma findFileByName_reads d n F name partialMatch :
  match findFileByName n F name partialMatch d with
  | Return _ d' | Throw _ d' => d' = d
  | Diverge => True
  end.
Proof.
  unfold findFileByName, bind, DriveApp_getFolderById, runSearch, ret.
  destruct (is_folder d F); [|reflexivity].
  destruct (searchFile _ _ _ _ _ _); exact I || reflexivity.
Qed.

Lemma findFolderByName_reads d n F name :
  match findFolderByName n F name d with
  | Return _ d' | Throw _ d' => d' = d
  | Diverge => True
  end.
Proof.
  unfold findFolderByName, bind, DriveApp_getFolderById, runSearch, ret.
  destruct (is_folder d F); [|reflexivity].
  destruct (searchFolder _ _ _ _ _); exact I || reflexivity.
Qed.

(** C6.  From a folder F whose unfolding is [t], both searches return the
    first item of their traversal order that matches the name, and nothing
    when no item of the order matches; the items they meet are those of the
    order up to that first match, so nothing that follows it (the later
    siblings of the match and of its ancestors) is met; and whatever the
    outcome, the store is the one the search started from. *)
Theorem findByName_first_match (d : drive) (n : nat) (F : id) (t : tree)
  (name : string) (partialMatch : bool)
  (HF : is_folder d F = true) (Hview : view n d F = Some t) :
  let pf := fileMatches d partialMatch name in
  let pd := folderMatches d name in
  (findFileByName n F name partialMatch d = Return (find pf (fileOrder t)) d
   /\ exists s, searchFile n d partialMatch F name s0 = Some s
                /\ visited s = upto pf (fileOrder t))
  /\ (findFolderByName n F name d = Return (find pd (folderOrder t)) d
      /\ exists s, searchFolder n d F name s0 = Some s
                   /\ visited s = upto pd (folderOrder t))
  /\ ((forall x, In x (fileOrder t) -> pf x = false) ->
      findFileByName n F name partialMatch d = Return None d)
  /\ ((forall x, In x (folderOrder t) -> pd x = false) ->
      findFolderByName n F name d = Return None d)
  /\ (forall order p x, find p order = Some x ->
        exists before after,
          order = before ++ x :: after /\ upto p order = before ++ [x]
          /\ forall y, In y before -> p y = false)
  /\ (forall n' F' name' pm',
        match findFileByName n' F' name' pm' d with
        | Return _ d' | Throw _ d' => d' = d
        | Diverge => True
        end)
  /\ (forall n' F' name',
        match findFolderByName n' F' name' d with
        | Return _ d' | Throw _ d' => d' = d
        | Diverge => True
        end).
Proof.
  intros pf pd.
  split; [|split; [|split; [|split; [|split; [|split]]]]].
  - split; [now apply findFileByName_run|].
    eexists. split; [apply (searchFile_scan _ _ _ _ _ _ _ Hview)|]. apply visited_scan.
  - split; [now apply findFolderByName_run|].
    eexists. split; [apply (searchFolder_scan _ _ _ _ _ _ Hview)|]. apply visited_scan.
  - intros H. rewrite (findFileByName_run _ _ _ _ _ _ HF Hview).
    f_equal. now apply find_all_false.
  - intros H. rewrite (findFolderByName_run _ _ _ _ _ HF Hview).
    f_equal. now apply find_all_false.
  - intros order p x. apply upto_split.
  - intros. apply findFileByName_reads.
  - intros. apply findFolderByName_reads.
Qed.

Lemma findByName_first_match_witness :
  findFileByName 3 0 "invoice-2020.pdf" false drive_project
    = Return (Some 4) drive_project
  /\ (exists s, searchFile 3 drive_project false 0 "invoice-2020.pdf" s0 = Some s
                /\ visited s = [2; 1; 3; 4])
  /\ findFileByName 3 0 "notes" true drive_project = Return (Some 2) drive_project
  /\ findFolderByName 3 0 "Invoices" drive_project = Return (Some 3) drive_project
  /\ findFolderByName 3 0 "notes.txt" drive_project = Return None drive_project.
Proof.
  pose proof (findByName_first_match drive_project 3 0 tree_project
                "invoice-2020.pdf" false eq_refl eq_refl) as H1.
  pose proof (findByName_first_match drive_project 3 0 tree_project
                "notes" true eq_refl eq_refl) as H2.
  pose proof (findByName_first_match drive_project 3 0 tree_project
                "Invoices" false eq_refl eq_refl) as H3.
  pose proof (findByName_first_match drive_project 3 0 tree_project
                "notes.txt" false eq_refl eq_refl) as H4.
  split; [exact (proj1 (proj1 H1))|].
  split; [exact (proj2 (proj1 H1))|].
  split; [exact (proj1 (proj1 H2))|].
  split; [exact (proj1 (proj1 (proj2 H3)))|].
  exact (proj1 (proj1 (proj2 H4))).
Defined.

Lemma sequence_view_ids n d l ts :
  sequence (map (view n d) l) = Some ts -> map tree_id ts = l.
Proof.
  revert ts; induction l as [|x l IH]; intros ts H.
  - inversion H; reflexivity.
  - apply sequence_cons in H as (tx & ts' & Hx & Hts' & ->).
    simpl. now rewrite (view_id _ _ _ _ Hx), (IH ts').
Qed.

Lemma view_subs n d f t :
  view n d f = Some t -> map tree_id (tree_subs t) = getFolders d f.
Proof.
  destruct n; [discriminate|]. intros H.
  apply view_S in H as (ts & Hts & ->). simpl.
  now apply sequence_view_ids in Hts.
Qed.

Lemma find_app {A} (p : A -> bool) l1 l2 :
  find p (l1 ++ l2) = match find p l1 with Some x => Some x | None => find p l2 end.
Proof.
  induction l1 as [|a l1 IH]; simpl; [reflexivity|].
  destruct (p a); [reflexivity|apply IH].
Qed.

(** C4, as stated, fails: a direct child bearing the name does not win over a
    match that lies deeper inside a sibling listed before it. *)
Lemma direct_child_not_preferred :
  ~ (forall (d : drive) (n : nat) (F : id) (name : string) (r : id),
       findFolderByName n F name d = Return (Some r) d ->
       (exists c, In c (getFolders d F) /\ getName d c = name) ->
       In r (getFolders d F)).
Proof.
  intros H.
  assert (In 3 (getFolders drive_nested 0)) as Hin.
  { apply (H drive_nested 3 0 "T" 3); [reflexivity|].
    exists 2. split; [simpl; auto|reflexivity]. }
  simpl in Hin. intuition discriminate.
Qed.

(** C4, amended.  The folder search compares a child and then searches the
    whole of that child before it looks at the next child.  So a direct child
    [c] of the visited folder that bears the name is returned only when no
    folder bearing the name is met earlier: neither a child listed before [c]
    nor any folder below such a child.  Otherwise the first of those earlier
    folders, in pre-order, is returned. *)
Theorem findFolderByName_earlier_subtree_first (d : drive) (n : nat) (F : id)
  (t : tree) (before : list tree) (c : tree) (after : list tree) (name : string)
  (HF : is_folder d F = true) (Hview : view n d F = Some t)
  (Hsubs : tree_subs t = before ++ c :: after)
  (Hname : getName d (tree_id c) = name) :
  findFolderByName n F name d
  = Return (match find (folderMatches d name)
                       (flat_map (fun x => tree_id x :: folderOrder x) before) with
            | Some earlier => Some earlier
            | None => Some (tree_id c)
            end) d.
Proof.
  rewrite (findFolderByName_run _ _ _ _ _ HF Hview). f_equal.
  assert (Hc : is_folder d (tree_id c) = true).
  { apply (getFolders_is_folder d F).
    rewrite <- (view_subs _ _ _ _ Hview), Hsubs, map_app. simpl.
    apply in_or_app. right. now left. }
  destruct t as [i fs ts]. simpl in Hsubs. subst ts. simpl.
  rewrite flat_map_app, find_app. simpl.
  unfold folderMatches at 2. rewrite Hc, Hname, String.eqb_refl. reflexivity.
Qed.

Lemma findFolderByName_earlier_subtree_first_witness :
  findFolderByName 3 0 "T" drive_nested = Return (Some 3) drive_nested
  /\ findFolderByName 3 1 "T" drive_nested = Return (Some 3) drive_nested.
Proof.
  split.
  - exact (findFolderByName_earlier_subtree_first drive_nested 3 0
             (Node 0 [] [Node 1 [] [Node 3 [] []]; Node 2 [] []])
             [Node 1 [] [Node 3 [] []]] (Node 2 [] []) [] "T"
             eq_refl eq_refl eq_refl eq_refl).
  - exact (findFolderByName_earlier_subtree_first drive_nested 3 1
             (Node 1 [] [Node 3 [] []])
             [] (Node 3 [] []) [] "T"
             eq_refl eq_refl eq_refl eq_refl).
Defined.

(** ** Absent names *)

(** C9.  When no file of the searched order bears the name, [getFileId] ends
    in the [TypeError] of [file.getId()] on [undefined]; when no folder does,
    so does [getFolderId]; and [locateFileId] ends in that [TypeError] both
    when the folder is absent and when the folder is found but holds no file
    of the given name.  No value is returned in any of these cases, and the
    store is left as it was. *)
Theorem getId_of_absent_name_is_TypeError (d : drive) (n : nat) (F : id) (t : tree)
  (name : string) (HF : is_folder d F = true) (Hview : view n d F = Some t) :
  ((forall x, In x (fileOrder t) -> fileMatches d false name x = false) ->
     getFileId n F name d = Throw TypeError d)
  /\ ((forall x, In x (folderOrder t) -> folderMatches d name x = false) ->
      getFolderId n F name d = Throw TypeError d
      /\ forall file, locateFileId n (mkRequest F name file) d = Throw TypeError d)
  /\ (forall sub tsub file,
        find (folderMatches d name) (folderOrder t) = Some sub ->
        view n d sub = Some tsub ->
        (forall x, In x (fileOrder tsub) -> fileMatches d false file x = false) ->
        locateFileId n (mkRequest F name file) d = Throw TypeError d).
Proof.
  split; [|split].
  - intros H. unfold getFileId, bind.
    rewrite (findFileByName_run _ _ _ _ _ _ HF Hview), (find_all_false _ _ H).
    reflexivity.
  - intros H.
    assert (E : getFolderId n F name d = Throw TypeError d).
    { unfold getFolderId, bind.
      rewrite (findFolderByName_run _ _ _ _ _ HF Hview), (find_all_false _ _ H).
      reflexivity. }
    split; [exact E|]. intros file. unfold locateFileId; simpl.
    now rewrite (bind_Throw _ _ _ _ _ E).
  - intros sub tsub file Hsub Hv Hno.
    assert (Hfo : is_folder d sub = true).
    { apply find_some in Hsub as [_ Hp]. unfold folderMatches in Hp.
      now apply andb_prop in Hp as [Hp _]. }
    unfold locateFileId; simpl.
    assert (E : getFolderId n F name d = Return sub d).
    { unfold getFolderId, bind.
      rewrite (findFolderByName_run _ _ _ _ _ HF Hview), Hsub. reflexivity. }
    rewrite (bind_Return _ _ _ _ _ E).
    assert (E' : getFileId n sub file d = Throw TypeError d).
    { unfold getFileId, bind.
      rewrite (findFileByName_run _ _ _ _ _ _ Hfo Hv), (find_all_false _ _ Hno).
      reflexivity. }
    now rewrite (bind_Throw _ _ _ _ _ E').
Qed.

Lemma getId_of_absent_name_is_TypeError_witness :
  getFileId 3 0 "budget.xls" drive_project = Throw TypeError drive_project
  /\ getFolderId 3 0 "Receipts" drive_project = Throw TypeError drive_project
  /\ locateFileId 3 (mkRequest 0 "Receipts" "notes.txt") drive_project
     = Throw TypeError drive_project
  /\ locateFileId 3 (mkRequest 0 "Archive" "notes.txt") drive_project
     = Throw TypeError drive_project.
Proof.
  assert (no_file : forall name l,
            forallb (fun x => negb (fileMatches drive_project false name x)) l = true ->
            forall x, In x l -> fileMatches drive_project false name x = false).
  { intros name l H x Hx. rewrite forallb_forall in H.
    apply negb_true_iff. now apply H. }
  assert (no_folder : forall name l,
            forallb (fun x => negb (folderMatches drive_project name x)) l = true ->
            forall x, In x l -> folderMatches drive_project name x = false).
  { intros name l H x Hx. rewrite forallb_forall in H.
    apply negb_true_iff. now apply H. }
  split; [|split; [|split]].
  - apply (proj1 (getId_of_absent_name_is_TypeError drive_project 3 0 tree_project
                    "budget.xls" eq_refl eq_refl)).
    apply no_file. reflexivity.
  - apply (proj1 (proj2 (getId_of_absent_name_is_TypeError drive_project 3 0
                           tree_project "Receipts" eq_refl eq_refl))).
    apply no_folder. reflexivity.
  - apply (proj1 (proj2 (getId_of_absent_name_is_TypeError drive_project 3 0
                           tree_project "Receipts" eq_refl eq_refl))).
    apply no_folder. reflexivity.
  - apply (proj2 (proj2 (getId_of_absent_name_is_TypeError drive_project 3 0
                           tree_project "Archive" eq_refl eq_refl))
             5 (Node 5 [6] []) "notes.txt" eq_refl eq_refl).
    apply no_file. reflexivity.
Defined.

(** ** Creating an item leaves the rest of the store as it was *)

Lemma lookup_In d i it : lookup d i = Some it -> In (i, it) (items d).
Proof.
  unfold lookup. destruct (find _ _) as [[j it']|] eqn:E; [|discriminate].
  intros H; inversion H; subst.
  apply find_some in E as [Hin Hj]. simpl in Hj.
  apply Nat.eqb_eq in Hj. now subst.
Qed.

Lemma has_kind_lt k d i : wf d -> has_kind k d i = true -> i < next_id d.
Proof.
  intros (Hi & _) H. unfold has_kind in H.
  destruct (lookup d i) as [it|] eqn:E; [|discriminate].
  apply lookup_In in E. eauto.
Qed.

Lemma lookup_fresh d i : wf d -> next_id d <= i -> lookup d i = None.
Proof.
  intros Hwf Hle. destruct (lookup d i) as [it|] eqn:E; [|reflexivity].
  apply lookup_In in E. destruct Hwf as (Hi & _). apply Hi in E. lia.
Qed.

Lemma lookup_create p it d i :
  i <> next_id d -> lookup (snd (create p it d)) i = lookup d i.
Proof.
  intros Hne. unfold lookup, create; simpl. rewrite find_app.
  destruct (find (fun q => fst q =? i) (items d)); [reflexivity|]. simpl.
  destruct (Nat.eqb_spec (next_id d) i); [congruence|reflexivity].
Qed.

Lemma lookup_create_new p it d :
  wf d -> lookup (snd (create p it d)) (next_id d) = Some it.
Proof.
  intros Hwf. pose proof (lookup_fresh d (next_id d) Hwf (le_n _)) as E.
  unfold lookup in *. unfold create; simpl. rewrite find_app.
  destruct (find (fun q => fst q =? next_id d) (items d)); [discriminate|]. simpl.
  now rewrite Nat.eqb_refl.
Qed.

Lemma has_kind_create k p it d i :
  i <> next_id d -> has_kind k (snd (create p it d)) i = has_kind k d i.
Proof. intros H. unfold has_kind. now rewrite lookup_create. Qed.

Lemma children_create p it d f :
  children (snd (create p it d)) f
  = children d f ++ (if p =? f then [next_id d] else []).
Proof.
  unfold children, create; simpl. rewrite filter_app, map_app. simpl.
  destruct (p =? f); reflexivity.
Qed.

Lemma children_lt d f c : wf d -> In c (children d f) -> c < next_id d.
Proof.
  intros (_ & He & _) H. unfold children in H.
  apply in_map_iff in H as ([a b] & <- & H). apply filter_In in H as [H _].
  now apply He in H.
Qed.

Lemma filter_nil {A} (p : A -> bool) l :
  (forall x, In x l -> p x = false) -> filter p l = [].
Proof.
  induction l as [|a l IH]; simpl; intros H; [reflexivity|].
  rewrite (H a) by now left. apply IH. intros; apply H; now right.
Qed.

Lemma children_fresh d f : wf d -> next_id d <= f -> children d f = [].
Proof.
  intros (_ & He & _) Hle. unfold children.
  rewrite filter_nil; [reflexivity|].
  intros [a b] Hin. simpl. apply He in Hin as [Ha _].
  apply Nat.eqb_neq. lia.
Qed.

Lemma filter_kind_create k p it d l :
  (forall c, In c l -> c < next_id d) ->
  filter (has_kind k (snd (create p it d))) l = filter (has_kind k d) l.
Proof.
  intros H. apply filter_ext_in. intros c Hc.
  apply has_kind_create. apply H in Hc. lia.
Qed.

Lemma getFolders_create_other p it d f :
  wf d -> f <> p -> getFolders (snd (create p it d)) f = getFolders d f.
Proof.
  intros Hwf Hne. unfold getFolders, is_folder. rewrite children_create.
  destruct (Nat.eqb_spec p f); [congruence|]. rewrite app_nil_r.
  apply filter_kind_create. intros c. apply children_lt, Hwf.
Qed.

Lemma getFiles_create_other p it d f :
  wf d -> f <> p -> getFiles (snd (create p it d)) f = getFiles d f.
Proof.
  intros Hwf Hne. unfold getFiles, is_file. rewrite children_create.
  destruct (Nat.eqb_spec p f); [congruence|]. rewrite app_nil_r.
  apply filter_kind_create. intros c. apply children_lt, Hwf.
Qed.

Lemma wf_create p it d : wf d -> p < next_id d -> wf (snd (create p it d)).
Proof.
  intros (Hi & He & Hr) Hp. unfold create; simpl. repeat split; simpl.
  - intros i it' H. apply in_app_or in H as [H|[H|[]]].
    + apply Hi in H. lia.
    + inversion H; subst. lia.
  - apply in_app_or in H as [H|[H|[]]].
    + apply He in H. lia.
    + inversion H; subst. lia.
  - apply in_app_or in H as [H|[H|[]]].
    + apply He in H. lia.
    + inversion H; subst. lia.
  - lia.
Qed.

(** The unfolding from a folder only depends on what the folders it reaches
    hold. *)
Lemma sequence_view_agree n d d' :
  (forall f t, view n d f = Some t ->
     (forall x, In x (folder_ids t) ->
        getFolders d' x = getFolders d x /\ getFiles d' x = getFiles d x) ->
     view n d' f = Some t) ->
  forall l ts,
    sequence (map (view n d) l) = Some ts ->
    (forall x, In x (flat_map folder_ids ts) ->
       getFolders d' x = getFolders d x /\ getFiles d' x = getFiles d x) ->
    sequence (map (view n d') l) = Some ts.
Proof.
  intros IH. induction l as [|a l IHl]; intros ts Hts Hag; [exact Hts|].
  apply sequence_cons in Hts as (ta & ts' & Ha & Hts' & ->).
  simpl. rewrite (IH _ _ Ha).
  - rewrite (IHl ts' Hts'); [reflexivity|].
    intros x Hx. apply Hag. cbn [flat_map]. apply in_or_app. now right.
  - intros x Hx. apply Hag. cbn [flat_map]. apply in_or_app. now left.
Qed.

Lemma view_agree n : forall d d' f t,
  view n d f = Some t ->
  (forall x, In x (folder_ids t) ->
     getFolders d' x = getFolders d x /\ getFiles d' x = getFiles d x) ->
  view n d' f = Some t.
Proof.
  induction n as [|n IH]; intros d d' f t Hv Hag; [discriminate|].
  apply view_S in Hv as (ts & Hts & ->). simpl.
  destruct (Hag f) as [Hfo Hfi]; [now left|]. rewrite Hfo, Hfi.
  rewrite (sequence_view_agree n d d' (IH d d') _ _ Hts); [reflexivity|].
  intros x Hx. apply Hag. right. exact Hx.
Qed.

Lemma view_folders n : forall d f t,
  view n d f = Some t -> forall x, In x (folderOrder t) -> is_folder d x = true.
Proof.
  induction n as [|n IH]; intros d f t Hv; [discriminate|].
  apply view_S in Hv as (ts & Hts & ->). simpl.
  assert (Hfo : forall x, In x (getFolders d f) -> is_folder d x = true)
    by apply getFolders_is_folder.
  revert ts Hts Hfo. generalize (getFolders d f) as l.
  induction l as [|a l IHl]; intros ts Hts Hfo x Hx.
  - inversion Hts; subst. destruct Hx.
  - apply sequence_cons in Hts as (ta & ts' & Ha & Hts' & ->).
    simpl in Hx. destruct Hx as [<-|Hx].
    + rewrite (view_id _ _ _ _ Ha). apply Hfo. now left.
    + apply in_app_or in Hx as [Hx|Hx].
      * eapply IH; eauto.
      * eapply IHl; eauto. intros; apply Hfo; now right.
Qed.

Lemma view_create_frame n p it d f t :
  wf d -> view n d f = Some t -> ~ In p (folder_ids t) ->
  view n (snd (create p it d)) f = Some t.
Proof.
  intros Hwf Hv Hp. apply (view_agree n d _ f t Hv).
  intros x Hx.
  assert (x <> p) by (intros ->; contradiction).
  split; [now apply getFolders_create_other|now apply getFiles_create_other].
Qed.

Lemma folderMatches_create p it d name x :
  x <> next_id d ->
  folderMatches (snd (create p it d)) name x = folderMatches d name x.
Proof.
  intros H. unfold folderMatches, is_folder, getName.
  now rewrite has_kind_create, lookup_create.
Qed.

(** Without [moveTo], a name that the search does not find makes
    [findOrCreateFolder] create a folder in the root folder and return it. *)
Lemma findOrCreateFolder_creates d n parent t name :
  is_folder d parent = true -> view n d parent = Some t ->
  (forall x, In x (folderOrder t) -> folderMatches d name x = false) ->
  findOrCreateFolder n parent name false d
  = Return (next_id d) (snd (create (root d) (mkItem name Folder EmptyString) d)).
Proof.
  intros HF Hv Hno. unfold findOrCreateFolder.
  rewrite (bind_Return _ _ _ (None : option id) d).
  - reflexivity.
  - rewrite (findFolderByName_run _ _ _ _ _ HF Hv). f_equal.
    now apply find_all_false.
Qed.

(** C10, as stated, fails: when the parent is the root folder itself, the
    folder created without [moveTo] lies in the parent, and the repeated call
    finds it. *)
Lemma findOrCreateFolder_in_root_finds_again :
  ~ (forall (d : drive) (n : nat) (parent : id) (name : string)
            (f1 f2 : id) (d1 d2 : drive),
       findFolderByName n parent name d = Return None d ->
       findOrCreateFolder n parent name false d = Return f1 d1 ->
       findOrCreateFolder n parent name false d1 = Return f2 d2 ->
       f2 <> f1).
Proof.
  intros H.
  apply (H (empty_drive "My Drive") 2 0 "Invoices" 1 1
           (mkDrive [(0, mkItem "My Drive" Folder ""); (1, mkItem "Invoices" Folder "")]
                    [(0, 1)] 2 0)
           (mkDrive [(0, mkItem "My Drive" Folder ""); (1, mkItem "Invoices" Folder "")]
                    [(0, 1)] 2 0));
    reflexivity.
Qed.

(** C10, amended.  Let the root folder be neither the parent nor a folder
    below it, and let no folder below the parent bear the name.  Then
    [findOrCreateFolder] without [moveTo] creates a folder of that name in the
    root folder, and a second call with the same arguments does not find it
    and creates another one: two distinct folders of the same name, both held
    by the root folder. *)
Theorem findOrCreateFolder_without_moveTo_duplicates (d : drive) (n : nat)
  (parent : id) (t : tree) (name : string)
  (Hwf : wf d) (HF : is_folder d parent = true) (Hview : view n d parent = Some t)
  (Hroot : ~ In (root d) (folder_ids t))
  (Habsent : forall x, In x (folderOrder t) -> folderMatches d name x = false) :
  exists d1 d2,
    findOrCreateFolder n parent name false d = Return (next_id d) d1
    /\ findOrCreateFolder n parent name false d1 = Return (S (next_id d)) d2
    /\ items d2 = items d ++ [(next_id d, mkItem name Folder EmptyString);
                              (S (next_id d), mkItem name Folder EmptyString)]
    /\ edges d2 = edges d ++ [(root d, next_id d); (root d, S (next_id d))]
    /\ getName d2 (next_id d) = name /\ getName d2 (S (next_id d)) = name
    /\ is_folder d2 (next_id d) = true /\ is_folder d2 (S (next_id d)) = true.
Proof.
  set (it := mkItem name Folder EmptyString).
  set (d1 := snd (create (root d) it d)).
  set (d2 := snd (create (root d1) it d1)).
  assert (Hwf1 : wf d1) by (apply wf_create; [exact Hwf|apply Hwf]).
  assert (Hnew : lookup d1 (next_id d) = Some it) by now apply lookup_create_new.
  assert (Hnew2 : lookup d2 (next_id d1) = Some it) by now apply lookup_create_new.
  assert (Hkeep : lookup d2 (next_id d) = Some it).
  { unfold d2. rewrite lookup_create; [exact Hnew|]. simpl. lia. }
  exists d1, d2. split; [now apply findOrCreateFolder_creates with (t := t)|].
  split.
  { apply findOrCreateFolder_creates with (t := t).
    - unfold d1, is_folder. rewrite has_kind_create; [exact HF|].
      apply (has_kind_lt _ _ _ Hwf) in HF. lia.
    - now apply view_create_frame.
    - intros x Hx. unfold d1. rewrite folderMatches_create; [now apply Habsent|].
      pose proof (view_folders _ _ _ _ Hview x Hx) as Hfx.
      apply (has_kind_lt _ _ _ Hwf) in Hfx. lia. }
  split; [unfold d2, d1; simpl; now rewrite <- app_assoc|].
  split; [unfold d2, d1; simpl; now rewrite <- app_assoc|].
  unfold getName, is_folder, has_kind. simpl in Hnew2.
  rewrite Hkeep, Hnew2. repeat split.
Qed.

Lemma wf_drive_clients : wf drive_clients.
Proof. wf_by_cases. Qed.

Lemma findOrCreateFolder_without_moveTo_duplicates_witness :
  exists d1 d2,
    findOrCreateFolder 2 1 "Invoices" false drive_clients = Return 2 d1
    /\ findOrCreateFolder 2 1 "Invoices" false d1 = Return 3 d2
    /\ getFoldersByName d2 "Invoices" = [2; 3]
    /\ getParents d2 2 = [0] /\ getParents d2 3 = [0].
Proof.
  assert (Hwf : wf drive_clients) by wf_by_cases.
  destruct (findOrCreateFolder_without_moveTo_duplicates drive_clients 2 1
              (Node 1 [] []) "Invoices" Hwf eq_refl eq_refl)
    as (d1 & d2 & H1 & H2 & Hi & He & _).
  - simpl. intros [H|[]]. discriminate H.
  - intros x [].
  - exists d1, d2. split; [exact H1|]. split; [exact H2|].
    unfold getFoldersByName, getParents. rewrite Hi, He. repeat split.
Defined.

(** ** Copying *)

Lemma folderOrder_fileOrder t x : In x (folderOrder t) -> In x (fileOrder t).
Proof.
  revert x. induction t as [i fs ts IH] using tree_induction. intros x Hx. simpl in *.
  apply in_or_app. right.
  apply in_flat_map in Hx as (c & Hc & Hx). apply in_flat_map. exists c.
  split; [exact Hc|]. destruct Hx as [Hx|Hx]; [now left|right].
  rewrite Forall_forall in IH. now apply IH.
Qed.

Lemma folder_ids_tree_ids t x : In x (folder_ids t) -> In x (tree_ids t).
Proof.
  intros [H|H]; [now left|right]. now apply folderOrder_fileOrder.
Qed.

Lemma extends_refl B d : extends_at B d d.
Proof. repeat split; auto. Qed.

Lemma extends_create B it d : extends_at B d (snd (create B it d)).
Proof.
  split; [simpl; lia|]. split; [reflexivity|]. split.
  - intros i Hi. apply lookup_create. lia.
  - intros f Hf Hne. rewrite children_create.
    destruct (Nat.eqb_spec B f); [congruence|apply app_nil_r].
Qed.

Lemma extends_trans B T d d1 d2 :
  extends_at B d d1 -> extends_at T d1 d2 -> T = B \/ next_id d <= T ->
  extends_at B d d2.
Proof.
  intros (Hn & Hr & Hl & Hc) (Hn' & Hr' & Hl' & Hc') HT. repeat split.
  - lia.
  - congruence.
  - intros i Hi. rewrite Hl' by lia. now apply Hl.
  - intros f Hf Hne. rewrite Hc'; [now apply Hc|lia|].
    destruct HT as [->|HT]; [exact Hne|lia].
Qed.

Lemma extends_has_kind k B d d' i :
  extends_at B d d' -> i < next_id d -> has_kind k d' i = has_kind k d i.
Proof. intros (_ & _ & Hl & _) Hi. unfold has_kind. now rewrite Hl. Qed.

Lemma extends_getFolders B d d' f :
  wf d -> extends_at B d d' -> f < next_id d -> f <> B ->
  getFolders d' f = getFolders d f /\ getFiles d' f = getFiles d f.
Proof.
  intros Hwf He Hf Hne. unfold getFolders, getFiles, is_folder, is_file.
  destruct He as (Hn & Hr & Hl & Hc). rewrite (Hc f Hf Hne).
  split; apply filter_ext_in; intros c Hin; unfold has_kind;
    rewrite Hl; auto; now apply (children_lt d f).
Qed.

Lemma extends_view n B d d' f t :
  wf d -> extends_at B d d' -> view n d f = Some t ->
  (forall x, In x (folder_ids t) -> x < next_id d /\ x <> B) ->
  view n d' f = Some t.
Proof.
  intros Hwf He Hv Hx. apply (view_agree n d d' f t Hv).
  intros x Hin. destruct (Hx x Hin). now apply (extends_getFolders B).
Qed.

Lemma extends_shape B d d' t :
  extends_at B d d' -> (forall x, In x (tree_ids t) -> x < next_id d) ->
  shape_of d' t = shape_of d t.
Proof.
  intros (_ & _ & Hl & _).
  induction t as [i fs ts IH] using tree_induction. intros Hx. simpl.
  assert (Hname : forall x, x < next_id d -> getName d' x = getName d x)
    by (intros x Hlt; unfold getName; now rewrite Hl).
  assert (Hcont : forall x, x < next_id d -> getContent d' x = getContent d x)
    by (intros x Hlt; unfold getContent; now rewrite Hl).
  f_equal.
  - apply Hname, Hx. now left.
  - apply map_ext_in. intros f Hf. unfold file_shape.
    assert (f < next_id d).
    { apply Hx. right. simpl. apply in_or_app. now left. }
    now rewrite Hname, Hcont.
  - apply map_ext_in. intros c Hc. rewrite Forall_forall in IH.
    apply IH; [exact Hc|]. intros x Hin. apply Hx. right. simpl.
    apply in_or_app. right. apply in_flat_map. exists c. split; [exact Hc|exact Hin].
Qed.

(** The items of an unfolding are items of the store. *)
Lemma view_ids_lt n : forall d f t,
  wf d -> f < next_id d -> view n d f = Some t ->
  forall x, In x (tree_ids t) -> x < next_id d.
Proof.
  induction n as [|n IH]; intros d f t Hwf Hf Hv; [discriminate|].
  apply view_S in Hv as (ts & Hts & ->).
  intros x [<-|Hx]; [exact Hf|]. simpl in Hx.
  apply in_app_or in Hx as [Hx|Hx].
  { apply getFiles_is_file in Hx. now apply (has_kind_lt File d). }
  assert (Hfo : forall y, In y (getFolders d f) -> y < next_id d).
  { intros y Hy. apply getFolders_is_folder in Hy. now apply (has_kind_lt Folder d). }
  revert ts Hts Hfo Hx. generalize (getFolders d f) as l.
  induction l as [|a l IHl]; intros ts Hts Hfo Hx.
  - inversion Hts; subst. destruct Hx.
  - apply sequence_cons in Hts as (ta & ts' & Ha & Hts' & ->).
    cbn [flat_map] in Hx. apply in_app_or in Hx as [Hx|Hx].
    + apply (IH d a ta Hwf); [apply Hfo; now left|exact Ha|exact Hx].
    + apply (IHl ts' Hts'); [intros; apply Hfo; now right|exact Hx].
Qed.

Lemma copyFolder_S n A B d :
  copyFolder (S n) A B d
  = bind (forEach (getFiles d A) (copyFile B))
         (fun _ => forEach (getFolders d A) (copySub n B)) d.
Proof. reflexivity. Qed.

Lemma copyFile_run B x d :
  copyFile B x d
  = Return tt (snd (create B (mkItem (getName d x) File (getContent d x)) d)).
Proof. reflexivity. Qed.

Lemma copySub_run n B x d :
  copySub n B x d
  = copyFolder n x (next_id d)
      (snd (create B (mkItem (getName d x) Folder EmptyString) d)).
Proof. reflexivity. Qed.

Lemma file_shape_lookup d d' f :
  lookup d' f = lookup d f -> file_shape d' f = file_shape d f.
Proof. intros H. unfold file_shape, getName, getContent. now rewrite H. Qed.

Lemma is_folder_new B name d :
  wf d ->
  is_folder (snd (create B (mkItem name Folder EmptyString) d)) (next_id d) = true.
Proof.
  intros Hwf. unfold is_folder, has_kind. now rewrite lookup_create_new.
Qed.

Lemma children_create_same B it d :
  children (snd (create B it d)) B = children d B ++ [next_id d].
Proof. rewrite children_create. now rewrite Nat.eqb_refl. Qed.

(** The loop over the files: one new file in the target for each file, with
    its name and content, numbered in the order of the listing. *)
Lemma copy_files_run B : forall files d,
  wf d -> B < next_id d -> Forall (fun f => f < next_id d) files ->
  exists d',
    forEach files (copyFile B) d = Return tt d'
    /\ wf d' /\ extends_at B d d'
    /\ children d' B = children d B ++ seq (next_id d) (List.length files)
    /\ next_id d' = next_id d + List.length files
    /\ Forall (fun f' => is_file d' f' = true) (seq (next_id d) (List.length files))
    /\ map (file_shape d') (seq (next_id d) (List.length files))
       = map (file_shape d) files.
Proof.
  induction files as [|x files IH]; intros d Hwf HB Hlt.
  - exists d. simpl. rewrite app_nil_r, Nat.add_0_r.
    split; [reflexivity|]. split; [exact Hwf|]. split; [apply extends_refl|].
    repeat split; constructor.
  - set (it := mkItem (getName d x) File (getContent d x)).
    set (d1 := snd (create B it d)).
    assert (Hwf1 : wf d1) by now apply wf_create.
    assert (Hn1 : next_id d1 = S (next_id d)) by reflexivity.
    assert (E1 : extends_at B d d1) by apply extends_create.
    inversion Hlt as [|? ? Hx Hrest]; subst.
    destruct (IH d1 Hwf1) as (d' & Hrun & Hwf' & E' & Hch & Hn & Hkind & Hshape).
    { rewrite Hn1. lia. }
    { eapply Forall_impl; [|exact Hrest]. simpl. intros; lia. }
    exists d'.
    assert (Hl : lookup d' (next_id d) = Some it).
    { destruct E' as (_ & _ & Hl' & _). rewrite Hl' by (rewrite Hn1; lia).
      now apply lookup_create_new. }
    split.
    { simpl. unfold bind. rewrite copyFile_run. exact Hrun. }
    split; [exact Hwf'|].
    split; [eapply extends_trans; eauto|].
    split.
    { rewrite Hch, Hn1. unfold d1. rewrite children_create_same.
      simpl. now rewrite <- app_assoc. }
    split; [rewrite Hn, Hn1; simpl; lia|].
    split.
    { simpl. constructor.
      - unfold is_file, has_kind. now rewrite Hl.
      - now rewrite Hn1 in Hkind. }
    simpl. f_equal.
    + unfold file_shape, getName, getContent. now rewrite Hl.
    + rewrite Hn1 in Hshape. rewrite Hshape.
      apply map_ext_in. intros f Hf. apply file_shape_lookup.
      apply lookup_create. rewrite Forall_forall in Hrest.
      apply Hrest in Hf. lia.
Qed.

Lemma filter_kinds_files d fs ds :
  Forall (fun f => is_file d f = true) fs ->
  Forall (fun x => is_folder d x = true) ds ->
  filter (is_file d) (fs ++ ds) = fs /\ filter (is_folder d) (fs ++ ds) = ds.
Proof.
  intros Hf Hd. rewrite !filter_app. split.
  - rewrite (forallb_filter_id (is_file d) fs), filter_nil.
    + apply app_nil_r.
    + rewrite Forall_forall in Hd. intros x Hx. now apply has_kind_excl, Hd.
    + apply forallb_forall. now rewrite Forall_forall in Hf.
  - rewrite (forallb_filter_id (is_folder d) ds), filter_nil.
    + reflexivity.
    + rewrite Forall_forall in Hf. intros x Hx. apply Hf in Hx.
      destruct (is_folder d x) eqn:E; [|reflexivity].
      apply has_kind_excl in E. congruence.
    + apply forallb_forall. now rewrite Forall_forall in Hd.
Qed.

(** A folder that has just been created and filled by [copyFolder] unfolds to
    the tree of what was put in it. *)
Lemma copied_view m d d' N tA c :
  children d N = [] -> copied m d d' N tA c -> view (S m) d' N = Some c.
Proof.
  intros Hempty (Hid & Hch & Hfi & Hfo & Hseq & _).
  simpl. unfold getFolders, getFiles. rewrite Hch, Hempty. simpl.
  assert (Hfo' : Forall (fun x => is_folder d' x = true) (map tree_id (tree_subs c))).
  { apply Forall_forall. intros x Hx. apply in_map_iff in Hx as (t & <- & Ht).
    rewrite Forall_forall in Hfo. now apply Hfo. }
  destruct (filter_kinds_files d' _ _ Hfi Hfo') as [-> ->].
  rewrite Hseq. destruct c; simpl in *. now subst.
Qed.

Lemma seq_bounds a k x : In x (seq a k) -> a <= x < a + k.
Proof. intros H. apply in_seq in H. lia. Qed.

(** The loop over the sub-folders: for each one a new folder in the target,
    filled by the recursive call before the next one is created. *)
Lemma copy_folders_run n B d0 (IH : CopySpec n) (Hwf0 : wf d0) (HB : B < next_id d0) :
  forall l ts dc,
    sequence (map (view n d0) l) = Some ts ->
    (forall x, In x (flat_map tree_ids ts) -> x < next_id d0) ->
    ~ In B (flat_map folder_ids ts) ->
    wf dc -> extends_at B d0 dc ->
    exists d' cs,
      forEach l (copySub n B) dc = Return tt d'
      /\ wf d' /\ extends_at B dc d'
      /\ children d' B = children dc B ++ map tree_id cs
      /\ Forall (fun t => is_folder d' (tree_id t) = true) cs
      /\ sequence (map (view n d') (map tree_id cs)) = Some cs
      /\ map (shape_of d') cs = map (shape_of d0) ts
      /\ flat_map tree_ids cs = seq (next_id dc) (List.length (flat_map tree_ids ts))
      /\ next_id d' = next_id dc + List.length (flat_map tree_ids ts).
Proof.
  induction l as [|x l IHl]; intros ts dc Hts Hlt HnB Hwf E0.
  - inversion Hts; subst. exists dc, []. simpl.
    rewrite app_nil_r, Nat.add_0_r.
    split; [reflexivity|]. split; [exact Hwf|]. split; [apply extends_refl|].
    repeat split; constructor.
  - apply sequence_cons in Hts as (tx & ts' & Hx & Hts' & ->).
    cbn [flat_map] in Hlt, HnB.
    assert (Htx : forall y, In y (tree_ids tx) -> y < next_id d0)
      by (intros y Hy; apply Hlt, in_or_app; now left).
    assert (Hxid : tree_id tx = x) by now apply view_id in Hx.
    assert (Hxlt : x < next_id d0) by (apply Htx; left; exact Hxid).
    assert (Hn0 : next_id d0 <= next_id dc) by apply E0.
    set (N := next_id dc).
    set (it := mkItem (getName dc x) Folder EmptyString).
    set (dc1 := snd (create B it dc)).
    assert (Hwf1 : wf dc1) by (apply wf_create; [exact Hwf|lia]).
    assert (Hn1 : next_id dc1 = S N) by reflexivity.
    assert (E1 : extends_at B dc dc1) by apply extends_create.
    assert (E01 : extends_at B d0 dc1) by (eapply extends_trans; eauto).
    assert (Hv1 : view n dc1 x = Some tx).
    { apply (extends_view n B d0 dc1 x tx Hwf0 E01 Hx).
      intros y Hy. split.
      - now apply Htx, folder_ids_tree_ids.
      - intros ->. apply HnB, in_or_app. now left. }
    assert (HN1 : N < next_id dc1) by (rewrite Hn1; lia).
    assert (Hx1 : x < next_id dc1) by (rewrite Hn1; lia).
    assert (HnN : ~ In N (folderOrder tx)).
    { intros Hin. apply folderOrder_fileOrder in Hin.
      assert (N < next_id d0) by (apply Htx; now right). lia. }
    destruct (IH dc1 x N tx Hwf1 HN1 Hx1 Hv1 HnN)
      as (d2 & c & Hrun & Hwf2 & E12 & Hc).
    assert (HemptyN : children dc1 N = []).
    { unfold dc1. rewrite children_create.
      rewrite (children_fresh dc N Hwf (le_n _)).
      destruct (Nat.eqb_spec B N); [unfold N in *; lia|reflexivity]. }
    assert (Hn : exists m, n = S m).
    { destruct n; [discriminate|eauto]. }
    destruct Hn as (m & ->).
    assert (Hv2 : view (S m) d2 N = Some c) by now apply (copied_view m dc1 d2 N tx c).
    destruct Hc as (Hcid & Hcch & Hcfi & Hcfo & Hcseq & Hcfs & Hcss & Hcord & Hcn).
    simpl pred in *.
    assert (Hids : tree_ids c = seq N (List.length (tree_ids tx))).
    { unfold tree_ids. rewrite Hcid, Hcord, Hn1. reflexivity. }
    assert (Hn2 : next_id d2 = N + List.length (tree_ids tx)).
    { rewrite Hcn, Hn1. simpl. lia. }
    assert (Hclt : forall y, In y (tree_ids c) -> N <= y < next_id d2).
    { intros y Hy. rewrite Hids in Hy. apply seq_bounds in Hy. lia. }
    assert (E02 : extends_at B d0 d2).
    { eapply extends_trans; [exact E01|exact E12|]. right. exact Hn0. }
    assert (Ec2 : extends_at B dc d2).
    { eapply extends_trans; [exact E1|exact E12|]. right. unfold N. lia. }
    assert (HlN : lookup d2 N = Some it).
    { destruct E12 as (_ & _ & Hl & _). rewrite Hl by (rewrite Hn1; lia).
      now apply lookup_create_new. }
    assert (Hshape2 : shape_of d2 c = shape_of d0 tx).
    { destruct c as [ci cfs css], tx as [xi xfs xss]. simpl in *. subst ci xi.
      f_equal.
      - unfold getName at 1. rewrite HlN. simpl.
        unfold getName. destruct E0 as (_ & _ & Hl & _). now rewrite Hl.
      - rewrite Hcfs. apply map_ext_in. intros f Hf. apply file_shape_lookup.
        destruct E01 as (_ & _ & Hl & _). apply Hl, Htx.
        right. simpl. apply in_or_app. now left.
      - rewrite Hcss. apply map_ext_in. intros t Ht.
        apply (extends_shape B d0 dc1 t E01).
        intros y Hy. apply Htx. right. simpl. apply in_or_app. right.
        apply in_flat_map. exists t. split; [exact Ht|exact Hy]. }
    assert (Hlt' : forall y, In y (flat_map tree_ids ts') -> y < next_id d0)
      by (intros y Hy; apply Hlt, in_or_app; now right).
    assert (HnB' : ~ In B (flat_map folder_ids ts'))
      by (intros Hin; apply HnB, in_or_app; now right).
    destruct (IHl ts' d2 Hts' Hlt' HnB' Hwf2 E02)
      as (d' & cs & Hrun' & Hwf' & E2' & Hch' & Hfo' & Hseq' & Hsh' & Hord' & Hn').
    exists d', (c :: cs).
    split.
    { simpl. unfold bind. rewrite copySub_run. fold N it dc1. rewrite Hrun. exact Hrun'. }
    split; [exact Hwf'|].
    split; [eapply extends_trans; eauto|].
    split.
    { rewrite Hch'. destruct E12 as (_ & _ & _ & Hch12).
      rewrite Hch12; [|rewrite Hn1; lia|unfold N; lia].
      unfold dc1. rewrite children_create_same. simpl.
      rewrite <- app_assoc. simpl. now rewrite Hcid. }
    split.
    { constructor; [|exact Hfo']. rewrite Hcid. unfold is_folder.
      rewrite (extends_has_kind Folder B d2 d' N E2') by (rewrite Hn2; simpl; lia).
      unfold has_kind. now rewrite HlN. }
    split.
    { cbn [map]. rewrite Hcid.
      rewrite (extends_view (S m) B d2 d' N c Hwf2 E2' Hv2).
      - cbn [sequence]. now rewrite Hseq'.
      - intros y Hy. apply folder_ids_tree_ids, Hclt in Hy. lia. }
    split.
    { simpl. rewrite Hsh'. f_equal. rewrite <- Hshape2.
      apply (extends_shape B d2 d' c E2'). intros y Hy. apply Hclt in Hy. lia. }
    split.
    { cbn [flat_map]. rewrite Hids, Hord', Hn2, length_app. apply eq_sym, seq_app. }
    cbn [flat_map]. rewrite Hn', Hn2, length_app. lia.
Qed.

Theorem copyFolder_spec : forall n, CopySpec n.
Proof.
  induction n as [|n IH]; intros d A B tA Hwf HB HA Hv HnB; [discriminate|].
  pose proof (view_ids_lt _ _ _ _ Hwf HA Hv) as Hlt.
  apply view_S in Hv as (ts & Hts & ->).
  set (files := getFiles d A) in *.
  destruct (copy_files_run B files d Hwf HB)
    as (d1 & Hrun1 & Hwf1 & E1 & Hch1 & Hn1 & Hk1 & Hs1).
  { apply Forall_forall. intros f Hf. apply Hlt. right. simpl.
    apply in_or_app. now left. }
  assert (Hlts : forall x, In x (flat_map tree_ids ts) -> x < next_id d).
  { intros x Hx. apply Hlt. right. simpl. apply in_or_app. now right. }
  destruct (copy_folders_run n B d IH Hwf HB (getFolders d A) ts d1 Hts Hlts HnB Hwf1 E1)
    as (d' & cs & Hrun & Hwf' & E' & Hch & Hfo & Hseq & Hsh & Hord & Hn).
  exists d', (Node B (seq (next_id d) (List.length files)) cs).
  split.
  { rewrite copyFolder_S.
    etransitivity; [apply bind_Return; exact Hrun1|exact Hrun]. }
  split; [exact Hwf'|].
  split; [eapply extends_trans; eauto|].
  unfold copied. simpl.
  split; [reflexivity|].
  split; [now rewrite Hch, Hch1, <- app_assoc|].
  split.
  { apply Forall_forall. intros f Hf.
    assert (f < next_id d1) by (apply seq_bounds in Hf; lia).
    unfold is_file. rewrite (extends_has_kind File B d1 d' f E') by assumption.
    rewrite Forall_forall in Hk1. now apply Hk1. }
  split; [exact Hfo|].
  split; [exact Hseq|].
  split.
  { rewrite <- Hs1. apply map_ext_in. intros f Hf. apply file_shape_lookup.
    destruct E' as (_ & _ & Hl & _). apply Hl. apply seq_bounds in Hf. lia. }
  split; [exact Hsh|].
  split.
  { change (flat_map (fun c => tree_id c :: fileOrder c) cs) with (flat_map tree_ids cs).
    change (flat_map (fun c => tree_id c :: fileOrder c) ts) with (flat_map tree_ids ts).
    rewrite Hord, Hn1, length_app. apply eq_sym, seq_app. }
  change (flat_map (fun c => tree_id c :: fileOrder c) ts) with (flat_map tree_ids ts).
  rewrite Hn, Hn1, length_app. lia.
Qed.

Lemma sequence_app {A} (l1 l2 : list (option A)) r1 r2 :
  sequence l1 = Some r1 -> sequence l2 = Some r2 ->
  sequence (l1 ++ l2) = Some (r1 ++ r2).
Proof.
  revert r1; induction l1 as [|o l1 IH]; intros r1 H1 H2.
  - inversion H1; subst. exact H2.
  - apply sequence_cons in H1 as (a & r & -> & Hr & ->).
    simpl. now rewrite (IH r Hr H2).
Qed.

Lemma sequence_view_extends n B d d' l ts :
  wf d -> extends_at B d d' ->
  sequence (map (view n d) l) = Some ts ->
  (forall x, In x (flat_map folder_ids ts) -> x < next_id d /\ x <> B) ->
  sequence (map (view n d') l) = Some ts.
Proof.
  intros Hwf E Hts Hx.
  apply (sequence_view_agree n d d' (view_agree n d d') l ts Hts).
  intros x Hin. destruct (Hx x Hin). now apply (extends_getFolders B).
Qed.

Lemma filter_kind_extends k B d d' l :
  extends_at B d d' -> (forall x, In x l -> x < next_id d) ->
  filter (has_kind k d') l = filter (has_kind k d) l.
Proof.
  intros E Hl. apply filter_ext_in. intros x Hx.
  apply (extends_has_kind k B d d' x E). now apply Hl.
Qed.

(** After a copy into [B], the unfolding of the source is what it was, with
    the copy added when the source is [B] itself; [B] is still not below the
    source. *)
Lemma copied_source_view n d d1 A B tA c :
  wf d -> A < next_id d -> B < next_id d ->
  view (S n) d A = Some tA -> ~ In B (folderOrder tA) ->
  extends_at B d d1 -> copied n d d1 B tA c ->
  exists tA1,
    view (S n) d1 A = Some tA1
    /\ ~ In B (folderOrder tA1)
    /\ (A <> B -> tA1 = tA).
Proof.
  intros Hwf HA HB Hv HnB E Hc.
  pose proof (view_ids_lt _ _ _ _ Hwf HA Hv) as Hlt.
  destruct (Nat.eq_dec A B) as [<-|Hne].
  - apply view_S in Hv as (ts & Hts & ->).
    destruct Hc as (Hcid & Hcch & Hcfi & Hcfo & Hcseq & _ & _ & Hcord & _).
    set (fs := getFiles d A) in *.
    exists (Node A (fs ++ tree_files c) (ts ++ tree_subs c)).
    assert (Hfo' : Forall (fun x => is_folder d1 x = true) (map tree_id (tree_subs c))).
    { apply Forall_forall. intros x Hx. apply in_map_iff in Hx as (t & <- & Ht).
      rewrite Forall_forall in Hcfo. now apply Hcfo. }
    destruct (filter_kinds_files d1 _ _ Hcfi Hfo') as [Hnf Hnd].
    assert (Hold : forall x, In x (children d A) -> x < next_id d)
      by (intros x; apply children_lt, Hwf).
    split; [|split].
    + simpl. unfold getFolders, getFiles, is_folder, is_file.
      rewrite Hcch, !filter_app.
      rewrite !(filter_kind_extends _ A d d1 (children d A) E Hold).
      rewrite <- !filter_app. fold (is_folder d1) (is_file d1).
      rewrite Hnf, Hnd. fold (is_folder d) (is_file d).
      fold (getFolders d A) (getFiles d A). fold fs.
      rewrite map_app.
      rewrite (sequence_app _ _ ts (tree_subs c)); [reflexivity| |exact Hcseq].
      apply (sequence_view_extends n A d d1 _ ts Hwf E Hts).
      intros x Hx. split.
      * apply Hlt. now apply folder_ids_tree_ids; right.
      * intros ->. now apply HnB.
    + simpl. rewrite flat_map_app. intros Hin. apply in_app_or in Hin as [Hin|Hin].
      * now apply HnB.
      * assert (In A (fileOrder c)).
        { destruct c as [ci cfs css]. simpl. apply in_or_app. right.
          apply in_flat_map in Hin as (t & Ht & Hin). apply in_flat_map.
          exists t. split; [exact Ht|].
          destruct Hin as [Hin|Hin]; [now left|right; now apply folderOrder_fileOrder]. }
        rewrite Hcord in H. apply seq_bounds in H. lia.
    + congruence.
  - exists tA. split; [|split; [exact HnB|reflexivity]].
    apply (extends_view (S n) B d d1 A tA Hwf E Hv).
    intros x [<-|Hx].
    + split; [apply Hlt; now left|]. now rewrite (view_id _ _ _ _ Hv).
    + split; [|intros ->; now apply HnB].
      apply Hlt. right. now apply folderOrder_fileOrder.
Qed.

(** [copyFolder] only creates: it never throws and keeps the store
    well-formed. *)
Lemma copyFolder_preserves n : forall a b d,
  wf d -> b < next_id d ->
  match copyFolder n a b d with
  | Return _ d' => wf d' /\ next_id d <= next_id d'
  | Throw _ _ => False
  | Diverge => True
  end.
Proof.
  induction n as [|n IH]; intros a b d Hwf Hb; [exact I|].
  rewrite copyFolder_S.
  destruct (copy_files_run b (getFiles d a) d Hwf Hb)
    as (d1 & Hrun1 & Hwf1 & E1 & _ & Hn1 & _).
  { apply Forall_forall. intros f Hf. apply getFiles_is_file in Hf.
    now apply (has_kind_lt File d). }
  rewrite (bind_Return _ _ _ _ _ Hrun1).
  assert (Hle : next_id d <= next_id d1) by lia.
  assert (Hb1 : b < next_id d1) by lia.
  clear Hrun1 E1 Hn1. revert d1 Hwf1 Hle Hb1.
  induction (getFolders d a) as [|x l IHl]; intros dc Hwfc Hle Hbc; simpl.
  - split; assumption.
  - unfold bind. rewrite copySub_run.
    set (dc1 := snd (create b _ dc)).
    assert (Hwf1 : wf dc1) by now apply wf_create.
    assert (HN : next_id dc < next_id dc1) by (simpl; lia).
    pose proof (IH x (next_id dc) dc1 Hwf1 HN) as Hsub.
    destruct (copyFolder n x (next_id dc) dc1) as [[] d2| |]; [|contradiction|exact I].
    destruct Hsub as [Hwf2 Hle2]. apply IHl; [exact Hwf2|lia|lia].
Qed.

(** Copying a folder into one of its own sub-folders never comes to an end:
    the folder created in the target is itself met by the recursive call. *)
Lemma copyFolder_into_subfolder n : forall d f tgt,
  wf d -> tgt < next_id d -> In tgt (getFolders d f) ->
  copyFolder n f tgt d = Diverge.
Proof.
  induction n as [|n IH]; intros d f tgt Hwf Ht Hin; [reflexivity|].
  rewrite copyFolder_S.
  destruct (copy_files_run tgt (getFiles d f) d Hwf Ht)
    as (d1 & Hrun1 & Hwf1 & E1 & _ & Hn1 & _).
  { apply Forall_forall. intros x Hx. apply getFiles_is_file in Hx.
    now apply (has_kind_lt File d). }
  rewrite (bind_Return _ _ _ _ _ Hrun1).
  assert (Ht1 : tgt < next_id d1) by lia.
  clear Hrun1 E1 Hn1. revert d1 Hwf1 Ht1 Hin.
  induction (getFolders d f) as [|x l IHl]; intros dc Hwfc Htc Hin; [destruct Hin|].
  simpl. unfold bind. rewrite copySub_run.
  set (it := mkItem (getName dc x) Folder EmptyString).
  set (dc1 := snd (create tgt it dc)).
  assert (Hwf1 : wf dc1) by now apply wf_create.
  assert (HN : next_id dc < next_id dc1) by (simpl; lia).
  destruct (Nat.eq_dec x tgt) as [->|Hne].
  - rewrite IH; [reflexivity|exact Hwf1|exact HN|].
    apply filter_In. split.
    + unfold dc1. rewrite children_create_same. apply in_or_app. right. now left.
    + now apply is_folder_new.
  - destruct Hin as [Hin|Hin]; [congruence|].
    pose proof (copyFolder_preserves n x (next_id dc) dc1 Hwf1 HN) as Hsub.
    destruct (copyFolder n x (next_id dc) dc1) as [[] d2| |];
      [|contradiction|reflexivity].
    destruct Hsub as [Hwf2 Hle2]. apply IHl; [exact Hwf2|lia|exact Hin].
Qed.

(** C7, as stated, fails: for a destination that is a sub-folder of the
    source, the copy does not come to an end with any amount of fuel. *)
Lemma copyFolder_not_for_every_destination :
  ~ (forall (d : drive) (A B : id),
       wf d -> is_folder d A = true -> is_folder d B = true ->
       exists n d', copyFolder n A B d = Return tt d').
Proof.
  intros H.
  destruct (H drive_clients 0 1 wf_drive_clients eq_refl eq_refl) as (n & d' & Hrun).
  rewrite (copyFolder_into_subfolder n drive_clients 0 1) in Hrun.
  - discriminate.
  - exact wf_drive_clients.
  - simpl; lia.
  - simpl. now left.
Qed.

(** * Further properties of the Drive utilities *)

(** ** Moving by identifier *)

Lemma moveFolderToFolderById_run d src dst :
  moveFolderToFolderById src dst d
  = if is_folder d src
    then if is_folder d dst
         then Return tt (addFolder dst src (detached src d))
         else Throw NoSuchItem d
    else Throw NoSuchItem d.
Proof.
  unfold moveFolderToFolderById, bind, DriveApp_getFolderById.
  destruct (is_folder d src); [|reflexivity].
  destruct (is_folder d dst); [|reflexivity].
  now rewrite detachAll_run.
Qed.

Lemma detached_addFolder_detached p x d :
  detached x (addFolder p x (detached x d)) = detached x d.
Proof.
  unfold detached, addFolder, with_edges; simpl. f_equal.
  rewrite filter_app; simpl. rewrite Nat.eqb_refl; simpl. rewrite app_nil_r.
  rewrite filter_filter. apply filter_ext. intros e. now rewrite andb_diag.
Qed.


(** X2.  Moving a folder where it already is changes nothing: once
    [moveFolderToFolderById] has returned, the same call on the store it left
    returns that very store, whatever folders held the source before. *)
Theorem moveFolderToFolderById_again (d d1 : drive) (src dst : id)
  (Hrun : moveFolderToFolderById src dst d = Return tt d1) :
  moveFolderToFolderById src dst d1 = Return tt d1.
Proof.
  rewrite moveFolderToFolderById_run in Hrun.
  destruct (is_folder d src) eqn:Hs; [|discriminate].
  destruct (is_folder d dst) eqn:Hd; [|discriminate].
  inversion Hrun; subst d1. rewrite moveFolderToFolderById_run.
  change (is_folder (addFolder dst src (detached src d)) src) with (is_folder d src).
  change (is_folder (addFolder dst src (detached src d)) dst) with (is_folder d dst).
  now rewrite Hs, Hd, detached_addFolder_detached.
Qed.

Lemma moveFolderToFolderById_again_witness :
  exists d1,
    moveFolderToFolderById 3 4 drive_two_parents = Return tt d1
    /\ moveFolderToFolderById 3 4 d1 = Return tt d1.
Proof.
  eexists. split; [reflexivity|].
  apply (moveFolderToFolderById_again drive_two_parents _ 3 4). reflexivity.
Defined.

(** ** Moving by name *)

Lemma find_unique_id (l : list (id * item)) i it :
  NoDup (map fst l) -> In (i, it) l -> find (fun p => fst p =? i) l = Some (i, it).
Proof.
  induction l as [|[j jt] l IH]; intros Hnd Hin; [destruct Hin|].
  simpl in *. inversion Hnd as [|? ? Hnot Hnd']; subst.
  destruct (Nat.eqb_spec j i) as [->|Hne].
  - destruct Hin as [Hin|Hin]; [congruence|].
    exfalso. apply Hnot. apply in_map_iff. now exists (i, it).
  - destruct Hin as [Hin|Hin]; [congruence|]. now apply IH.
Qed.

Lemma lookup_unique d i it :
  unique_ids d -> In (i, it) (items d) -> lookup d i = Some it.
Proof.
  intros Hu Hin. unfold lookup. now rewrite (find_unique_id _ i it Hu Hin).
Qed.

(** With distinct identifiers, the folders listed for a name are folders of
    that name. *)
Lemma getFoldersByName_In d name s :
  unique_ids d -> In s (getFoldersByName d name) ->
  is_folder d s = true /\ getName d s = name.
Proof.
  intros Hu Hin. unfold getFoldersByName in Hin.
  apply in_map_iff in Hin as ([i it] & <- & Hin).
  apply filter_In in Hin as [Hin Hp]. simpl in *.
  apply andb_prop in Hp as [Hk Hn]. apply String.eqb_eq in Hn.
  unfold is_folder, has_kind, getName. rewrite (lookup_unique d i it Hu Hin).
  split; assumption.
Qed.

Lemma children_detached x d f :
  children (detached x d) f = filter (fun c => negb (c =? x)) (children d f).
Proof.
  unfold children, detached; simpl.
  induction (edges d) as [|[a b] es IH]; simpl; [reflexivity|].
  destruct (b =? x) eqn:Eb; simpl; destruct (a =? f) eqn:Ea; simpl;
    rewrite ?Eb; simpl; now rewrite IH.
Qed.

Lemma children_addFolder p x d f :
  children (addFolder p x d) f = children d f ++ (if p =? f then [x] else []).
Proof.
  unfold children, addFolder; simpl. rewrite filter_app, map_app. simpl.
  destruct (p =? f); reflexivity.
Qed.

(** What a call that returns has done. *)
Lemma moveFolderToFolderByName_Return d src dst u d' :
  moveFolderToFolderByName src dst u d = Return tt d' ->
  exists s t,
    hd_error (getFoldersByName d src) = Some s
    /\ getFoldersByName d dst = [t]
    /\ isUnique_ok u (getFoldersByName d src) = true
    /\ existsb (fun n => String.eqb n src) (map (getName d) (getFolders d t)) = false
    /\ d' = addFolder t s (detached s d).
Proof.
  rewrite moveFolderToFolderByName_run. unfold checks, isUnique_ok.
  destruct (u && (1 <? List.length (getFoldersByName d src))); [discriminate|].
  destruct (getFoldersByName d dst) as [|t [|t' more]]; simpl.
  - destruct (hd_error (getFoldersByName d src)); discriminate.
  - destruct (existsb _ _) eqn:Ec; [discriminate|].
    destruct (hd_error (getFoldersByName d src)) as [s|]; [|discriminate].
    intros H; inversion H; subst. exists s, t. repeat split. exact Ec.
  - discriminate.
Qed.

Lemma hd_error_In {A} (l : list A) x : hd_error l = Some x -> In x l.
Proof. destruct l; simpl; [discriminate|]. intros H; inversion H. now left. Qed.

Lemma existsb_names_false d src l :
  existsb (fun n => String.eqb n src) (map (getName d) l) = false ->
  filter (fun c => String.eqb (getName d c) src) l = [].
Proof.
  intros H. apply filter_nil. intros c Hc.
  destruct (String.eqb (getName d c) src) eqn:E; [|reflexivity].
  rewrite <- H. symmetry. apply existsb_exists. exists (getName d c).
  split; [now apply in_map|exact E].
Qed.

(** The sub-folders of the destination once the source has been moved in:
    those it held, the source taken out if it was among them, then the
    source. *)
Lemma getFolders_moved d s t :
  is_folder d s = true ->
  getFolders (addFolder t s (detached s d)) t
  = filter (fun c => negb (c =? s)) (getFolders d t) ++ [s].
Proof.
  intros Hs. unfold getFolders. rewrite children_addFolder, Nat.eqb_refl.
  rewrite children_detached, filter_app. simpl.
  change (is_folder (addFolder t s (detached s d))) with (is_folder d).
  rewrite Hs. f_equal. rewrite !filter_filter. apply filter_ext.
  intros c. apply andb_comm.
Qed.

(** X3.  When [moveFolderToFolderByName] returns, on a store whose items have
    distinct identifiers, the folder moved is the first one listed for the
    source name, the destination is the only folder of its name and is now the
    one folder holding the source, and the destination holds exactly one
    sub-folder bearing the source name: the one just moved.  No item has
    changed and no edge into another item has. *)
Theorem moveFolderToFolderByName_returns (d d' : drive) (src dst : string) (u : bool)
  (Hids : unique_ids d)
  (Hrun : moveFolderToFolderByName src dst u d = Return tt d') :
  exists s t,
    hd_error (getFoldersByName d src) = Some s
    /\ getFoldersByName d dst = [t]
    /\ getParents d' s = [t]
    /\ filter (fun c => String.eqb (getName d' c) src) (getFolders d' t) = [s]
    /\ items d' = items d
    /\ edges_off s d' = edges_off s d.
Proof.
  apply moveFolderToFolderByName_Return in Hrun
    as (s & t & Hs & Ht & _ & Hc & ->).
  exists s, t.
  destruct (getFoldersByName_In d src s Hids (hd_error_In _ _ Hs)) as [Hfs Hns].
  split; [exact Hs|]. split; [exact Ht|].
  split; [now rewrite getParents_addFolder, getParents_detached|].
  split.
  { rewrite (getFolders_moved d s t Hfs), filter_app.
    change (getName (addFolder t s (detached s d))) with (getName d).
    simpl. rewrite Hns, String.eqb_refl.
    rewrite filter_filter.
    rewrite (filter_nil _ (getFolders d t)); [reflexivity|].
    intros c Hc'. apply andb_false_intro2.
    pose proof (existsb_names_false d src _ Hc) as Hnone.
    destruct (String.eqb (getName d c) src) eqn:E; [|reflexivity].
    assert (In c (filter (fun c => String.eqb (getName d c) src) (getFolders d t)))
      by (apply filter_In; now split).
    rewrite Hnone in H. destruct H. }
  split; [reflexivity|].
  now rewrite edges_off_addFolder, edges_off_detached.
Qed.


Lemma moveFolderToFolderByName_returns_witness :
  exists d',
    moveFolderToFolderByName "S" "E" false drive_twins = Return tt d'
    /\ getParents d' 1 = [5]
    /\ filter (fun c => String.eqb (getName d' c) "S") (getFolders d' 5) = [1].
Proof.
  assert (Hids : unique_ids drive_twins).
  { unfold unique_ids; simpl.
    repeat (constructor; [simpl; intuition discriminate|]). constructor. }
  eexists. split; [reflexivity|].
  destruct (moveFolderToFolderByName_returns drive_twins _ "S" "E" false Hids eq_refl)
    as (s & t & Hs & Ht & Hp & Hf & _).
  inversion Hs; subst s. inversion Ht; subst t. split; assumption.
Defined.

(** X4.  A move by name cannot be repeated: after [moveFolderToFolderByName]
    has returned, the same call on the store it left finds the source name
    among the sub-folders of the destination and throws the collision error,
    leaving that store as it is. *)
Theorem moveFolderToFolderByName_again_collides (d d' : drive) (src dst : string)
  (u : bool) (Hids : unique_ids d)
  (Hrun : moveFolderToFolderByName src dst u d = Return tt d') :
  moveFolderToFolderByName src dst u d' = Throw Error_SourceInDestination d'.
Proof.
  apply moveFolderToFolderByName_Return in Hrun
    as (s & t & Hs & Ht & Hu & Hc & ->).
  destruct (getFoldersByName_In d src s Hids (hd_error_In _ _ Hs)) as [Hfs Hns].
  rewrite moveFolderToFolderByName_run. unfold checks.
  change (getFoldersByName (addFolder t s (detached s d))) with (getFoldersByName d).
  unfold isUnique_ok in Hu. apply negb_true_iff in Hu. rewrite Hu, Ht.
  rewrite (getFolders_moved d s t Hfs).
  change (getName (addFolder t s (detached s d))) with (getName d).
  rewrite map_app, existsb_app. simpl. rewrite Hns, String.eqb_refl.
  now rewrite orb_true_r.
Qed.

Lemma moveFolderToFolderByName_again_collides_witness :
  exists d',
    moveFolderToFolderByName "S" "E" false drive_twins = Return tt d'
    /\ moveFolderToFolderByName "S" "E" false d' = Throw Error_SourceInDestination d'.
Proof.
  assert (Hids : unique_ids drive_twins).
  { unfold unique_ids; simpl.
    repeat (constructor; [simpl; intuition discriminate|]). constructor. }
  eexists. split; [reflexivity|].
  apply (moveFolderToFolderByName_again_collides drive_twins _ "S" "E" false Hids).
  reflexivity.
Defined.

(** ** [findOrCreateFolder] with [moveTo] *)

Lemma findOrCreateFolder_moveTo_run d n parent t name :
  wf d -> is_folder d parent = true -> view n d parent = Some t ->
  findOrCreateFolder n parent name true d
  = match find (folderMatches d name) (folderOrder t) with
    | Some f => Return f (addFolder parent f (detached f d))
    | None =>
        Return (next_id d)
          (addFolder parent (next_id d)
             (detached (next_id d)
                (snd (create (root d) (mkItem name Folder EmptyString) d))))
    end.
Proof.
  intros Hwf HF Hv. unfold findOrCreateFolder.
  rewrite (bind_Return _ _ _ _ _ (findFolderByName_run d n parent t name HF Hv)).
  destruct (find (folderMatches d name) (folderOrder t)) as [f|].
  - unfold bind, ret, Folder_moveTo, DriveApp_getFolderById, modify.
    rewrite HF. unfold bind. now rewrite detachAll_run.
  - unfold bind, ret, Folder_moveTo, DriveApp_createFolder, DriveApp_getFolderById, modify.
    simpl.
    set (d1 := mkDrive _ _ _ _).
    assert (H1 : is_folder d1 parent = true).
    { change d1 with (snd (create (root d) (mkItem name Folder EmptyString) d)).
      unfold is_folder. rewrite has_kind_create; [exact HF|].
      apply (has_kind_lt _ _ _ Hwf) in HF. lia. }
    rewrite H1. unfold bind. now rewrite detachAll_run.
Qed.

(** Created in the root folder and then moved: the same store as if the
    folder had been created in the parent. *)
Lemma created_then_moved d parent it :
  wf d ->
  addFolder parent (next_id d) (detached (next_id d) (snd (create (root d) it d)))
  = snd (create parent it d).
Proof.
  intros (_ & He & _). unfold addFolder, detached, create, with_edges; simpl.
  f_equal. f_equal. rewrite filter_app; simpl. rewrite Nat.eqb_refl; simpl.
  rewrite app_nil_r. apply forallb_filter_id. apply forallb_forall.
  intros [a b] Hin. simpl. apply He in Hin as [_ Hb].
  apply negb_true_iff, Nat.eqb_neq. lia.
Qed.

Lemma detached_fresh d x : wf d -> next_id d <= x -> detached x d = d.
Proof.
  intros (_ & He & _) Hx. unfold detached.
  rewrite forallb_filter_id; [apply with_edges_same|].
  apply forallb_forall. intros [a b] Hin. simpl. apply He in Hin as [_ Hb].
  apply negb_true_iff, Nat.eqb_neq. lia.
Qed.

(** X5.  With [moveTo] set, [findOrCreateFolder] always returns a folder of
    the given name that the parent, and no other folder, holds: either the
    first folder of that name met below the parent, taken out of wherever it
    was, or, when there is none, a new folder. *)
Theorem findOrCreateFolder_moveTo_held_by_parent (d : drive) (n : nat) (parent : id)
  (t : tree) (name : string)
  (Hwf : wf d) (HF : is_folder d parent = true) (Hview : view n d parent = Some t) :
  exists f d',
    findOrCreateFolder n parent name true d = Return f d'
    /\ getParents d' f = [parent]
    /\ is_folder d' f = true /\ getName d' f = name
    /\ (find (folderMatches d name) (folderOrder t) = Some f
        \/ (find (folderMatches d name) (folderOrder t) = None /\ f = next_id d)).
Proof.
  rewrite (findOrCreateFolder_moveTo_run d n parent t name Hwf HF Hview).
  destruct (find (folderMatches d name) (folderOrder t)) as [f|] eqn:E.
  - exists f, (addFolder parent f (detached f d)).
    apply find_some in E as [_ Hm]. unfold folderMatches in Hm.
    apply andb_prop in Hm as [Hk Hn]. apply String.eqb_eq in Hn.
    split; [reflexivity|].
    split; [now rewrite getParents_addFolder, getParents_detached|].
    split; [exact Hk|]. split; [exact Hn|]. now left.
  - rewrite (created_then_moved d parent _ Hwf).
    eexists _, _. split; [reflexivity|].
    split.
    { rewrite <- (created_then_moved d parent _ Hwf).
      now rewrite getParents_addFolder, getParents_detached. }
    split; [now apply is_folder_new|].
    split; [unfold getName; now rewrite lookup_create_new|].
    right. now split.
Qed.

Lemma findOrCreateFolder_moveTo_held_by_parent_witness :
  exists d',
    findOrCreateFolder 3 0 "T" true drive_nested = Return 3 d'
    /\ getParents drive_nested 3 = [1] /\ getParents d' 3 = [0].
Proof.
  assert (Hwf : wf drive_nested) by wf_by_cases.
  destruct (findOrCreateFolder_moveTo_held_by_parent drive_nested 3 0
              (Node 0 [] [Node 1 [] [Node 3 [] []]; Node 2 [] []]) "T"
              Hwf eq_refl eq_refl)
    as (f & d' & Hrun & Hp & _ & _ & [Hf|[Hf _]]); [|discriminate Hf].
  inversion Hf; subst f. exists d'. split; [exact Hrun|].
  split; [reflexivity|exact Hp].
Defined.

Lemma filter_singleton {A} (p : A -> bool) x : p x = true -> filter p [x] = [x].
Proof. simpl. now intros ->. Qed.

(** The unfolding of a folder that has received a new, empty sub-folder. *)
Lemma view_with_new_folder n d parent t name :
  wf d -> is_folder d parent = true ->
  view (S (S n)) d parent = Some t -> ~ In parent (folderOrder t) ->
  view (S (S n)) (snd (create parent (mkItem name Folder EmptyString) d)) parent
  = Some (Node parent (tree_files t) (tree_subs t ++ [Node (next_id d) [] []])).
Proof.
  intros Hwf HF Hv Hacyc.
  set (it := mkItem name Folder EmptyString). set (d1 := snd (create parent it d)).
  assert (Hp : parent < next_id d) by now apply (has_kind_lt Folder d).
  apply view_S in Hv as (ts & Hts & ->).
  assert (Hold : forall c, In c (children d parent) -> c < next_id d)
    by (intros c; apply children_lt, Hwf).
  assert (HN : is_folder d1 (next_id d) = true) by now apply is_folder_new.
  assert (Hfo : getFolders d1 parent = getFolders d parent ++ [next_id d]).
  { unfold getFolders, d1. rewrite children_create_same, filter_app.
    unfold is_folder. rewrite (filter_kind_create Folder parent it d _ Hold).
    f_equal. apply filter_singleton. exact HN. }
  assert (Hfi : getFiles d1 parent = getFiles d parent).
  { unfold getFiles, d1. rewrite children_create_same, filter_app.
    unfold is_file. rewrite (filter_kind_create File parent it d _ Hold).
    rewrite (filter_nil (has_kind File (snd (create parent it d)))); [apply app_nil_r|].
    intros x [<-|[]]. now apply has_kind_excl. }
  assert (Hnew : view (S n) d1 (next_id d) = Some (Node (next_id d) [] [])).
  { simpl. unfold getFolders, getFiles.
    replace (children d1 (next_id d)) with (@nil nat); [reflexivity|].
    unfold d1. rewrite children_create, (children_fresh d _ Hwf (le_n _)).
    destruct (Nat.eqb_spec parent (next_id d)); [lia|reflexivity]. }
  change (view (S (S n)) d1 parent) with
    (match sequence (map (view (S n) d1) (getFolders d1 parent)) with
     | Some ts => Some (Node parent (getFiles d1 parent) ts)
     | None => None
     end).
  rewrite Hfo, Hfi, map_app.
  rewrite (sequence_app _ _ ts [Node (next_id d) [] []]); [reflexivity| |].
  - apply (sequence_view_agree (S n) d d1 (view_agree (S n) d d1) _ ts Hts).
    intros x Hx.
    assert (x <> parent) by (intros ->; now apply Hacyc).
    split; [now apply getFolders_create_other|now apply getFiles_create_other].
  - cbn [map]. now rewrite Hnew.
Qed.

(** X6.  [findOrCreateFolder] with [moveTo] set can be repeated: when no
    folder below the parent bears the name, the first call creates one in the
    parent, and the second call finds that folder, returns it and leaves the
    store exactly as the first call left it. *)
Theorem findOrCreateFolder_moveTo_again (d : drive) (n : nat) (parent : id)
  (t : tree) (name : string)
  (Hwf : wf d) (HF : is_folder d parent = true)
  (Hview : view (S (S n)) d parent = Some t)
  (Hacyclic : ~ In parent (folderOrder t))
  (Habsent : forall x, In x (folderOrder t) -> folderMatches d name x = false) :
  let d1 := snd (create parent (mkItem name Folder EmptyString) d) in
  findOrCreateFolder (S (S n)) parent name true d = Return (next_id d) d1
  /\ findOrCreateFolder (S (S n)) parent name true d1 = Return (next_id d) d1
  /\ getParents d1 (next_id d) = [parent].
Proof.
  intros d1. set (it := mkItem name Folder EmptyString) in *.
  assert (Hp : parent < next_id d) by now apply (has_kind_lt Folder d).
  assert (Hwf1 : wf d1) by now apply wf_create.
  assert (HF1 : is_folder d1 parent = true).
  { unfold d1, is_folder. rewrite has_kind_create; [exact HF|lia]. }
  assert (Hpar : getParents d1 (next_id d) = [parent]).
  { unfold d1. rewrite <- (created_then_moved d parent it Hwf).
    now rewrite getParents_addFolder, getParents_detached. }
  split; [|split; [|exact Hpar]].
  - rewrite (findOrCreateFolder_moveTo_run d _ parent t name Hwf HF Hview).
    rewrite (find_all_false _ _ Habsent). f_equal.
    now apply created_then_moved.
  - rewrite (findOrCreateFolder_moveTo_run d1 _ parent _ name Hwf1 HF1
               (view_with_new_folder n d parent t name Hwf HF Hview Hacyclic)).
    assert (Hfind : find (folderMatches d1 name)
                      (folderOrder (Node parent (tree_files t)
                                      (tree_subs t ++ [Node (next_id d) [] []])))
                    = Some (next_id d)).
    { simpl. rewrite flat_map_app, find_app.
      replace (flat_map (fun c => tree_id c :: folderOrder c) (tree_subs t))
        with (folderOrder t) by (destruct t; reflexivity).
      rewrite find_all_false.
      - simpl. unfold folderMatches, getName. unfold d1, it.
        rewrite is_folder_new, lookup_create_new by exact Hwf.
        simpl. now rewrite String.eqb_refl.
      - intros x Hx. unfold d1. rewrite folderMatches_create; [now apply Habsent|].
        pose proof (view_folders _ _ _ _ Hview x Hx) as Hfx.
        apply (has_kind_lt _ _ _ Hwf) in Hfx. lia. }
    rewrite Hfind. f_equal.
    unfold d1 at 1. rewrite <- (created_then_moved d parent it Hwf).
    rewrite detached_addFolder_detached.
    rewrite (created_then_moved d parent it Hwf). reflexivity.
Qed.

Lemma findOrCreateFolder_moveTo_again_witness :
  exists d1,
    findOrCreateFolder 3 5 "Invoices" true drive_project = Return 7 d1
    /\ findOrCreateFolder 3 5 "Invoices" true d1 = Return 7 d1
    /\ getParents d1 7 = [5].
Proof.
  assert (Hwf : wf drive_project) by wf_by_cases.
  eexists.
  apply (findOrCreateFolder_moveTo_again drive_project 1 5 (Node 5 [6] []) "Invoices"
           Hwf eq_refl eq_refl).
  - simpl. intros [].
  - intros x [].
Defined.

(** C8.  Let no folder below [parent] bear the name.  Then
    [findOrCreateFolder] with [moveTo] set adds exactly one item to the store, a
    folder of that name, and exactly one edge, from [parent] to it: the new
    folder is held by [parent] alone, and so is not left in the root folder
    where [DriveApp.createFolder] put it, unless [parent] is the root folder.
    Called again with the same arguments on the store so obtained, it returns
    that same folder and leaves the store exactly as it was: no second folder
    is created.  The store that holds only its root folder is one such case,
    with the root folder as [parent]. *)
Theorem findOrCreateFolder_moveTo_idempotent (d : drive) (n : nat) (parent : id)
  (t : tree) (name : string)
  (Hwf : wf d) (HF : is_folder d parent = true)
  (Hview : view (S (S n)) d parent = Some t)
  (Hacyclic : ~ In parent (folderOrder t))
  (Habsent : forall x, In x (folderOrder t) -> folderMatches d name x = false) :
  exists f d1,
    findOrCreateFolder (S (S n)) parent name true d = Return f d1
    /\ items d1 = items d ++ [(f, mkItem name Folder EmptyString)]
    /\ edges d1 = edges d ++ [(parent, f)]
    /\ lookup d f = None
    /\ getFoldersByName d1 name = getFoldersByName d name ++ [f]
    /\ getParents d1 f = [parent]
    /\ (parent <> root d -> ~ In f (children d1 (root d)))
    /\ findOrCreateFolder (S (S n)) parent name true d1 = Return f d1.
Proof.
  set (it := mkItem name Folder EmptyString).
  set (d1 := snd (create parent it d)).
  assert (Hp : parent < next_id d) by now apply (has_kind_lt Folder d).
  assert (Hwf1 : wf d1) by now apply wf_create.
  assert (HF1 : is_folder d1 parent = true).
  { unfold d1, is_folder. rewrite has_kind_create; [exact HF|lia]. }
  assert (Hpar : getParents d1 (next_id d) = [parent]).
  { unfold d1. rewrite <- (created_then_moved d parent it Hwf).
    now rewrite getParents_addFolder, getParents_detached. }
  exists (next_id d), d1.
  split.
  { rewrite (findOrCreateFolder_moveTo_run d _ parent t name Hwf HF Hview).
    rewrite (find_all_false _ _ Habsent). f_equal.
    now apply created_then_moved. }
  split; [reflexivity|]. split; [reflexivity|].
  split; [now apply lookup_fresh|].
  split.
  { unfold getFoldersByName, d1. cbn [create snd items]. rewrite filter_app, map_app.
    cbn [filter map fst snd item_kind item_name it kind_eqb andb].
    now rewrite String.eqb_refl. }
  split; [exact Hpar|].
  split.
  { intros Hne Hin. unfold d1 in Hin. rewrite children_create in Hin.
    destruct (Nat.eqb_spec parent (root d)) as [E|_]; [congruence|].
    rewrite app_nil_r in Hin. apply (children_lt d _ _ Hwf) in Hin. lia. }
  rewrite (findOrCreateFolder_moveTo_run d1 _ parent _ name Hwf1 HF1
             (view_with_new_folder n d parent t name Hwf HF Hview Hacyclic)).
  assert (Hfind : find (folderMatches d1 name)
                    (folderOrder (Node parent (tree_files t)
                                    (tree_subs t ++ [Node (next_id d) [] []])))
                  = Some (next_id d)).
  { simpl. rewrite flat_map_app, find_app.
    replace (flat_map (fun c => tree_id c :: folderOrder c) (tree_subs t))
      with (folderOrder t) by (destruct t; reflexivity).
    rewrite find_all_false.
    - simpl. unfold folderMatches, getName. unfold d1, it.
      rewrite is_folder_new, lookup_create_new by exact Hwf.
      simpl. now rewrite String.eqb_refl.
    - intros x Hx. unfold d1. rewrite folderMatches_create; [now apply Habsent|].
      pose proof (view_folders _ _ _ _ Hview x Hx) as Hfx.
      apply (has_kind_lt _ _ _ Hwf) in Hfx. lia. }
  rewrite Hfind. f_equal.
  unfold d1 at 1. rewrite <- (created_then_moved d parent it Hwf).
  rewrite detached_addFolder_detached.
  rewrite (created_then_moved d parent it Hwf). reflexivity.
Qed.

Lemma findOrCreateFolder_moveTo_idempotent_witness :
  (exists d1,
     findOrCreateFolder 2 0 "Invoices" true (empty_drive "root") = Return 1 d1
     /\ getFoldersByName d1 "Invoices" = [1]
     /\ getParents d1 1 = [0]
     /\ findOrCreateFolder 2 0 "Invoices" true d1 = Return 1 d1)
  /\ (exists d1,
        findOrCreateFolder 3 5 "Invoices" true drive_project = Return 7 d1
        /\ getParents d1 7 = [5]
        /\ getFolders d1 (root drive_project) = getFolders drive_project (root drive_project)
        /\ findOrCreateFolder 3 5 "Invoices" true d1 = Return 7 d1).
Proof.
  split.
  - assert (Hwf : wf (empty_drive "root")) by wf_by_cases.
    destruct (findOrCreateFolder_moveTo_idempotent (empty_drive "root") 0 0
                (Node 0 [] []) "Invoices" Hwf eq_refl eq_refl)
      as (f & d1 & H1 & _ & _ & _ & Hn & Hp & _ & H2).
    + simpl. intros [].
    + intros x [].
    + vm_compute in H1. injection H1 as <- <-.
      eexists. split; [reflexivity|]. split; [reflexivity|]. split; [reflexivity|].
      exact H2.
  - assert (Hwf : wf drive_project) by wf_by_cases.
    destruct (findOrCreateFolder_moveTo_idempotent drive_project 1 5
                (Node 5 [6] []) "Invoices" Hwf eq_refl eq_refl)
      as (f & d1 & H1 & _ & _ & _ & _ & Hp & _ & H2).
    + simpl. intros [].
    + intros x [].
    + vm_compute in H1. injection H1 as <- <-.
      eexists. split; [reflexivity|]. split; [reflexivity|]. split; [reflexivity|].
      exact H2.
Defined.

(** ** [copyFolder] only adds *)

Lemma grows_refl B d : grows B d d.
Proof.
  exists [], []. rewrite !app_nil_r. repeat split; auto.
Qed.

Lemma grows_create B it d : grows B d (snd (create B it d)).
Proof.
  exists [(next_id d, it)], [(B, next_id d)]. simpl.
  repeat split; auto; repeat constructor; simpl; auto.
Qed.

Lemma grows_trans B T d d1 d2 :
  grows B d d1 -> grows T d1 d2 -> T = B \/ next_id d <= T -> grows B d d2.
Proof.
  intros (i1 & e1 & Hi1 & He1 & Hn1 & Hr1 & Hf1 & Hg1)
         (i2 & e2 & Hi2 & He2 & Hn2 & Hr2 & Hf2 & Hg2) HT.
  exists (i1 ++ i2), (e1 ++ e2).
  split; [now rewrite Hi2, Hi1, app_assoc|].
  split; [now rewrite He2, He1, app_assoc|].
  split; [lia|]. split; [congruence|].
  split; apply Forall_app; split.
  - eapply Forall_impl; [|exact Hf1]. simpl. intros; lia.
  - eapply Forall_impl; [|exact Hf2]. simpl. intros; lia.
  - exact Hg1.
  - eapply Forall_impl; [|exact Hg2]. simpl. intros e [[H|H] H'].
    + split; [|lia]. destruct HT as [->|HT]; [now left|right; lia].
    + split; [right|]; lia.
Qed.

Lemma copy_files_grows B : forall files d,
  exists d', forEach files (copyFile B) d = Return tt d' /\ grows B d d'.
Proof.
  induction files as [|x files IH]; intros d.
  - exists d. split; [reflexivity|apply grows_refl].
  - simpl. unfold bind. rewrite copyFile_run.
    destruct (IH (snd (create B (mkItem (getName d x) File (getContent d x)) d)))
      as (d' & Hrun & Hg).
    exists d'. split; [exact Hrun|].
    eapply grows_trans; [apply grows_create|exact Hg|now left].
Qed.

Lemma copyFolder_grows n : forall A B d,
  match copyFolder n A B d with
  | Return _ d' => grows B d d'
  | Throw _ _ => False
  | Diverge => True
  end.
Proof.
  induction n as [|n IH]; intros A B d; [exact I|].
  rewrite copyFolder_S.
  destruct (copy_files_grows B (getFiles d A) d) as (d1 & Hrun1 & Hg1).
  rewrite (bind_Return _ _ _ _ _ Hrun1). clear Hrun1.
  revert d1 Hg1.
  induction (getFolders d A) as [|x l IHl]; intros dc Hg; simpl.
  - exact Hg.
  - unfold bind. rewrite copySub_run.
    set (dc1 := snd (create B _ dc)).
    assert (Hg1 : grows B d dc1).
    { eapply grows_trans; [exact Hg|apply grows_create|now left]. }
    pose proof (IH x (next_id dc) dc1) as Hsub.
    destruct (copyFolder n x (next_id dc) dc1) as [[] d2| |]; [|contradiction|exact I].
    apply IHl. eapply grows_trans; [exact Hg1|exact Hsub|].
    right. destruct Hg as (_ & _ & _ & _ & Hn & _). exact Hn.
Qed.

(** X7.  A copy that comes to an end has only added to the store: the items
    and the edges it started from are still there, in the same order and
    unchanged, followed by new items with new identifiers and by new edges
    that lead from the target folder, or from a new folder, to new items.
    Nothing that existed is removed, renamed or re-parented. *)
Theorem copyFolder_only_adds (n : nat) (A B : id) (d d' : drive)
  (Hrun : copyFolder n A B d = Return tt d') :
  exists its es,
    items d' = items d ++ its
    /\ edges d' = edges d ++ es
    /\ Forall (fun p => next_id d <= fst p < next_id d') its
    /\ Forall (fun e => (fst e = B \/ next_id d <= fst e) /\ next_id d <= snd e) es.
Proof.
  pose proof (copyFolder_grows n A B d) as H. rewrite Hrun in H.
  destruct H as (its & es & Hi & He & _ & _ & Hf & Hg).
  exists its, es. repeat split; assumption.
Qed.

Lemma copyFolder_only_adds_witness :
  exists d' its es,
    copyFolder 3 1 5 drive_project = Return tt d'
    /\ items d' = items drive_project ++ its
    /\ edges d' = edges drive_project ++ es
    /\ Forall (fun p => 7 <= fst p) its.
Proof.
  assert (Hrun : exists d', copyFolder 3 1 5 drive_project = Return tt d').
  { eexists. vm_compute. reflexivity. }
  destruct Hrun as (d' & Hrun).
  destruct (copyFolder_only_adds 3 1 5 drive_project d' Hrun)
    as (its & es & Hi & He & Hf & _).
  exists d', its, es. split; [exact Hrun|]. split; [exact Hi|]. split; [exact He|].
  eapply Forall_impl; [|exact Hf]. cbn beta. intros p [Hp _]. exact Hp.
Defined.

(** ** Copying into the source's own subtree *)

Lemma view_below n : forall d f t x,
  view n d f = Some t -> In x (folderOrder t) -> below d f x.
Proof.
  induction n as [|n IH]; intros d f t x Hv Hx; [discriminate|].
  apply view_S in Hv as (ts & Hts & ->). simpl in Hx.
  pose (l := getFolders d f).
  assert (Hsub : forall y, In y l -> In y (getFolders d f)) by (unfold l; auto).
  change (getFolders d f) with l in Hts. clearbody l. revert ts Hts Hx Hsub.
  induction l as [|a l IHl]; intros ts Hts Hx Hsub.
  - inversion Hts; subst. destruct Hx.
  - apply sequence_cons in Hts as (ta & ts' & Ha & Hts' & ->).
    simpl in Hx. destruct Hx as [<-|Hx].
    + rewrite (view_id _ _ _ _ Ha). apply below_child. apply Hsub. now left.
    + apply in_app_or in Hx as [Hx|Hx].
      * apply below_step with a; [apply Hsub; now left|]. now apply (IH d a ta).
      * apply (IHl ts' Hts' Hx). intros y Hy. apply Hsub. now right.
Qed.

Lemma below_snoc d f y x : below d f y -> In x (getFolders d y) -> below d f x.
Proof.
  induction 1 as [f y Hy|f z y Hz _ IH]; intros Hx.
  - apply below_step with y; [exact Hy|now apply below_child].
  - apply below_step with z; [exact Hz|now apply IH].
Qed.

Lemma below_mono d d' f x :
  (forall g y, In y (getFolders d g) -> In y (getFolders d' g)) ->
  below d f x -> below d' f x.
Proof.
  intros Hm. induction 1 as [f x Hx|f y x Hy _ IH].
  - apply below_child. now apply Hm.
  - apply below_step with y; [now apply Hm|exact IH].
Qed.

Lemma grows_getFolders B d d' f x :
  grows B d d' -> In x (getFolders d f) -> In x (getFolders d' f).
Proof.
  intros (its & es & Hi & He & _) Hx. unfold getFolders in *.
  apply filter_In in Hx as [Hc Hk]. apply filter_In. split.
  - unfold children in *. rewrite He, filter_app, map_app. apply in_or_app. now left.
  - unfold is_folder, has_kind, lookup in *. rewrite Hi, find_app.
    destruct (find (fun p => fst p =? x) (items d)); [exact Hk|discriminate].
Qed.

(** Copying a folder into a folder below it, at any depth, never comes to an
    end: the folder created in the target lies below the sub-folder through
    which the target is reached, and is met again by the call on that
    sub-folder. *)
Lemma copyFolder_below n : forall d f tgt,
  wf d -> tgt < next_id d -> below d f tgt ->
  copyFolder n f tgt d = Diverge.
Proof.
  induction n as [|n IH]; intros d f tgt Hwf Ht Hb; [reflexivity|].
  rewrite copyFolder_S.
  destruct (copy_files_run tgt (getFiles d f) d Hwf Ht)
    as (d1 & Hrun1 & Hwf1 & _ & _ & Hn1 & _).
  { apply Forall_forall. intros x Hx. apply getFiles_is_file in Hx.
    now apply (has_kind_lt File d). }
  destruct (copy_files_grows tgt (getFiles d f) d) as (d1' & Hrun1' & Hg1).
  rewrite Hrun1 in Hrun1'. injection Hrun1' as <-.
  rewrite (bind_Return _ _ _ _ _ Hrun1).
  assert (Ht1 : tgt < next_id d1) by lia.
  assert (Hm1 : forall g y, In y (getFolders d g) -> In y (getFolders d1 g)).
  { intros g y. now apply (grows_getFolders tgt). }
  assert (Hy : exists y, In y (getFolders d f) /\ (y = tgt \/ below d y tgt)).
  { inversion Hb as [? ? Hx|? y ? Hy Hb']; subst; [exists tgt|exists y]; auto. }
  clear Hrun1 Hn1 Hg1 Hb. revert d1 Hwf1 Ht1 Hm1 Hy.
  induction (getFolders d f) as [|x l IHl]; intros dc Hwfc Htc Hm (y & Hin & Hy);
    [destruct Hin|].
  simpl. unfold bind. rewrite copySub_run.
  set (it := mkItem (getName dc x) Folder EmptyString).
  set (dc1 := snd (create tgt it dc)).
  assert (Hwf1 : wf dc1) by now apply wf_create.
  assert (HN : next_id dc < next_id dc1) by (simpl; lia).
  assert (Hm1 : forall g z, In z (getFolders dc g) -> In z (getFolders dc1 g)).
  { intros g z. apply (grows_getFolders tgt). apply grows_create. }
  assert (Hnew : In (next_id dc) (getFolders dc1 tgt)).
  { apply filter_In. split.
    - unfold dc1. rewrite children_create_same. apply in_or_app. right. now left.
    - now apply is_folder_new. }
  destruct Hin as [->|Hin].
  - rewrite IH; [reflexivity|exact Hwf1|exact HN|].
    destruct Hy as [->|Hy].
    + now apply below_child.
    + apply below_snoc with tgt; [|exact Hnew].
      apply (below_mono d dc1); [|exact Hy]. intros g z Hz. now apply Hm1, Hm.
  - pose proof (copyFolder_preserves n x (next_id dc) dc1 Hwf1 HN) as Hsub.
    pose proof (copyFolder_grows n x (next_id dc) dc1) as Hgr.
    destruct (copyFolder n x (next_id dc) dc1) as [[] d2| |];
      [|contradiction|reflexivity].
    destruct Hsub as [Hwf2 Hle2]. apply IHl; [exact Hwf2|lia| |].
    + intros g z Hz. apply (grows_getFolders (next_id dc) dc1); [exact Hgr|].
      now apply Hm1, Hm.
    + exists y. now split.
Qed.

(** C7, amended.  Let [tA] be the unfolding of [A].  When [B] is no folder
    strictly below [A], [copyFolder A B] comes to an end and [B] has
    received, after what it held, one new file for each file of [A] and one new
    folder for each sub-folder of [A], so that the new items have the names,
    contents and arrangement of those of [A] ([copied]); all their identifiers
    are new, and they were created files first, then each sub-folder followed
    by its own contents.  Run a second time on the result, [copyFolder A B]
    adds in the same way a copy of what [A] then unfolds to (which is [tA]
    again unless [A] is [B]): the first copy stays in [B] untouched, next to
    the second one, and the two share no item.  When [B] is a folder strictly
    below [A], at whatever depth, the copy does not come to an end: no amount
    of fuel lets the recursion return. *)
Theorem copyFolder_copies_twice (d : drive) (n : nat) (A B : id) (tA : tree)
  (Hwf : wf d) (HA : is_folder d A = true) (HB : is_folder d B = true)
  (Hview : view (S n) d A = Some tA) :
  (~ In B (folderOrder tA) ->
   exists d1 c1 tA1 d2 c2,
     copyFolder (S n) A B d = Return tt d1
     /\ copied n d d1 B tA c1
     /\ view (S n) d1 A = Some tA1 /\ (A <> B -> tA1 = tA)
     /\ copyFolder (S n) A B d1 = Return tt d2
     /\ copied n d1 d2 B tA1 c2
     /\ children d2 B
        = children d B ++ (tree_files c1 ++ map tree_id (tree_subs c1))
                       ++ (tree_files c2 ++ map tree_id (tree_subs c2))
     /\ sequence (map (view n d2) (map tree_id (tree_subs c1))) = Some (tree_subs c1)
     /\ map (file_shape d2) (tree_files c1) = map (file_shape d) (tree_files tA)
     /\ map (shape_of d2) (tree_subs c1) = map (shape_of d) (tree_subs tA)
     /\ (forall x y, In x (fileOrder c1) -> In y (fileOrder c2) ->
           next_id d <= x /\ x < y)
     /\ (forall i, i < next_id d -> lookup d2 i = lookup d i))
  /\ (In B (folderOrder tA) -> forall m, copyFolder m A B d = Diverge).
Proof.
  assert (HAlt : A < next_id d) by now apply (has_kind_lt Folder d).
  assert (HBlt : B < next_id d) by now apply (has_kind_lt Folder d).
  split; [intros Hout|intros Hin m].
  2:{ apply copyFolder_below; [exact Hwf|exact HBlt|].
      now apply (view_below (S n) d A tA). }
  destruct (copyFolder_spec (S n) d A B tA Hwf HBlt HAlt Hview Hout)
    as (d1 & c1 & Hrun1 & Hwf1 & E1 & Hc1).
  simpl pred in Hc1.
  destruct (copied_source_view n d d1 A B tA c1 Hwf HAlt HBlt Hview Hout E1 Hc1)
    as (tA1 & Hview1 & Hout1 & Hsame).
  assert (Hn1 : next_id d <= next_id d1) by apply E1.
  destruct (copyFolder_spec (S n) d1 A B tA1 Hwf1) as (d2 & c2 & Hrun2 & Hwf2 & E2 & Hc2);
    try assumption; try lia.
  simpl pred in Hc2.
  exists d1, c1, tA1, d2, c2.
  pose proof Hc1 as (Hid1 & Hch1 & Hfi1 & Hfo1 & Hseq1 & Hfs1 & Hss1 & Hord1 & Hnx1).
  pose proof Hc2 as (Hid2 & Hch2 & _ & _ & _ & _ & _ & Hord2 & _).
  assert (Hc1lt : forall x, In x (fileOrder c1) -> next_id d <= x < next_id d1).
  { intros x Hx. rewrite Hord1 in Hx. apply seq_bounds in Hx. lia. }
  assert (Hsub1 : forall t x, In t (tree_subs c1) -> In x (tree_ids t) ->
                              In x (fileOrder c1)).
  { intros t x Ht Hx. destruct c1 as [ci cfs css]. simpl in *.
    apply in_or_app. right. apply in_flat_map. exists t. split; assumption. }
  repeat (split; [assumption|]).
  split; [now rewrite Hch2, Hch1, <- !app_assoc|].
  split.
  { apply (sequence_view_extends n B d1 d2 _ _ Hwf1 E2 Hseq1).
    intros x Hx. apply in_flat_map in Hx as (t & Ht & Hx).
    apply folder_ids_tree_ids in Hx. apply (Hsub1 t x Ht), Hc1lt in Hx. lia. }
  split.
  { rewrite <- Hfs1. apply map_ext_in. intros f Hf. apply file_shape_lookup.
    destruct E2 as (_ & _ & Hl & _). apply Hl.
    assert (In f (fileOrder c1)).
    { destruct c1 as [ci cfs css]. simpl in *. apply in_or_app. now left. }
    apply Hc1lt in H. lia. }
  split.
  { rewrite <- Hss1. apply map_ext_in. intros t Ht.
    apply (extends_shape B d1 d2 t E2). intros x Hx.
    apply (Hsub1 t x Ht), Hc1lt in Hx. lia. }
  split.
  { intros x y Hx Hy. apply Hc1lt in Hx. rewrite Hord2 in Hy.
    apply seq_bounds in Hy. lia. }
  intros i Hi. destruct E1 as (_ & _ & Hl1 & _), E2 as (_ & _ & Hl2 & _).
  rewrite Hl2 by lia. now apply Hl1.
Qed.

Lemma copyFolder_copies_twice_witness :
  (exists d1 d2,
     copyFolder 3 1 5 drive_project = Return tt d1
     /\ copyFolder 3 1 5 d1 = Return tt d2
     /\ getFolders d2 5 = [7; 9] /\ getFiles d2 5 = [6]
     /\ getName d2 7 = "Invoices" /\ getName d2 9 = "Invoices"
     /\ getFiles d2 7 = [8] /\ getFiles d2 9 = [10]
     /\ file_shape d2 8 = ("invoice-2020.pdf", "pdf-a")
     /\ file_shape d2 10 = ("invoice-2020.pdf", "pdf-a")
     /\ getFolders d2 1 = [3])
  /\ (getFolders drive_nested 0 = [1; 2] /\ getFolders drive_nested 1 = [3]
      /\ forall m, copyFolder m 0 3 drive_nested = Diverge).
Proof.
  split.
  - assert (Hwf : wf drive_project) by wf_by_cases.
    assert (Hout : ~ In 5 (folderOrder (Node 1 [] [Node 3 [4] []]))).
    { simpl. intros [H|[]]. discriminate H. }
    destruct (copyFolder_copies_twice drive_project 2 1 5 (Node 1 [] [Node 3 [4] []])
                Hwf eq_refl eq_refl eq_refl) as [Hcopy _].
    destruct (Hcopy Hout) as (d1 & c1 & tA1 & d2 & c2 & H1 & _ & _ & _ & H2 & _).
    exists d1, d2. split; [exact H1|]. split; [exact H2|].
    vm_compute in H1. injection H1 as <-.
    vm_compute in H2. injection H2 as <-.
    repeat split.
  - assert (Hwf : wf drive_nested) by wf_by_cases.
    split; [reflexivity|]. split; [reflexivity|].
    destruct (copyFolder_copies_twice drive_nested 2 0 3
                (Node 0 [] [Node 1 [] [Node 3 [] []]; Node 2 [] []])
                Hwf eq_refl eq_refl eq_refl) as [_ Hloop].
    apply Hloop. simpl. right. now left.
Defined.

(** ** [start] *)

Lemma getParents_app_edges d es x :
  getParents (with_edges d (edges d ++ es)) x
  = getParents d x ++ map fst (filter (fun e => snd e =? x) es).
Proof. unfold getParents; simpl. now rewrite filter_app, map_app. Qed.

Lemma getParents_fresh d x : wf d -> next_id d <= x -> getParents d x = [].
Proof.
  intros (_ & He & _) Hx. unfold getParents.
  rewrite filter_nil; [reflexivity|].
  intros [a b] Hin. simpl. apply He in Hin as [_ Hb]. apply Nat.eqb_neq. lia.
Qed.

Lemma getParents_create p it d :
  wf d -> getParents (snd (create p it d)) (next_id d) = [p].
Proof.
  intros Hwf. unfold getParents, create; simpl.
  rewrite filter_app, map_app. simpl. rewrite Nat.eqb_refl. simpl.
  fold (getParents d (next_id d)).
  now rewrite (getParents_fresh d _ Hwf (le_n _)).
Qed.

Lemma getFoldersByName_lt d name x :
  wf d -> In x (getFoldersByName d name) -> x < next_id d.
Proof.
  intros (Hi & _) Hin. unfold getFoldersByName in Hin.
  apply in_map_iff in Hin as ([i it] & <- & Hin).
  apply filter_In in Hin as [Hin _]. now apply Hi in Hin.
Qed.

Lemma start_run getUrl n r d :
  start getUrl n r d
  = let d1 := snd (create (root d) (mkItem (sourceFolderName r) Folder EmptyString) d) in
    if is_folder d1 (destinationFolderId r)
    then
      match
        match getFoldersByName d (templateFolderName r) with
        | first :: _ => copyFolder n first (next_id d) d1
        | [] => Return tt d1
        end
      with
      | Return _ d2 =>
          match moveFolderToFolderById (next_id d) (destinationFolderId r) d2 with
          | Return _ d3 => Return (next_id d, getUrl (next_id d)) d3
          | Throw e d3 => Throw e d3
          | Diverge => Diverge
          end
      | Throw e d2 => Throw e d2
      | Diverge => Diverge
      end
    else Throw NoSuchItem d1.
Proof.
  cbv zeta. unfold start, bind, gets, DriveApp_createFolder, DriveApp_getFolderById.
  cbn [create]. 
  destruct (is_folder _ (destinationFolderId r)); [|reflexivity].
  destruct (getFoldersByName d (templateFolderName r)); reflexivity.
Qed.

(** X8.  [start] creates the project folder before it resolves the
    destination: when the destination identifier is not a folder, the call
    throws, and the folder it has just created stays behind, empty, in the
    root folder. *)
Theorem start_unknown_destination (getUrl : id -> string) (n : nat)
  (r : start_request) (d : drive)
  (Hwf : wf d) (Hdst : is_folder d (destinationFolderId r) = false)
  (Hnew : destinationFolderId r <> next_id d) :
  let d1 := snd (create (root d) (mkItem (sourceFolderName r) Folder EmptyString) d) in
  start getUrl n r d = Throw NoSuchItem d1
  /\ is_folder d1 (next_id d) = true
  /\ getName d1 (next_id d) = sourceFolderName r
  /\ getParents d1 (next_id d) = [root d]
  /\ children d1 (next_id d) = [].
Proof.
  intros d1. split; [|split; [|split; [|split]]].
  - assert (H1 : is_folder d1 (destinationFolderId r) = false).
    { unfold d1, is_folder. now rewrite has_kind_create. }
    rewrite start_run. cbv zeta. fold d1. now rewrite H1.
  - now apply is_folder_new.
  - unfold getName, d1. now rewrite lookup_create_new.
  - now apply getParents_create.
  - unfold d1. rewrite children_create, (children_fresh d _ Hwf (le_n _)).
    destruct (Nat.eqb_spec (root d) (next_id d)); [|reflexivity].
    destruct Hwf as (_ & _ & Hr). lia.
Qed.

Lemma start_unknown_destination_witness :
  exists d1,
    start (fun _ => EmptyString) 3 (mkStartRequest "Project" 9 "Templates") drive_project
    = Throw NoSuchItem d1
    /\ getFolders d1 0 = [1; 5; 7] /\ getName d1 7 = "Project".
Proof.
  assert (Hwf : wf drive_project) by wf_by_cases.
  assert (Hne : 9 <> next_id drive_project) by (simpl; lia).
  destruct (start_unknown_destination (fun _ => EmptyString) 3
              (mkStartRequest "Project" 9 "Templates") drive_project
              Hwf eq_refl Hne) as (Hrun & _ & Hname & _).
  eexists. split; [exact Hrun|]. split; [reflexivity|exact Hname].
Defined.

(** X9.  Without a folder of the template name, [start] amounts to creating
    an empty folder of the source name in the destination: it returns the new
    identifier, and the store is the one that creating the folder there would
    give. *)
Theorem start_without_template (getUrl : id -> string) (n : nat)
  (r : start_request) (d : drive)
  (Hwf : wf d) (Hdst : is_folder d (destinationFolderId r) = true)
  (Hnone : getFoldersByName d (templateFolderName r) = []) :
  start getUrl n r d
  = Return (next_id d, getUrl (next_id d))
      (snd (create (destinationFolderId r)
              (mkItem (sourceFolderName r) Folder EmptyString) d)).
Proof.
  set (it := mkItem (sourceFolderName r) Folder EmptyString).
  set (d1 := snd (create (root d) it d)).
  assert (Hlt : destinationFolderId r < next_id d) by now apply (has_kind_lt Folder d).
  assert (H1 : is_folder d1 (destinationFolderId r) = true).
  { unfold d1, is_folder. rewrite has_kind_create; [exact Hdst|lia]. }
  assert (HN : is_folder d1 (next_id d) = true) by now apply is_folder_new.
  rewrite start_run. cbv zeta. fold it. fold d1. rewrite H1, Hnone.
  rewrite moveFolderToFolderById_run, HN, H1. unfold d1.
  now rewrite (created_then_moved d (destinationFolderId r) it Hwf).
Qed.

Lemma start_without_template_witness :
  exists d',
    start (fun _ => EmptyString) 3 (mkStartRequest "Project" 5 "Missing") drive_project
    = Return (7, EmptyString) d'
    /\ getFolders d' 5 = [7] /\ getFolders d' 0 = [1; 5].
Proof.
  assert (Hwf : wf drive_project) by wf_by_cases.
  eexists. split.
  - apply (start_without_template (fun _ => EmptyString) 3
             (mkStartRequest "Project" 5 "Missing") drive_project Hwf eq_refl eq_refl).
  - split; reflexivity.
Defined.

Lemma in_children_getParents d x y : In x (children d y) <-> In y (getParents d x).
Proof.
  unfold children, getParents. rewrite !in_map_iff. split.
  - intros ([a b] & <- & Hin). apply filter_In in Hin as [Hin Ha].
    simpl in *. apply Nat.eqb_eq in Ha. subst a.
    exists (y, b). split; [reflexivity|]. apply filter_In. split; [exact Hin|].
    apply Nat.eqb_refl.
  - intros ([a b] & <- & Hin). apply filter_In in Hin as [Hin Hb].
    simpl in *. apply Nat.eqb_eq in Hb. subst b.
    exists (a, x). split; [reflexivity|]. apply filter_In. split; [exact Hin|].
    apply Nat.eqb_refl.
Qed.

(** Moving [x] leaves every folder that neither held [x] nor receives it
    with what it held. *)
Lemma children_moved d x dst y :
  ~ In y (getParents d x) -> y <> dst ->
  children (addFolder dst x (detached x d)) y = children d y.
Proof.
  intros Hy Hne. rewrite children_addFolder.
  destruct (Nat.eqb_spec dst y); [congruence|]. rewrite app_nil_r.
  rewrite children_detached. apply forallb_filter_id. apply forallb_forall.
  intros c Hc. apply negb_true_iff, Nat.eqb_neq. intros ->.
  apply Hy. now apply in_children_getParents.
Qed.

Lemma view_moved n d x dst f t :
  view n d f = Some t ->
  (forall y, In y (folder_ids t) -> ~ In y (getParents d x) /\ y <> dst) ->
  view n (addFolder dst x (detached x d)) f = Some t.
Proof.
  intros Hv Hy. apply (view_agree n d _ f t Hv). intros y Hin.
  destruct (Hy y Hin) as [Hp Hne].
  unfold getFolders, getFiles. rewrite (children_moved d x dst y Hp Hne).
  split; reflexivity.
Qed.

Lemma lookup_items d d' i : items d' = items d -> lookup d' i = lookup d i.
Proof. intros H. unfold lookup. now rewrite H. Qed.

Lemma file_shape_items d d' f : items d' = items d -> file_shape d' f = file_shape d f.
Proof. intros H. apply file_shape_lookup. now apply lookup_items. Qed.

Lemma shape_of_items d d' t : items d' = items d -> shape_of d' t = shape_of d t.
Proof.
  intros H. induction t as [i fs ts IH] using tree_induction. simpl. f_equal.
  - unfold getName. now rewrite (lookup_items d d' i H).
  - apply map_ext. intros f. now apply file_shape_items.
  - apply map_ext_in. intros c Hc. rewrite Forall_forall in IH. now apply IH.
Qed.

(** X10.  With a template whose unfolding does not contain the root folder,
    [start] returns the identifier of a new folder of the source name that the
    destination, and no other folder, holds, and that unfolds to a copy of the
    template: new files and folders with the names, contents and arrangement
    of those of the template.  No item that existed has changed. *)
Theorem start_copies_template (getUrl : id -> string) (n : nat)
  (r : start_request) (d : drive) (T : id) (others : list id) (tT : tree)
  (Hwf : wf d) (Hdst : is_folder d (destinationFolderId r) = true)
  (Htemplate : getFoldersByName d (templateFolderName r) = T :: others)
  (Hview : view (S n) d T = Some tT)
  (Hroot : ~ In (root d) (folder_ids tT)) :
  exists d' c,
    start getUrl (S n) r d = Return (next_id d, getUrl (next_id d)) d'
    /\ getParents d' (next_id d) = [destinationFolderId r]
    /\ is_folder d' (next_id d) = true
    /\ getName d' (next_id d) = sourceFolderName r
    /\ view (S n) d' (next_id d) = Some c
    /\ map (file_shape d') (tree_files c) = map (file_shape d) (tree_files tT)
    /\ map (shape_of d') (tree_subs c) = map (shape_of d) (tree_subs tT)
    /\ (forall x, In x (fileOrder c) -> next_id d < x)
    /\ (forall i, i < next_id d -> lookup d' i = lookup d i).
Proof.
  set (N := next_id d). set (dst := destinationFolderId r).
  set (it := mkItem (sourceFolderName r) Folder EmptyString).
  set (d1 := snd (create (root d) it d)).
  assert (Hlt : dst < N) by now apply (has_kind_lt Folder d).
  assert (HT : T < N).
  { apply (getFoldersByName_lt d (templateFolderName r)); [exact Hwf|].
    rewrite Htemplate. now left. }
  assert (Hrlt : root d < N) by apply Hwf.
  assert (Hwf1 : wf d1) by now apply wf_create.
  assert (Hn1 : next_id d1 = S N) by reflexivity.
  assert (E1 : extends_at (root d) d d1) by apply extends_create.
  assert (H1 : is_folder d1 dst = true).
  { unfold d1, is_folder. rewrite has_kind_create; [exact Hdst|fold N; lia]. }
  assert (HN1 : is_folder d1 N = true) by now apply is_folder_new.
  assert (Hv1 : view (S n) d1 T = Some tT) by now apply view_create_frame.
  pose proof (view_ids_lt _ _ _ _ Hwf HT Hview) as HltT.
  assert (HnN : ~ In N (folderOrder tT)).
  { intros Hin. apply folderOrder_fileOrder in Hin.
    assert (N < N) by (apply HltT; now right). lia. }
  destruct (copyFolder_spec (S n) d1 T N tT Hwf1) as (d2 & c & Hrun & Hwf2 & E2 & Hc);
    try assumption; try (rewrite Hn1; lia).
  simpl pred in Hc.
  assert (HemptyN : children d1 N = []).
  { unfold d1. rewrite children_create, (children_fresh d N Hwf (le_n _)).
    destruct (Nat.eqb_spec (root d) N); [lia|reflexivity]. }
  assert (Hv2 : view (S n) d2 N = Some c) by now apply (copied_view n d1 d2 N tT c).
  pose proof Hc as (Hcid & _ & _ & _ & _ & Hcfs & Hcss & Hcord & _).
  assert (Hclt : forall x, In x (fileOrder c) -> N < x).
  { intros x Hx. rewrite Hcord, Hn1 in Hx. apply seq_bounds in Hx. lia. }
  assert (Hpar2 : getParents d2 N = [root d]).
  { pose proof (copyFolder_grows (S n) T N d1) as Hg. rewrite Hrun in Hg.
    destruct Hg as (its & es & _ & He & _ & _ & _ & Hes).
    unfold getParents. rewrite He, filter_app, map_app.
    fold (getParents d1 N). unfold d1. rewrite (getParents_create _ _ _ Hwf).
    rewrite filter_nil; [reflexivity|].
    intros [a b] Hin. rewrite Forall_forall in Hes. apply Hes in Hin as [_ Hb].
    simpl in Hb |- *. apply Nat.eqb_neq. change (next_id d1) with (S N) in Hb. lia. }
  assert (HN2 : is_folder d2 N = true).
  { unfold is_folder. rewrite (extends_has_kind Folder N d1 d2 N E2); [exact HN1|].
    rewrite Hn1. lia. }
  assert (H2 : is_folder d2 dst = true).
  { unfold is_folder. rewrite (extends_has_kind Folder N d1 d2 dst E2); [exact H1|].
    rewrite Hn1. lia. }
  set (d3 := addFolder dst N (detached N d2)).
  assert (Hl3 : forall i, i < N -> lookup d3 i = lookup d i).
  { intros i Hi. change (lookup d3 i) with (lookup d2 i).
    destruct E2 as (_ & _ & Hl2 & _). rewrite Hl2 by (rewrite Hn1; lia).
    destruct E1 as (_ & _ & Hl1 & _). now apply Hl1. }
  exists d3, c.
  split.
  { rewrite start_run. cbv zeta. fold it. fold d1. fold dst. fold N.
    rewrite H1, Htemplate, Hrun.
    rewrite moveFolderToFolderById_run, HN2. now rewrite H2. }
  split; [unfold d3; now rewrite getParents_addFolder, getParents_detached|].
  split; [exact HN2|].
  split.
  { change (getName d3 N) with (getName d2 N). unfold getName.
    destruct E2 as (_ & _ & Hl2 & _). rewrite Hl2 by (rewrite Hn1; lia).
    unfold d1. now rewrite lookup_create_new. }
  split.
  { apply (view_moved (S n) d2 N dst N c Hv2). intros y Hy.
    assert (N <= y).
    { destruct Hy as [Hy|Hy]; [rewrite <- Hy, Hcid; lia|].
      apply folderOrder_fileOrder, Hclt in Hy. lia. }
    rewrite Hpar2. split; [|lia]. intros [Hr|[]]. lia. }
  split.
  { rewrite (map_ext _ _ (fun f => file_shape_items d2 d3 f eq_refl)). rewrite Hcfs.
    apply map_ext_in. intros f Hf. apply file_shape_lookup.
    destruct E1 as (_ & _ & Hl1 & _). apply Hl1, HltT. right.
    destruct tT; simpl in *. apply in_or_app. now left. }
  split.
  { rewrite (map_ext _ _ (fun t => shape_of_items d2 d3 t eq_refl)). rewrite Hcss.
    apply map_ext_in. intros t Ht. apply (extends_shape (root d) d d1 t E1).
    intros x Hx. apply HltT. right. destruct tT; simpl in *.
    apply in_or_app. right. apply in_flat_map. exists t. now split. }
  split; [exact Hclt|exact Hl3].
Qed.

Lemma start_copies_template_witness :
  exists d',
    start (fun _ => EmptyString) 3 (mkStartRequest "Project" 5 "Templates") drive_project
    = Return (7, EmptyString) d'
    /\ getFolders d' 5 = [7] /\ getName d' 7 = "Project"
    /\ getFolders d' 7 = [8] /\ getName d' 8 = "Invoices"
    /\ getFiles d' 8 = [9] /\ file_shape d' 9 = ("invoice-2020.pdf", "pdf-a").
Proof.
  assert (Hwf : wf drive_project) by wf_by_cases.
  assert (Hroot : ~ In (root drive_project) (folder_ids (Node 1 [] [Node 3 [4] []]))).
  { simpl. intros [H|[H|[]]]; discriminate H. }
  destruct (start_copies_template (fun _ => EmptyString) 2
              (mkStartRequest "Project" 5 "Templates") drive_project
              1 [] (Node 1 [] [Node 3 [4] []]) Hwf eq_refl eq_refl eq_refl Hroot)
    as (d' & c & Hrun & _).
  exists d'. split; [exact Hrun|].
  vm_compute in Hrun. injection Hrun as <-. repeat split.
Defined.

(** ** Locating a file, and the two ways of matching *)

(** X11.  When the folder search finds a folder of the given name below
    [folderId] and a file of exactly the given name is met below that folder,
    [locateFileId] returns the text of the identifier of the first such file,
    the search for the file being confined to the folder found; the store is
    left as it was. *)
Theorem locateFileId_returns (d : drive) (n : nat) (F : id) (t : tree)
  (name file : string) (sub : id) (tsub : tree) (f : id)
  (HF : is_folder d F = true) (Hview : view n d F = Some t)
  (Hsub : find (folderMatches d name) (folderOrder t) = Some sub)
  (Hvsub : view n d sub = Some tsub)
  (Hfile : find (fileMatches d false file) (fileOrder tsub) = Some f) :
  locateFileId n (mkRequest F name file) d = Return (JSON_stringify f) d
  /\ is_file d f = true /\ getName d f = file /\ In f (fileOrder tsub).
Proof.
  assert (Hfo : is_folder d sub = true).
  { apply find_some in Hsub as [_ Hp]. unfold folderMatches in Hp.
    now apply andb_prop in Hp as [Hp _]. }
  split.
  - unfold locateFileId; simpl.
    assert (E : getFolderId n F name d = Return sub d).
    { unfold getFolderId, bind.
      rewrite (findFolderByName_run _ _ _ _ _ HF Hview), Hsub. reflexivity. }
    rewrite (bind_Return _ _ _ _ _ E).
    assert (E' : getFileId n sub file d = Return f d).
    { unfold getFileId, bind.
      rewrite (findFileByName_run _ _ _ _ _ _ Hfo Hvsub), Hfile. reflexivity. }
    now rewrite (bind_Return _ _ _ _ _ E').
  - apply find_some in Hfile as [Hin Hp]. unfold fileMatches in Hp.
    apply andb_prop in Hp as [Hk Hn]. simpl in Hn. rewrite orb_false_r in Hn.
    apply String.eqb_eq in Hn. repeat split; assumption.
Qed.

Lemma locateFileId_returns_witness :
  locateFileId 3 (mkRequest 0 "Archive" "invoice-2020.pdf") drive_project
  = Return (JSON_stringify 6) drive_project.
Proof.
  apply (locateFileId_returns drive_project 3 0 tree_project "Archive"
           "invoice-2020.pdf" 5 (Node 5 [6] []) 6 eq_refl eq_refl eq_refl eq_refl eq_refl).
Defined.

Lemma prefix_refl s : String.prefix s s = true.
Proof.
  induction s as [|a s IH]; simpl; [reflexivity|].
  destruct (Ascii.ascii_dec a a); [exact IH|congruence].
Qed.

Lemma includes_refl s : includes s s = true.
Proof.
  unfold includes. destruct s as [|a s]; simpl; [reflexivity|].
  destruct (Ascii.ascii_dec a a) as [_|H]; [|congruence].
  now rewrite prefix_refl.
Qed.

Lemma upto_wider (p q : id -> bool) l :
  (forall x, p x = true -> q x = true) ->
  List.length (upto q l) <= List.length (upto p l).
Proof.
  intros Hpq. induction l as [|a l IH]; simpl; [lia|].
  destruct (p a) eqn:Ep.
  - rewrite (Hpq a Ep). simpl. lia.
  - destruct (q a); simpl; lia.
Qed.

Lemma find_wider (p q : id -> bool) l x :
  (forall x, p x = true -> q x = true) -> find p l = Some x ->
  exists y, find q l = Some y.
Proof.
  intros Hpq. induction l as [|a l IH]; simpl; [discriminate|].
  destruct (q a) eqn:Eq; [eauto|].
  destruct (p a) eqn:Ep; [|exact IH].
  apply Hpq in Ep. congruence.
Qed.

(** X12.  Matching by part widens matching by the whole name: whenever the
    exact file search finds a file, the search with [partialMatch] finds one
    too, after meeting at most as many items; and the file it returns has a
    name that contains the text searched for. *)
Theorem findFileByName_partial_widens (d : drive) (n : nat) (F : id) (t : tree)
  (name : string) (f : id)
  (HF : is_folder d F = true) (Hview : view n d F = Some t)
  (Hexact : findFileByName n F name false d = Return (Some f) d) :
  exists g sp se,
    findFileByName n F name true d = Return (Some g) d
    /\ includes (getName d g) name = true
    /\ searchFile n d true F name s0 = Some sp
    /\ searchFile n d false F name s0 = Some se
    /\ List.length (visited sp) <= List.length (visited se).
Proof.
  rewrite (findFileByName_run _ _ _ _ _ _ HF Hview) in Hexact.
  inversion Hexact as [Hfind]. clear Hexact.
  assert (Hpq : forall x, fileMatches d false name x = true ->
                          fileMatches d true name x = true).
  { intros x Hx. unfold fileMatches in *.
    apply andb_prop in Hx as [Hk Hn]. rewrite Hk. simpl in *.
    rewrite orb_false_r in Hn. now rewrite Hn. }
  destruct (find_wider _ _ _ _ Hpq Hfind) as (g & Hg).
  exists g, (scan (fileMatches d true name) (fileOrder t) s0),
         (scan (fileMatches d false name) (fileOrder t) s0).
  split; [now rewrite (findFileByName_run _ _ _ _ _ _ HF Hview), Hg|].
  split.
  { apply find_some in Hg as [_ Hm]. unfold fileMatches in Hm.
    apply andb_prop in Hm as [_ Hm]. simpl in Hm.
    destruct (String.eqb (getName d g) name) eqn:E; [|exact Hm].
    apply String.eqb_eq in E. rewrite E. apply includes_refl. }
  split; [apply (searchFile_scan _ _ _ _ _ _ _ Hview)|].
  split; [apply (searchFile_scan _ _ _ _ _ _ _ Hview)|].
  rewrite !visited_scan. now apply upto_wider.
Qed.

Lemma findFileByName_partial_widens_witness :
  exists g,
    findFileByName 3 0 "invoice-2020.pdf" true drive_project
    = Return (Some g) drive_project.
Proof.
  destruct (findFileByName_partial_widens drive_project 3 0 tree_project
              "invoice-2020.pdf" 4 eq_refl eq_refl eq_refl)
    as (g & _ & _ & Hrun & _).
  exists g. exact Hrun.
Defined.

(** * Properties of the generic helpers *)

(** ** [unique] *)

Section UniqueFacts.
Variable A : Type.
Variable same : A -> A -> bool.
Hypothesis same_eq : forall x y, same x y = true <-> x = y.

Lemma existsb_same x s : existsb (same x) s = true <-> In x s.
Proof.
  rewrite existsb_exists. split.
  - intros (y & Hy & E). apply same_eq in E. now subst.
  - intros H. exists x. split; [exact H|]. now apply same_eq.
Qed.

Lemma Set_add_In s x y : In y (Set_add same s x) <-> In y s \/ y = x.
Proof.
  unfold Set_add. destruct (existsb (same x) s) eqn:E.
  - apply existsb_same in E. split; [auto|]. intros [H| ->]; assumption.
  - rewrite in_app_iff. simpl. intuition.
Qed.

Lemma Set_add_NoDup s x : NoDup s -> NoDup (Set_add same s x).
Proof.
  intros Hs. unfold Set_add. destruct (existsb (same x) s) eqn:E; [exact Hs|].
  apply NoDup_app; [exact Hs|repeat constructor; intros []|].
  intros y Hy [<-|[]]. apply existsb_same in Hy. congruence.
Qed.

Lemma Set_fold_spec l : forall acc,
  NoDup acc ->
  NoDup (fold_left (Set_add same) l acc)
  /\ forall y, In y (fold_left (Set_add same) l acc) <-> In y acc \/ In y l.
Proof.
  induction l as [|x l IH]; intros acc Hacc; simpl.
  - split; [exact Hacc|]. intuition.
  - destruct (IH _ (Set_add_NoDup acc x Hacc)) as [Hnd Hin].
    split; [exact Hnd|]. intros y. rewrite Hin, Set_add_In. intuition.
Qed.

Lemma Set_fold_NoDup_id l : forall acc,
  NoDup (acc ++ l) -> fold_left (Set_add same) l acc = acc ++ l.
Proof.
  induction l as [|x l IH]; intros acc Hnd; simpl; [now rewrite app_nil_r|].
  assert (E : existsb (same x) acc = false).
  { destruct (existsb (same x) acc) eqn:E; [|reflexivity].
    apply existsb_same in E. apply NoDup_remove_2 in Hnd.
    exfalso. apply Hnd. apply in_or_app. now left. }
  unfold Set_add at 2. rewrite E.
  rewrite IH; rewrite <- app_assoc; [reflexivity|exact Hnd].
Qed.
End UniqueFacts.

Lemma Set_fold_split {A} (same : A -> A -> bool) l : forall acc new,
  fold_left (Set_add same) l (acc ++ new)
  = acc ++ fold_left (Set_add same)
             (filter (fun y => negb (existsb (same y) acc)) l) new.
Proof.
  induction l as [|x l IH]; intros acc new; simpl; [reflexivity|].
  destruct (existsb (same x) acc) eqn:E; simpl.
  - unfold Set_add at 2. rewrite existsb_app, E. simpl. apply IH.
  - unfold Set_add at 2 4. rewrite existsb_app, E. simpl.
    destruct (existsb (same x) new); [apply IH|].
    rewrite <- app_assoc. apply IH.
Qed.

Lemma unique_Some {A} (same : A -> A -> bool) a :
  unique same (Some a) = Some (Set_new same a).
Proof. destruct a; reflexivity. Qed.

(** X13.  Given an array, [unique] returns an array without repetition that
    has exactly the members of the argument, and is no longer than it. *)
Theorem unique_is_duplicate_free {A} (same : A -> A -> bool)
  (same_eq : forall x y, same x y = true <-> x = y) (a : list A) :
  exists u,
    unique same (Some a) = Some u
    /\ NoDup u
    /\ (forall x, In x u <-> In x a)
    /\ List.length u <= List.length a.
Proof.
  exists (Set_new same a). rewrite unique_Some.
  destruct (Set_fold_spec A same same_eq a [] (NoDup_nil A)) as [Hnd Hin].
  split; [reflexivity|]. split; [exact Hnd|].
  assert (Hmem : forall x, In x (Set_new same a) <-> In x a).
  { intros x. unfold Set_new. rewrite Hin. simpl. intuition. }
  split; [exact Hmem|].
  apply NoDup_incl_length; [exact Hnd|]. intros x. apply Hmem.
Qed.

Lemma unique_is_duplicate_free_witness :
  unique Nat.eqb (Some [3; 1; 3; 2; 1]) = Some [3; 1; 2]
  /\ exists u, unique Nat.eqb (Some [3; 1; 3; 2; 1]) = Some u /\ NoDup u.
Proof.
  split; [reflexivity|].
  destruct (unique_is_duplicate_free Nat.eqb Nat.eqb_eq [3; 1; 3; 2; 1])
    as (u & Hu & Hnd & _).
  exists u. split; assumption.
Defined.

(** X14.  [unique] keeps the first occurrence of each value, in the order of
    the array: the result for an array that starts with [x] is [x] followed by
    the result for the rest of the array with every value that compares the
    same as [x] taken out. *)
Theorem unique_keeps_first_occurrences {A} (same : A -> A -> bool) (x : A) (l : list A) :
  unique same (Some (x :: l))
  = option_map (cons x)
      (unique same (Some (filter (fun y => negb (same y x)) l))).
Proof.
  rewrite !unique_Some. simpl. f_equal. unfold Set_new. simpl.
  change (Set_add same [] x) with ([x] ++ @nil A).
  rewrite (Set_fold_split same l [x] []). simpl. do 2 f_equal.
  apply filter_ext. intros y. now rewrite orb_false_r.
Qed.

(** X15.  [unique] returns an array without repetition as it is, and so
    applying it to its own result changes nothing. *)
Theorem unique_fixes_duplicate_free {A} (same : A -> A -> bool)
  (same_eq : forall x y, same x y = true <-> x = y) (a : list A) :
  (NoDup a -> unique same (Some a) = Some a)
  /\ (forall u, unique same (Some a) = Some u -> unique same (Some u) = Some u).
Proof.
  assert (Hfix : forall l, NoDup l -> unique same (Some l) = Some l).
  { intros l Hl. rewrite unique_Some. f_equal.
    apply (Set_fold_NoDup_id A same same_eq l []). exact Hl. }
  split; [apply Hfix|].
  intros u Hu. rewrite unique_Some in Hu. inversion Hu; subst u.
  apply Hfix. apply (Set_fold_spec A same same_eq a [] (NoDup_nil A)).
Qed.

Lemma unique_fixes_duplicate_free_witness :
  unique String.eqb (Some ["b"; "a"; "c"]) = Some ["b"; "a"; "c"]
  /\ unique String.eqb (Some ["b"; "a"; "b"]) = Some ["b"; "a"]
  /\ unique String.eqb (Some ["b"; "a"]) = Some ["b"; "a"].
Proof.
  destruct (unique_fixes_duplicate_free String.eqb String.eqb_eq ["b"; "a"; "c"])
    as [H1 _].
  destruct (unique_fixes_duplicate_free String.eqb String.eqb_eq ["b"; "a"; "b"])
    as [_ H2].
  split; [|split].
  - apply H1. repeat (constructor; [simpl; intuition discriminate|]). constructor.
  - reflexivity.
  - apply H2. reflexivity.
Defined.

(** ** [buildQueryParams] *)

Lemma append_nil_r (s : string) : (s ++ "")%string = s.
Proof. induction s as [|a s IH]; simpl; [reflexivity|now rewrite IH]. Qed.

Lemma append_assoc (a b c : string) : ((a ++ b) ++ c)%string = (a ++ b ++ c)%string.
Proof. induction a as [|x a IH]; simpl; [reflexivity|now rewrite IH]. Qed.

Lemma concat_cons2 sep x y l :
  String.concat sep (x :: y :: l) = (x ++ sep ++ String.concat sep (y :: l))%string.
Proof. reflexivity. Qed.

(** The inner [reduce]: the pairs of one key, with ["&"] after each but the
    last. *)
Lemma reduce_values enc e total : forall rest j acc,
  total = j + List.length rest ->
  reduce_from
    (fun str f j =>
       (str ++ e ++ "=" ++ enc f
            ++ (if negb (Nat.eqb j (total - 1)) then "&" else ""))%string)
    j rest acc
  = (acc ++ String.concat "&" (map (pair_text enc e) rest))%string.
Proof.
  induction rest as [|x rest IH]; intros j acc Ht; cbn [reduce_from].
  - cbn. now rewrite append_nil_r.
  - rewrite IH by (simpl in Ht; lia).
    destruct rest as [|y rest].
    + simpl in Ht. replace (total - 1) with j by lia. rewrite Nat.eqb_refl.
      cbn [map String.concat negb]. unfold pair_text.
      now rewrite !append_assoc, !append_nil_r.
    + simpl in Ht.
      destruct (Nat.eqb_spec j (total - 1)) as [E|_]; [lia|]. cbn [negb].
      cbn [map]. rewrite (concat_cons2 "&" (pair_text enc e x)).
      unfold pair_text at 3.
      now rewrite !append_assoc.
Qed.

Lemma reduce_segment enc kv :
  match snd kv with
  | Many fs =>
      reduce
        (fun str f j =>
           (str ++ fst kv ++ "=" ++ enc f
                ++ (if negb (Nat.eqb j (List.length fs - 1)) then "&" else ""))%string)
        fs ""%string
  | One v => (fst kv ++ "=" ++ enc v)%string
  end = segment enc kv.
Proof.
  unfold segment. destruct (snd kv) as [v|fs]; [reflexivity|].
  unfold reduce. now rewrite (reduce_values enc (fst kv) (List.length fs) fs 0 "").
Qed.

(** The outer [reduce] past the first key: ["&"] before each key. *)
Lemma reduce_keys enc : forall l i acc,
  reduce_from
    (fun p kv i =>
       let e := fst kv in
       (p ++ (if Nat.eqb i 0 then "?" else "&")
          ++ match snd kv with
             | Many fs =>
                 reduce
                   (fun str f j =>
                      str ++ e ++ "=" ++ enc f
                          ++ (if negb (Nat.eqb j (List.length fs - 1)%nat) then "&" else ""))
                   fs ""
             | One v => e ++ "=" ++ enc v
             end)%string)
    (S i) l acc
  = (acc ++ String.concat "" (map (fun kv => "&" ++ segment enc kv) l))%string.
Proof.
  induction l as [|kv l IH]; intros i acc; cbn [reduce_from].
  - cbn. now rewrite append_nil_r.
  - rewrite IH. cbv zeta. rewrite (reduce_segment enc kv).
    cbn [Nat.eqb map]. 
    destruct l as [|kv' l].
    + cbn [map String.concat]. now rewrite !append_assoc, !append_nil_r.
    + cbn [map String.concat]. now rewrite !append_assoc.
Qed.

Lemma concat_prefixed (x : string) (l : list string) :
  (x ++ String.concat "" (map (fun y => "&" ++ y) l))%string
  = String.concat "&" (x :: l).
Proof.
  revert x; induction l as [|y l IH]; intros x.
  - simpl. apply append_nil_r.
  - rewrite concat_cons2, <- IH. simpl map.
    destruct l as [|z l]; simpl; [now rewrite !append_nil_r|reflexivity].
Qed.

Lemma buildQueryParams_segments (enc : string -> string)
  (params : list (string * param)) :
  buildQueryParams enc params
  = match params with
    | [] => EmptyString
    | _ :: _ => ("?" ++ String.concat "&" (map (segment enc) params))%string
    end.
Proof.
  destruct params as [|kv l]; [reflexivity|].
  unfold buildQueryParams. unfold reduce at 1. cbn [reduce_from].
  rewrite (reduce_keys enc l 0). cbv zeta. rewrite (reduce_segment enc kv).
  cbn [Nat.eqb]. rewrite append_assoc.
  change (map (segment enc) (kv :: l)) with (segment enc kv :: map (segment enc) l).
  rewrite <- concat_prefixed, map_map. reflexivity.
Qed.

Lemma concat_app_nonempty sep (l1 l2 : list string) :
  l1 <> [] -> l2 <> [] ->
  String.concat sep (l1 ++ l2)
  = (String.concat sep l1 ++ sep ++ String.concat sep l2)%string.
Proof.
  intros H1 H2. induction l1 as [|x l1 IH]; [congruence|].
  destruct l1 as [|y l1].
  - simpl. destruct l2; [congruence|reflexivity].
  - change ((x :: y :: l1) ++ l2) with (x :: y :: (l1 ++ l2)).
    rewrite !concat_cons2.
    change (y :: l1 ++ l2) with ((y :: l1) ++ l2). rewrite IH by discriminate.
    now rewrite !append_assoc.
Qed.

Lemma pairs_nonempty enc kv l :
  no_empty_array kv = true -> pairs enc (kv :: l) <> [].
Proof.
  unfold pairs, no_empty_array. simpl. destruct (snd kv) as [v|[|f fs]]; simpl;
    intros H; discriminate.
Qed.

Lemma segments_pairs enc : forall l,
  l <> [] -> forallb no_empty_array l = true ->
  String.concat "&" (map (segment enc) l) = String.concat "&" (pairs enc l).
Proof.
  induction l as [|kv l IH]; intros Hne Hl; [congruence|].
  simpl in Hl. apply andb_prop in Hl as [Hkv Hl].
  assert (Hseg : segment enc kv = String.concat "&" (pairs enc [kv])).
  { unfold segment, pairs. simpl. rewrite app_nil_r.
    destruct (snd kv); reflexivity. }
  destruct l as [|kv' l].
  - exact Hseg.
  - change (map (segment enc) (kv :: kv' :: l))
      with (segment enc kv :: segment enc kv' :: map (segment enc) l).
    rewrite concat_cons2.
    change (segment enc kv' :: map (segment enc) l) with (map (segment enc) (kv' :: l)).
    rewrite (IH ltac:(discriminate) Hl), Hseg.
    assert (Hcons : pairs enc (kv :: kv' :: l) = pairs enc [kv] ++ pairs enc (kv' :: l)).
    { unfold pairs. cbn [flat_map]. now rewrite app_nil_r. }
    rewrite Hcons.
    symmetry. apply concat_app_nonempty.
    + now apply pairs_nonempty.
    + simpl in Hl. apply andb_prop in Hl as [H _]. now apply pairs_nonempty.
Qed.

(** X16.  [buildQueryParams] returns the empty string for no keys, and
    otherwise ["?"] followed by what each key contributes, in the order of the
    keys, with one ["&"] between two keys.  A key with a single value
    contributes [key=value]; a key with an array contributes one [key=value]
    per element joined by ["&"], and so nothing at all when the array is empty:
    the separators around it remain. *)
Theorem buildQueryParams_joins_segments (enc : string -> string)
  (params : list (string * param)) :
  buildQueryParams enc params
  = match params with
    | [] => EmptyString
    | _ :: _ => ("?" ++ String.concat "&" (map (segment enc) params))%string
    end.
Proof. apply buildQueryParams_segments. Qed.

(** X17.  When there is a key and no array among the values is empty, the
    text that [buildQueryParams] returns after the ["?"] is the [key=value]
    pairs of all keys in order, with exactly one ["&"] between two consecutive
    pairs, none before the first and none after the last. *)
Theorem buildQueryParams_joins_pairs (enc : string -> string)
  (params : list (string * param))
  (Hkeys : params <> [])
  (Harrays : forallb no_empty_array params = true) :
  buildQueryParams enc params = ("?" ++ String.concat "&" (pairs enc params))%string
  /\ pairs enc params <> [].
Proof.
  rewrite buildQueryParams_segments.
  destruct params as [|kv0 l0]; [congruence|].
  split.
  - f_equal. now apply segments_pairs.
  - simpl in Harrays. apply andb_prop in Harrays as [H _]. now apply pairs_nonempty.
Qed.

Lemma buildQueryParams_joins_pairs_witness :
  buildQueryParams (fun s => s) [("id", One "7"); ("tag", Many ["a"; "b"])]
  = "?id=7&tag=a&tag=b".
Proof.
  destruct (buildQueryParams_joins_pairs (fun s => s)
              [("id", One "7"); ("tag", Many ["a"; "b"])]) as [H _].
  - discriminate.
  - reflexivity.
  - rewrite H. reflexivity.
Defined.

(** X18.  An empty array among the values leaves its separators behind: a key
    whose array is empty, between two other keys, puts two ["&"] in a row, and
    as the only key it makes the result a bare ["?"]. *)
Theorem buildQueryParams_empty_array (enc : string -> string)
  (e : string) (b a : string * param) (before after : list (string * param)) :
  buildQueryParams enc [(e, Many [])] = "?"
  /\ buildQueryParams enc ((b :: before) ++ (e, Many []) :: a :: after)
     = ("?" ++ String.concat "&" (map (segment enc) (b :: before)) ++ "&&"
            ++ String.concat "&" (map (segment enc) (a :: after)))%string.
Proof.
  split; [reflexivity|].
  rewrite buildQueryParams_segments.
  change ((b :: before) ++ (e, Many []) :: a :: after)
    with (b :: (before ++ (e, Many []) :: a :: after)) at 1.
  cbv iota. f_equal. rewrite map_app.
  rewrite concat_app_nonempty by discriminate.
  f_equal.
Qed.

(** ** [flattenObject] *)

(** *** Own properties *)

Lemma has_key_In {L} (k : string) (o : list (string * L)) :
  has_key k o = true <-> In k (map fst o).
Proof.
  unfold has_key. rewrite existsb_exists, in_map_iff. split.
  - intros (kv & Hin & E). apply String.eqb_eq in E. now exists kv.
  - intros (kv & E & Hin). exists kv. split; [exact Hin|]. now apply String.eqb_eq.
Qed.

Lemma has_key_false {L} (k : string) (o : list (string * L)) :
  has_key k o = false <-> ~ In k (map fst o).
Proof.
  rewrite <- has_key_In. destruct (has_key k o); split; congruence.
Qed.

Lemma field_update {L} (k k' : string) (v : L) : forall o,
  In k' (map fst o) ->
  field k (update k' v o) = if String.eqb k' k then Some v else field k o.
Proof.
  induction o as [|[k0 v0] o IH]; [intros []|].
  cbn [map fst In update]. intros Hin.
  destruct (String.eqb_spec k0 k') as [->|Hne]; cbn [field].
  - destruct (String.eqb k' k); reflexivity.
  - destruct Hin as [E|Hin]; [congruence|]. rewrite (IH Hin).
    destruct (String.eqb_spec k0 k) as [->|]; [|reflexivity].
    destruct (String.eqb_spec k' k) as [->|]; [congruence|reflexivity].
Qed.

Lemma field_insert {L} (k k' : string) (v : L) : forall o,
  ~ In k' (map fst o) ->
  field k (insert k' v o) = if String.eqb k' k then Some v else field k o.
Proof.
  induction o as [|[k0 v0] o IH]; [reflexivity|].
  cbn [map fst In insert]. intros Hnot.
  destruct (listed_before k' k0); [reflexivity|].
  cbn [field]. rewrite IH by tauto.
  destruct (String.eqb_spec k0 k) as [->|]; [|reflexivity].
  destruct (String.eqb_spec k' k) as [->|]; [tauto|reflexivity].
Qed.

Lemma field_assign {L} (k k' : string) (v : L) (o : list (string * L)) :
  field k (assign k' v o) = if String.eqb k' k then Some v else field k o.
Proof.
  unfold assign. destruct (has_key k' o) eqn:E.
  - apply field_update. now apply has_key_In.
  - apply field_insert. now apply has_key_false.
Qed.

Lemma keys_update {L} (k : string) (v : L) (o : list (string * L)) :
  map fst (update k v o) = map fst o.
Proof.
  induction o as [|[k0 v0] o IH]; [reflexivity|]. cbn [update].
  destruct (String.eqb k0 k); cbn [map fst]; [reflexivity|now rewrite IH].
Qed.

Lemma keys_insert {L} (k x : string) (v : L) (o : list (string * L)) :
  In x (map fst (insert k v o)) <-> x = k \/ In x (map fst o).
Proof.
  induction o as [|[k0 v0] o IH]; cbn [insert map fst In].
  - intuition.
  - destruct (listed_before k k0); cbn [map fst In]; [intuition|].
    rewrite IH. intuition.
Qed.

Lemma keys_assign {L} (k x : string) (v : L) (o : list (string * L)) :
  In x (map fst (assign k v o)) <-> x = k \/ In x (map fst o).
Proof.
  unfold assign. destruct (has_key k o) eqn:E.
  - rewrite keys_update. apply has_key_In in E. intuition (subst; auto).
  - apply keys_insert.
Qed.

Lemma NoDup_insert {L} (k : string) (v : L) : forall o : list (string * L),
  ~ In k (map fst o) -> NoDup (map fst o) -> NoDup (map fst (insert k v o)).
Proof.
  induction o as [|[k0 v0] o IH]; cbn [insert map fst In]; intros Hnot Hnd.
  - constructor; [tauto|constructor].
  - destruct (listed_before k k0); cbn [map fst].
    + constructor; [cbn [In]; tauto|exact Hnd].
    + inversion Hnd as [|? ? H0 Ho]; subst. constructor.
      * rewrite keys_insert. intros [E|Hin]; [subst; tauto|tauto].
      * apply IH; tauto.
Qed.

Lemma NoDup_assign {L} (k : string) (v : L) (o : list (string * L)) :
  NoDup (map fst o) -> NoDup (map fst (assign k v o)).
Proof.
  unfold assign. destruct (has_key k o) eqn:E.
  - now rewrite keys_update.
  - apply NoDup_insert. now apply has_key_false.
Qed.

Lemma field_app {L} (k : string) (l1 l2 : list (string * L)) :
  field k (l1 ++ l2) = or_else (field k l1) (field k l2).
Proof.
  induction l1 as [|[k0 v0] l1 IH]; [reflexivity|].
  cbn [app field]. destruct (String.eqb k0 k); [reflexivity|exact IH].
Qed.

Lemma field_None {L} (k : string) (l : list (string * L)) :
  field k l = None <-> ~ In k (map fst l).
Proof.
  induction l as [|[k0 v0] l IH]; cbn [map fst In field]; [tauto|].
  destruct (String.eqb_spec k0 k) as [->|]; [|rewrite IH; tauto].
  split; [discriminate|tauto].
Qed.

Lemma field_rev_NoDup {L} (k : string) (l : list (string * L)) :
  NoDup (map fst l) -> field k (rev l) = field k l.
Proof.
  induction l as [|[k0 v0] l IH]; [reflexivity|].
  cbn [map fst rev]. intros H. inversion H as [|? ? Hnot Hl]; subst.
  rewrite field_app, (IH Hl). cbn [field].
  destruct (String.eqb_spec k0 k) as [->|].
  - apply field_None in Hnot. now rewrite Hnot.
  - destruct (field k l); reflexivity.
Qed.

Lemma field_fold_assign {L} (g : string -> string) (k : string) :
  forall (l acc : list (string * L)),
  field k (fold_left (fun final xy => assign (g (fst xy)) (snd xy) final) l acc)
  = or_else (field k (rev (map (fun xy => (g (fst xy), snd xy)) l))) (field k acc).
Proof.
  induction l as [|[x v] l IH]; intros acc; [reflexivity|].
  cbn [fold_left map rev fst snd]. rewrite IH, field_assign, field_app. cbn [field].
  destruct (field k (rev (map (fun xy => (g (fst xy), snd xy)) l))); [reflexivity|].
  cbn [or_else]. destruct (String.eqb (g x) k); reflexivity.
Qed.

Lemma field_map_inj {L} (g : string -> string) (x : string) (l : list (string * L)) :
  (forall a b, g a = g b -> a = b) ->
  field (g x) (map (fun xy => (g (fst xy), snd xy)) l) = field x l.
Proof.
  intros Hg. induction l as [|[k0 v0] l IH]; [reflexivity|].
  cbn [map field fst snd].
  destruct (String.eqb_spec (g k0) (g x)) as [E|E], (String.eqb_spec k0 x) as [E'|E'];
    try reflexivity; try exact IH.
  - elim E'. now apply Hg.
  - elim E. now rewrite E'.
Qed.

Lemma field_map_cases {L} (g : string -> string) (k : string) (l : list (string * L)) :
  field k (map (fun xy => (g (fst xy), snd xy)) l) = None \/ exists x, k = g x.
Proof.
  induction l as [|[k0 v0] l IH]; [now left|].
  cbn [map field fst snd]. destruct (String.eqb_spec (g k0) k) as [<-|]; [|exact IH].
  right. now exists k0.
Qed.

Lemma field_map_agree {L} (g : string -> string) (k : string)
  (l1 l2 : list (string * L)) :
  (forall a b, g a = g b -> a = b) ->
  (forall x, field x l1 = field x l2) ->
  field k (map (fun xy => (g (fst xy), snd xy)) l1)
  = field k (map (fun xy => (g (fst xy), snd xy)) l2).
Proof.
  intros Hg H.
  destruct (field_map_cases g k l1) as [H1|[x ->]].
  - destruct (field_map_cases g k l2) as [H2|[x ->]]; [congruence|].
    rewrite !field_map_inj by exact Hg. apply H.
  - rewrite !field_map_inj by exact Hg. apply H.
Qed.

Lemma append_inj_l (p a b : string) : (p ++ a)%string = (p ++ b)%string -> a = b.
Proof.
  induction p as [|c p IH]; cbn [append]; intros H; [exact H|].
  injection H as H. now apply IH.
Qed.

Lemma joined_inj (i a b : string) :
  (i ++ "_" ++ a)%string = (i ++ "_" ++ b)%string -> a = b.
Proof. intros E. apply append_inj_l in E. now injection E. Qed.

Lemma NoDup_fold_assign {L} (g : string -> string) :
  forall (l acc : list (string * L)),
  NoDup (map fst acc) ->
  NoDup (map fst (fold_left (fun final xy => assign (g (fst xy)) (snd xy) final) l acc)).
Proof.
  induction l as [|xy l IH]; intros acc H; [exact H|].
  cbn [fold_left]. apply IH. now apply NoDup_assign.
Qed.

Lemma or_else_assoc {A} (a b c : option A) :
  or_else (or_else a b) c = or_else a (or_else b c).
Proof. destruct a; reflexivity. Qed.

(** *** The order of the listing *)

Lemma listed_before_asym (k k' : string) :
  listed_before k k' = true -> listed_before k' k = false.
Proof.
  unfold listed_before. destruct (array_index k), (array_index k'); try congruence.
  intros H. apply N.ltb_lt in H. apply N.ltb_ge. lia.
Qed.

Lemma listed_before_later (k k0 k' : string) :
  listed_before k k0 = true -> listed_before k' k0 = false ->
  listed_before k' k = false.
Proof.
  unfold listed_before.
  destruct (array_index k), (array_index k0), (array_index k'); try congruence.
  intros H1 H2. apply N.ltb_lt in H1. apply N.ltb_ge in H2. apply N.ltb_ge. lia.
Qed.

Lemma listing_cons (k : string) (ks : list string) :
  listing (k :: ks) = true
  <-> (forall k', In k' ks -> k' <> k /\ listed_before k' k = false)
      /\ listing ks = true.
Proof.
  cbn [listing]. rewrite andb_true_iff, forallb_forall. split.
  - intros [H Hl]. split; [|exact Hl]. intros k' Hin. specialize (H k' Hin).
    apply andb_true_iff in H as [H1 H2]. apply negb_true_iff in H1, H2.
    split; [now apply String.eqb_neq|exact H2].
  - intros [H Hl]. split; [|exact Hl]. intros k' Hin. destruct (H k' Hin) as [H1 H2].
    apply andb_true_iff. split; apply negb_true_iff; [now apply String.eqb_neq|exact H2].
Qed.

Lemma listing_NoDup (ks : list string) : listing ks = true -> NoDup ks.
Proof.
  induction ks as [|k ks IH]; [constructor|].
  rewrite listing_cons. intros [H Hl]. constructor; [|now apply IH].
  intros Hin. now destruct (H k Hin).
Qed.

Lemma listing_insert {L} (k : string) (v : L) : forall o : list (string * L),
  ~ In k (map fst o) -> listing (map fst o) = true ->
  listing (map fst (insert k v o)) = true.
Proof.
  induction o as [|[k0 v0] o IH]; cbn [insert map fst In]; intros Hnot Hl.
  - reflexivity.
  - destruct (listed_before k k0) eqn:E; cbn [map fst].
    + apply listing_cons. split; [|exact Hl].
      apply listing_cons in Hl as [H0 _].
      intros k' [<-|Hin].
      * split; [tauto|now apply listed_before_asym].
      * split; [intros ->; tauto|].
        apply (listed_before_later k k0 k' E). now apply H0.
    + apply listing_cons in Hl as [H0 Hl]. apply listing_cons. split.
      * intros k' Hin. apply keys_insert in Hin as [->|Hin].
        -- split; [intros ->; tauto|exact E].
        -- now apply H0.
      * apply IH; tauto.
Qed.

Lemma listing_assign {L} (k : string) (v : L) (o : list (string * L)) :
  listing (map fst o) = true -> listing (map fst (assign k v o)) = true.
Proof.
  unfold assign. destruct (has_key k o) eqn:E.
  - now rewrite keys_update.
  - apply listing_insert. now apply has_key_false.
Qed.

Lemma listing_fold_assign {L} (g : string -> string) :
  forall (l acc : list (string * L)),
  listing (map fst acc) = true ->
  listing (map fst (fold_left (fun final xy => assign (g (fst xy)) (snd xy) final) l acc))
  = true.
Proof.
  induction l as [|xy l IH]; intros acc H; [exact H|].
  cbn [fold_left]. apply IH. now apply listing_assign.
Qed.

Lemma insert_last {L} (k : string) (v : L) : forall o : list (string * L),
  (forall k', In k' (map fst o) -> listed_before k k' = false) ->
  insert k v o = o ++ [(k, v)].
Proof.
  induction o as [|[k0 v0] o IH]; cbn [insert map fst In app]; intros H; [reflexivity|].
  rewrite (H k0) by now left. rewrite IH; [reflexivity|]. intros k' Hin. apply H. now right.
Qed.

Lemma listing_app_later (l1 : list string) (k : string) (l2 : list string) :
  listing (l1 ++ k :: l2) = true ->
  forall k', In k' l1 -> k' <> k /\ listed_before k k' = false.
Proof.
  induction l1 as [|k0 l1 IH]; [intros _ k' []|].
  cbn [app]. rewrite listing_cons. intros [H Hl] k' [<-|Hin].
  - destruct (H k) as [Hne Hb]; [apply in_or_app; right; now left|].
    split; [congruence|exact Hb].
  - now apply IH.
Qed.

(** *** The loops *)

Lemma flattenObject_Object {L} (isNull : L -> bool) (b : bool)
  (fields : list (string * value L)) :
  flattenObject isNull (Object b fields)
  = flatten_fields isNull (inherits_hasOwnProperty b (map fst fields)) fields
      (mkObject false []).
Proof.
  cbn [flattenObject]. generalize (inherits_hasOwnProperty b (map fst fields)).
  intros c. generalize (@mkObject L false []).
  induction fields as [|[i v] fs IH]; intros acc; [reflexivity|].
  cbn [flatten_fields]. unfold flatten_field. cbn [fst snd].
  destruct c; [|reflexivity].
  destruct v as [a|b' fs'].
  - apply IH.
  - destruct (flattenObject isNull (Object b' fs')) as [e|flatObject]; [reflexivity|].
    destruct (copy_properties isNull i _ (props flatObject) acc); [reflexivity|apply IH].
Qed.

Lemma set_property_assign {L} (isNull : L -> bool) (k : string) (v : L) (o : object L) :
  k <> "__proto__" ->
  set_property isNull k v o = mkObject (bare o) (assign k v (props o)).
Proof.
  intros Hk. unfold set_property. apply String.eqb_neq in Hk. now rewrite Hk.
Qed.

Lemma copy_properties_assign {L} (isNull : L -> bool) (i : string) :
  forall (xs : list (string * L)) (acc : object L),
  (forall x, In x (map fst xs) -> (i ++ "_" ++ x)%string <> "__proto__") ->
  copy_properties isNull i true xs acc
  = inr (mkObject (bare acc)
           (fold_left (fun final xy => assign (i ++ "_" ++ fst xy)%string (snd xy) final)
                      xs (props acc))).
Proof.
  induction xs as [|[x v] xs IH]; intros acc H; [now destruct acc|].
  cbn [copy_properties fold_left fst snd].
  rewrite set_property_assign by (apply H; now left).
  rewrite IH; [reflexivity|]. intros y Hy. apply H. now right.
Qed.

(** *** Keys *)

Lemma joined_has_underscore (i x : string) :
  existsb (Ascii.eqb "_") (list_ascii_of_string (i ++ "_" ++ x)) = true.
Proof.
  induction i as [|c i IH]; cbn in *; [reflexivity|].
  rewrite IH. apply orb_true_r.
Qed.

Lemma joined_not_hasOwnProperty (i x : string) :
  (i ++ "_" ++ x)%string <> "hasOwnProperty".
Proof.
  intros E. pose proof (joined_has_underscore i x) as H. rewrite E in H. discriminate H.
Qed.

Lemma keys_rev {L} (k : string) (l : list (string * L)) :
  In k (map fst (rev l)) <-> In k (map fst l).
Proof. rewrite map_rev, <- in_rev. tauto. Qed.

Lemma plain_Object {L} (b : bool) (fields : list (string * value L)) :
  plain (Object b fields) = true
  <-> b = false
      /\ (forall i v, In (i, v) fields -> i <> "hasOwnProperty" /\ plain v = true)
      /\ ~ In "__proto__" (map fst (leaves (Object b fields))).
Proof.
  cbn [plain]. rewrite !andb_true_iff, forallb_forall, negb_true_iff, negb_true_iff.
  rewrite has_key_false. split.
  - intros [[Hb H] Hp]. split; [exact Hb|]. split; [|exact Hp].
    intros i v Hin. specialize (H (i, v) Hin). cbn in H.
    apply andb_true_iff in H as [H1 H2]. apply negb_true_iff, String.eqb_neq in H1.
    now split.
  - intros (Hb & H & Hp). split; [split; [exact Hb|]|exact Hp].
    intros [i v] Hin. destruct (H i v Hin) as [H1 H2].
    apply andb_true_iff. split; [|exact H2]. now apply negb_true_iff, String.eqb_neq.
Qed.

Lemma plain_leaves {L} (v : value L) :
  plain v = true -> ~ In "hasOwnProperty" (map fst (leaves v)).
Proof.
  induction v as [x|b fields IH] using value_induction; [intros _ []|].
  rewrite plain_Object. intros (_ & H & _). cbn [leaves].
  rewrite in_map_iff. intros ([k a] & E & Hin). cbn [fst] in E. subst k.
  apply in_flat_map in Hin as ([i v] & Hiv & Hin). cbn [fst snd] in Hin.
  destruct (H i v Hiv) as [Hi Hv]. destruct v as [y|b' fs'].
  - destruct Hin as [Hin|[]]. congruence.
  - apply in_map_iff in Hin as ([x a'] & E & _). cbn [fst snd] in E.
    injection E as E _. now apply joined_not_hasOwnProperty in E.
Qed.

Lemma existsb_eqb_In (k : string) (ks : list string) :
  existsb (String.eqb k) ks = true <-> In k ks.
Proof.
  rewrite existsb_exists. split.
  - intros (x & Hin & E). apply String.eqb_eq in E. now subst.
  - intros Hin. exists k. split; [exact Hin|apply String.eqb_refl].
Qed.

Lemma inherits_hasOwnProperty_true (ks : list string) :
  ~ In "hasOwnProperty" ks -> inherits_hasOwnProperty false ks = true.
Proof.
  intros H. unfold inherits_hasOwnProperty. cbn [negb andb]. apply negb_true_iff.
  rewrite <- existsb_eqb_In in H. now destruct (existsb _ ks).
Qed.

Lemma keys_agree {L} (l1 l2 : list (string * L)) (x : string) :
  (forall k, field k l1 = field k l2) -> In x (map fst l1) -> In x (map fst l2).
Proof.
  intros H Hin. destruct (field x l2) eqn:E.
  - destruct (in_dec string_dec x (map fst l2)) as [Hy|Hn]; [exact Hy|].
    apply field_None in Hn. congruence.
  - rewrite <- H in E. apply field_None in E. contradiction.
Qed.

(** The outer loop on fields that are plain and bring no [__proto__]. *)
Lemma flatten_fields_plain {L} (isNull : L -> bool) :
  forall (fs : list (string * value L)) (acc : object L),
  Forall (fun iv =>
            plain (snd iv) = true ->
            exists o, flattenObject isNull (snd iv) = inr o
                      /\ bare o = false
                      /\ listing (map fst (props o)) = true
                      /\ forall k, field k (props o) = last_field k (leaves (snd iv))) fs ->
  (forall i v, In (i, v) fs -> plain v = true) ->
  ~ In "__proto__" (map fst (leaves (Object false fs))) ->
  bare acc = false -> listing (map fst (props acc)) = true ->
  exists o, flatten_fields isNull true fs acc = inr o
            /\ bare o = false
            /\ listing (map fst (props o)) = true
            /\ forall k, field k (props o)
                         = or_else (last_field k (leaves (Object false fs)))
                                   (field k (props acc)).
Proof.
  induction fs as [|[i v] fs IHfs]; intros acc IH Hplain Hproto Hbare Hlist.
  - exists acc. repeat split; assumption.
  - inversion IH as [|? ? Hv Hfs]; subst. cbn [snd] in Hv.
    assert (Hplain' : forall i' v', In (i', v') fs -> plain v' = true).
    { intros i' v' Hin. apply (Hplain i' v'). now right. }
    cbn [leaves flat_map fst snd] in Hproto. rewrite map_app, in_app_iff in Hproto.
    assert (Hproto' : ~ In "__proto__" (map fst (leaves (Object false fs)))).
    { cbn [leaves]. tauto. }
    cbn [flatten_fields]. unfold flatten_field. cbn [fst snd].
    destruct v as [a|b' fs''].
    + rewrite set_property_assign by (intros ->; apply Hproto; left; now left).
      destruct (IHfs (mkObject (bare acc) (assign i a (props acc))) Hfs Hplain' Hproto'
                  Hbare (listing_assign i a _ Hlist))
        as (o & Hrun & Hb & Hl & Hf).
      exists o. split; [exact Hrun|]. split; [exact Hb|]. split; [exact Hl|].
      intros k. rewrite Hf. unfold last_field. cbn [leaves flat_map fst snd props].
      rewrite rev_app_distr, field_app, or_else_assoc. f_equal.
      rewrite field_assign. cbn [rev app field]. destruct (String.eqb i k); reflexivity.
    + destruct (Hv (Hplain i (Object b' fs'') (or_introl eq_refl)))
        as (o' & Hrun' & Hb' & Hl' & Hf').
      rewrite Hrun', Hb'.
      assert (Hkeys : forall x, In x (map fst (props o')) ->
                                In x (map fst (leaves (Object b' fs'')))).
      { intros x Hx. apply keys_rev.
        apply (keys_agree (props o') (rev (leaves (Object b' fs''))) x Hf' Hx). }
      rewrite inherits_hasOwnProperty_true.
      2:{ intros Hin. apply Hkeys in Hin. revert Hin. apply plain_leaves.
          apply (Hplain i). now left. }
      rewrite copy_properties_assign.
      2:{ intros x Hx E. apply Hproto. left. rewrite <- E.
          apply Hkeys, in_map_iff in Hx as ([x' a'] & Ex & Hin). cbn [fst] in Ex. subst x'.
          apply in_map_iff. exists ((i ++ "_" ++ x)%string, a'). split; [reflexivity|].
          apply in_map_iff. now exists (x, a'). }
      destruct (IHfs (mkObject (bare acc)
                        (fold_left
                           (fun final xy => assign (i ++ "_" ++ fst xy)%string (snd xy) final)
                           (props o') (props acc)))
                  Hfs Hplain' Hproto' Hbare
                  (listing_fold_assign (fun x => i ++ "_" ++ x)%string _ _ Hlist))
        as (o & Hrun & Hb & Hl & Hf).
      exists o. split; [exact Hrun|]. split; [exact Hb|]. split; [exact Hl|].
      intros k. rewrite Hf. unfold last_field. cbn [leaves flat_map fst snd props].
      rewrite rev_app_distr, field_app, or_else_assoc. f_equal.
      rewrite (field_fold_assign (fun x => i ++ "_" ++ x)%string). f_equal.
      rewrite <- !map_rev.
      apply (field_map_agree (fun x => i ++ "_" ++ x)%string); [apply joined_inj|].
      intros x. rewrite field_rev_NoDup by now apply listing_NoDup.
      apply Hf'.
Qed.

Lemma flattenObject_plain {L} (isNull : L -> bool) (v : value L) :
  plain v = true ->
  exists o, flattenObject isNull v = inr o
            /\ bare o = false
            /\ listing (map fst (props o)) = true
            /\ forall k, field k (props o) = last_field k (leaves v).
Proof.
  induction v as [x|b fields IH] using value_induction; intros Hp.
  - exists (mkObject false []). repeat split.
  - apply plain_Object in Hp as (-> & Hfields & Hproto).
    rewrite flattenObject_Object.
    rewrite inherits_hasOwnProperty_true.
    2:{ rewrite in_map_iff. intros ([i v] & E & Hin). cbn [fst] in E. subst i.
        now destruct (Hfields _ _ Hin). }
    destruct (flatten_fields_plain isNull fields (mkObject false []) IH)
      as (o & Hrun & Hb & Hl & Hf); try reflexivity.
    + intros i v Hin. now destruct (Hfields i v Hin).
    + exact Hproto.
    + exists o. split; [exact Hrun|]. split; [exact Hb|]. split; [exact Hl|].
      intros k. rewrite Hf. cbn [props field].
      destruct (last_field k (leaves (Object false fields))); reflexivity.
Qed.

(** *** One-level objects *)

Lemma flatten_fields_one_level {L} (isNull : L -> bool) :
  forall (rest done : list (string * L)),
  listing (map fst (done ++ rest)) = true ->
  flatten_fields isNull true (map (fun kv => (fst kv, Leaf (snd kv))) rest)
    (mkObject
       (match field "__proto__" done with Some v => isNull v | None => false end)
       (filter (fun kv => negb (String.eqb (fst kv) "__proto__")) done))
  = inr (mkObject
           (match field "__proto__" (done ++ rest) with
            | Some v => isNull v
            | None => false
            end)
           (filter (fun kv => negb (String.eqb (fst kv) "__proto__")) (done ++ rest))).
Proof.
  induction rest as [|[k v] rest IH]; intros done Hl; [now rewrite app_nil_r|].
  cbn [map flatten_fields fst snd]. unfold flatten_field. cbn [fst snd].
  assert (Hdone : forall k', In k' (map fst done) -> k' <> k /\ listed_before k k' = false).
  { rewrite map_app in Hl. cbn [map fst] in Hl. exact (listing_app_later _ _ _ Hl). }
  assert (Hfresh : ~ In k (map fst done)).
  { intros Hin. now destruct (Hdone k Hin). }
  replace (done ++ (k, v) :: rest) with ((done ++ [(k, v)]) ++ rest) in *
    by now rewrite <- app_assoc.
  rewrite <- (IH (done ++ [(k, v)]) Hl). f_equal.
  rewrite field_app, filter_app. cbn [field filter fst].
  unfold set_property. cbn [bare props].
  destruct (String.eqb_spec k "__proto__") as [->|Hne].
  - apply field_None in Hfresh. rewrite Hfresh. cbn [or_else negb andb app].
    assert (Hno : has_key "__proto__"
                    (filter (fun kv => negb (String.eqb (fst kv) "__proto__")) done)
                  = false).
    { apply has_key_false. rewrite in_map_iff. intros ([k' v'] & E & Hin).
      cbn [fst] in E. subst k'. apply filter_In in Hin as [_ Hin]. cbn [fst] in Hin.
      now rewrite String.eqb_refl in Hin. }
    rewrite Hno, app_nil_r. cbn [negb andb]. destruct (isNull v); reflexivity.
  - cbn [andb negb].
    assert (Hb : match or_else (field "__proto__" done) None with
                 | Some v0 => isNull v0
                 | None => false
                 end
                 = match field "__proto__" done with
                   | Some v0 => isNull v0
                   | None => false
                   end).
    { destruct (field "__proto__" done); reflexivity. }
    rewrite Hb. f_equal.
    unfold assign.
    assert (Hf : ~ In k (map fst (filter (fun kv => negb (String.eqb (fst kv) "__proto__"))
                                         done))).
    { rewrite in_map_iff. intros (kv & E & Hin). apply filter_In in Hin as [Hin _].
      apply Hfresh. apply in_map_iff. now exists kv. }
    apply has_key_false in Hf. rewrite Hf. apply insert_last.
    intros k' Hin. apply in_map_iff in Hin as (kv & E & Hin).
    apply filter_In in Hin as [Hin _]. apply Hdone. apply in_map_iff. now exists kv.
Qed.

(** *** Where the call of [hasOwnProperty] fails *)

Lemma copy_properties_TypeError {L} (isNull : L -> bool) (i : string) (c : bool) :
  forall (xs : list (string * L)) (acc : object L) e,
  copy_properties isNull i c xs acc = inl e -> e = TypeError.
Proof.
  induction xs as [|[x v] xs IH]; intros acc e; cbn [copy_properties]; [discriminate|].
  destruct c; [apply IH|congruence].
Qed.

Lemma flatten_fields_TypeError {L} (isNull : L -> bool) (c : bool) :
  forall (fs : list (string * value L)) (acc : object L) e,
  Forall (fun iv => forall e, flattenObject isNull (snd iv) = inl e -> e = TypeError) fs ->
  flatten_fields isNull c fs acc = inl e -> e = TypeError.
Proof.
  induction fs as [|[i v] fs IHfs]; intros acc e IH; cbn [flatten_fields]; [discriminate|].
  inversion IH as [|? ? Hv Hfs]; subst. cbn [snd] in Hv.
  unfold flatten_field. cbn [fst snd]. destruct c; [|congruence].
  destruct v as [a|b' fs'].
  - now apply IHfs.
  - destruct (flattenObject isNull (Object b' fs')) as [e'|o'] eqn:E.
    + intros H. injection H as <-. now apply Hv.
    + destruct (copy_properties isNull i _ (props o') acc) as [e'|acc'] eqn:E'.
      * intros H. injection H as <-. now apply copy_properties_TypeError in E'.
      * now apply IHfs.
Qed.

Lemma flattenObject_only_TypeError {L} (isNull : L -> bool) (v : value L) :
  forall e, flattenObject isNull v = inl e -> e = TypeError.
Proof.
  induction v as [x|b fields IH] using value_induction; intros e; [discriminate|].
  rewrite flattenObject_Object. now apply flatten_fields_TypeError.
Qed.

Lemma flatten_fields_trips {L} (isNull : L -> bool) :
  forall (fs : list (string * value L)) (acc : object L),
  Forall (fun iv => trips (snd iv) = true ->
                    flattenObject isNull (snd iv) = inl TypeError) fs ->
  existsb (fun iv : string * value L => let (i, v) := iv in trips v) fs = true ->
  flatten_fields isNull true fs acc = inl TypeError.
Proof.
  induction fs as [|[i v] fs IHfs]; intros acc IH; cbn [existsb]; [discriminate|].
  inversion IH as [|? ? Hv Hfs]; subst. cbn [snd] in Hv.
  cbn [flatten_fields]. unfold flatten_field. cbn [fst snd]. intros Ht.
  destruct v as [a|b' fs'].
  - cbn [trips orb] in Ht. now apply IHfs.
  - destruct (trips (Object b' fs')) eqn:Etr.
    + now rewrite (Hv eq_refl).
    + cbn [orb] in Ht.
      destruct (flattenObject isNull (Object b' fs')) as [e'|o'] eqn:E.
      * now rewrite (flattenObject_only_TypeError isNull _ e' E).
      * destruct (copy_properties isNull i _ (props o') acc) as [e'|acc'] eqn:E'.
        -- now rewrite (copy_properties_TypeError isNull i _ _ _ e' E').
        -- now apply IHfs.
Qed.

Lemma plain_keys {L} (isNull : L -> bool) (b : bool) (fields : list (string * value L))
  (o : object L) :
  plain (Object b fields) = true ->
  (forall k, field k (props o) = last_field k (leaves (Object b fields))) ->
  ~ In "hasOwnProperty" (map fst (props o)) /\ ~ In "__proto__" (map fst (props o)).
Proof.
  intros Hp Hf.
  assert (Hkeys : forall x, In x (map fst (props o)) ->
                            In x (map fst (leaves (Object b fields)))).
  { intros x Hx. apply keys_rev.
    apply (keys_agree (props o) (rev (leaves (Object b fields))) x Hf Hx). }
  split; intros Hin; apply Hkeys in Hin; revert Hin.
  - now apply plain_leaves.
  - now apply plain_Object in Hp.
Qed.

(** X19.  Let every object in the argument, at any depth, have a prototype and
    no own property [hasOwnProperty], and let no leaf come under the joined
    key [__proto__].  Then [flattenObject] returns an object in which a key
    has the value of the last leaf that the loops reach under that key, the
    keys on the way to a leaf being joined by ["_"]; it has no value when no
    leaf comes under it.  So an object without leaves (an empty object or
    array) leaves no key, and of two leaves whose joined keys are the same (as
    [a_b] beside [a: {b}]) only the later one is kept.  The object returned
    has its prototype and lists no key twice, array indices first and
    ascending, wherever the loops met them. *)
Theorem flattenObject_last_leaf_wins {L} (isNull : L -> bool) (b : bool)
  (fields : list (string * value L))
  (Hplain : plain (Object b fields) = true) :
  exists o,
    flattenObject isNull (Object b fields) = inr o
    /\ bare o = false
    /\ listing (map fst (props o)) = true
    /\ forall k, field k (props o) = last_field k (leaves (Object b fields)).
Proof.
  apply plain_Object in Hplain as (-> & Hfields & Hproto).
  rewrite flattenObject_Object.
  rewrite inherits_hasOwnProperty_true.
  2:{ rewrite in_map_iff. intros ([i v] & E & Hin). cbn [fst] in E. subst i.
      now destruct (Hfields _ _ Hin). }
  destruct (flatten_fields_plain isNull fields (mkObject false []))
    as (o & Hrun & Hb & Hl & Hf); try reflexivity.
  - apply Forall_forall. intros [i v] _. apply flattenObject_plain.
  - intros i v Hin. now destruct (Hfields i v Hin).
  - exact Hproto.
  - exists o. split; [exact Hrun|]. split; [exact Hb|]. split; [exact Hl|].
    intros k. rewrite Hf. cbn [props field].
    destruct (last_field k (leaves (Object false fields))); reflexivity.
Qed.

Lemma flattenObject_last_leaf_wins_witness :
  exists o,
    flattenObject (fun _ : nat => false)
      (Object false [("0", Object false [("x", Leaf 1)]);
                     ("1", Leaf 7);
                     ("a", Object false [("1", Leaf 2); ("y", Object false [])]);
                     ("a_1", Leaf 9)]) = inr o
    /\ map fst (props o) = ["1"; "0_x"; "a_1"]
    /\ field "a_1" (props o) = Some 9
    /\ field "a_y" (props o) = None.
Proof.
  destruct (flattenObject_last_leaf_wins (fun _ : nat => false) false
              [("0", Object false [("x", Leaf 1)]);
               ("1", Leaf 7);
               ("a", Object false [("1", Leaf 2); ("y", Object false [])]);
               ("a_1", Leaf 9)] eq_refl)
    as (o & Hrun & _ & _ & Hf).
  exists o. split; [exact Hrun|]. rewrite !Hf.
  vm_compute in Hrun. injection Hrun as <-. repeat split.
Defined.

(** X20.  Of an object that is one level deep, has a prototype and no own
    property [hasOwnProperty], [flattenObject] returns the own properties as
    they are, in the same order, but for an own property [__proto__], which is
    never copied: a [null] there takes the prototype of the result away, any
    other value is dropped.  Without such a property the result is the
    object's equal. *)
Theorem flattenObject_one_level {L} (isNull : L -> bool) (o : list (string * L))
  (Hlisting : listing (map fst o) = true)
  (Hown : ~ In "hasOwnProperty" (map fst o)) :
  flattenObject isNull (as_object o)
  = inr (mkObject
           (match field "__proto__" o with Some v => isNull v | None => false end)
           (filter (fun kv => negb (String.eqb (fst kv) "__proto__")) o))
  /\ (~ In "__proto__" (map fst o) ->
      flattenObject isNull (as_object o) = inr (mkObject false o)).
Proof.
  assert (E : flattenObject isNull (as_object o)
              = inr (mkObject
                       (match field "__proto__" o with
                        | Some v => isNull v
                        | None => false
                        end)
                       (filter (fun kv => negb (String.eqb (fst kv) "__proto__")) o))).
  { unfold as_object. rewrite flattenObject_Object.
    rewrite map_map. cbn [fst]. rewrite inherits_hasOwnProperty_true by exact Hown.
    apply (flatten_fields_one_level isNull o []). exact Hlisting. }
  split; [exact E|]. intros Hno. rewrite E.
  assert (Hnone : field "__proto__" o = None) by now apply field_None.
  rewrite Hnone. f_equal. f_equal. apply forallb_filter_id. apply forallb_forall.
  intros [k v] Hin. cbn [fst]. apply negb_true_iff, String.eqb_neq. intros ->.
  apply Hno. apply in_map_iff. now exists ("__proto__", v).
Qed.

Lemma flattenObject_one_level_witness :
  flattenObject (fun v : option nat => match v with None => true | _ => false end)
    (as_object [("0", Some 1); ("10", Some 2); ("b", Some 3); ("__proto__", Some 5);
                ("a", Some 4)])
  = inr (mkObject false [("0", Some 1); ("10", Some 2); ("b", Some 3); ("a", Some 4)])
  /\ flattenObject (fun v : option nat => match v with None => true | _ => false end)
       (as_object [("__proto__", None); ("a", Some 4)])
     = inr (mkObject true [("a", Some 4)]).
Proof.
  split.
  - destruct (flattenObject_one_level
                (fun v : option nat => match v with None => true | _ => false end)
                [("0", Some 1); ("10", Some 2); ("b", Some 3); ("__proto__", Some 5);
                 ("a", Some 4)]) as [H _].
    + reflexivity.
    + simpl. intuition discriminate.
    + exact H.
  - destruct (flattenObject_one_level
                (fun v : option nat => match v with None => true | _ => false end)
                [("__proto__", None); ("a", Some 4)]) as [H _].
    + reflexivity.
    + simpl. intuition discriminate.
    + exact H.
Defined.

(** X21.  Let every object in the argument, at any depth, have a prototype and
    no own property [hasOwnProperty], and let no leaf come under the joined
    key [__proto__].  Then flattening twice is flattening once: the object
    that [flattenObject] returns has a prototype, and [flattenObject] applied
    to it returns its equal, key for key in the same order. *)
Theorem flattenObject_idempotent {L} (isNull : L -> bool) (b : bool)
  (fields : list (string * value L))
  (Hplain : plain (Object b fields) = true) :
  exists o,
    flattenObject isNull (Object b fields) = inr o
    /\ bare o = false
    /\ flattenObject isNull (as_object (props o)) = inr o.
Proof.
  destruct (flattenObject_plain isNull (Object b fields) Hplain)
    as (o & Hrun & Hb & Hl & Hf).
  destruct (plain_keys isNull b fields o Hplain Hf) as [Hown Hproto].
  exists o. split; [exact Hrun|]. split; [exact Hb|].
  unfold as_object. rewrite flattenObject_Object.
  rewrite map_map. cbn [fst]. rewrite inherits_hasOwnProperty_true by exact Hown.
  pose proof (flatten_fields_one_level isNull (props o) [] Hl) as E.
  cbn [app field filter] in E. rewrite E. clear E.
  assert (Hnone : field "__proto__" (props o) = None) by now apply field_None.
  rewrite Hnone. destruct o as [bo po]. cbn [bare props] in *. subst bo.
  f_equal. f_equal. apply forallb_filter_id. apply forallb_forall.
  intros [k v] Hin. cbn [fst]. apply negb_true_iff, String.eqb_neq. intros ->.
  apply Hproto. apply in_map_iff. now exists ("__proto__", v).
Qed.

Lemma flattenObject_idempotent_witness :
  exists o,
    flattenObject (fun _ : nat => false)
      (Object false [("1", Leaf 1);
                     ("b", Object false [("c", Leaf 2); ("0", Leaf 3)]);
                     ("0", Leaf 4)]) = inr o
    /\ flattenObject (fun _ : nat => false) (as_object (props o)) = inr o.
Proof.
  destruct (flattenObject_idempotent (fun _ : nat => false) false
              [("1", Leaf 1);
               ("b", Object false [("c", Leaf 2); ("0", Leaf 3)]);
               ("0", Leaf 4)] eq_refl)
    as (o & Hrun & _ & Hagain).
  exists o. split; [exact Hrun|exact Hagain].
Defined.

(** X25.  [flattenObject] throws a [TypeError] whenever its argument, or an
    object nested in it at any depth, has a property while its
    [hasOwnProperty] cannot be called: because an own property of that name
    hides the inherited function, or because the object has no prototype. *)
Theorem flattenObject_TypeError {L} (isNull : L -> bool) (b : bool)
  (fields : list (string * value L))
  (Htrips : trips (Object b fields) = true) :
  flattenObject isNull (Object b fields) = inl TypeError.
Proof.
  revert Htrips. generalize (Object b fields). clear b fields.
  induction v as [x|b fields IH] using value_induction; [discriminate|].
  cbn [trips]. destruct fields as [|iv fs] eqn:E; [discriminate|]. rewrite <- E in *.
  rewrite flattenObject_Object.
  destruct (inherits_hasOwnProperty b (map fst fields)); cbn [negb orb].
  - now apply flatten_fields_trips.
  - intros _. rewrite E. reflexivity.
Qed.

Lemma flattenObject_TypeError_witness :
  flattenObject (fun _ : nat => false)
    (Object false [("a", Leaf 1);
                   ("k", Object false [("hasOwnProperty", Leaf 2); ("b", Leaf 3)])])
  = inl TypeError
  /\ flattenObject (fun _ : nat => false) (Object true [("a", Leaf 1)]) = inl TypeError.
Proof.
  split; apply flattenObject_TypeError; reflexivity.
Defined.

(** ** [fetchPDFs] *)

Lemma fetchPDFs_loop_resources {R} (fetch : string -> option R) (rateLimit : list nat) :
  forall data s,
  returned (fetchPDFs_loop fetch rateLimit data s)
  = option_map (app (resources s)) (traverse fetch (filter nonblank data)).
Proof.
  assert (Hp : forall s : fetch_state R, resources (pause rateLimit s) = resources s).
  { intros s. unfold pause. destruct rateLimit; [reflexivity|].
    destruct (Nat.eqb _ _); reflexivity. }
  assert (Ht : forall s : fetch_state R, resources (tally rateLimit s) = resources s).
  { intros s. unfold tally. destruct rateLimit; reflexivity. }
  induction data as [|item data IH]; intros s.
  - cbn. unfold returned. cbn. now rewrite app_nil_r.
  - cbn [fetchPDFs_loop filter]. cbv zeta. destruct (nonblank item).
    + cbn [traverse]. destruct (fetch item) as [res|]; [|reflexivity].
      rewrite IH, Ht. cbn [resources]. rewrite Hp.
      destruct (traverse fetch (filter nonblank data)); [|reflexivity].
      cbn [option_map]. now rewrite <- app_assoc.
    + now rewrite IH, Ht, Hp.
Qed.

Lemma fetchPDFs_loop_events {R} (fetch : string -> option R) (rateLimit : list nat) :
  forall data s,
  events (snd (fetchPDFs_loop fetch rateLimit data s))
  = events s ++ trace fetch rateLimit data (count s).
Proof.
  induction data as [|item data IH]; intros s.
  - cbn. now rewrite app_nil_r.
  - cbn [fetchPDFs_loop trace]. cbv zeta.
    destruct rateLimit as [|limit rest].
    + cbn [pause tally app]. destruct (nonblank item).
      * destruct (fetch item); cbn [snd events]; [rewrite IH|];
          cbn [events count]; rewrite <- ?app_assoc; reflexivity.
      * now rewrite IH.
    + unfold pause, tally. destruct (Nat.eqb limit (count s)).
      * destruct (nonblank item).
        -- destruct (fetch item); cbn [snd events]; [rewrite IH|];
             cbn [events count]; rewrite <- ?app_assoc; reflexivity.
        -- rewrite IH. cbn [events count]. rewrite <- ?app_assoc. reflexivity.
      * cbn [app]. destruct (nonblank item).
        -- destruct (fetch item); cbn [snd events]; [rewrite IH|];
             cbn [events count]; rewrite <- ?app_assoc; reflexivity.
        -- rewrite IH. reflexivity.
Qed.

Lemma fetched_trace {R} (fetch : string -> option R) (rateLimit : list nat) :
  forall data c,
  fetched (trace fetch rateLimit data c) = until_failure fetch (filter nonblank data).
Proof.
  induction data as [|item data IH]; intros c; [reflexivity|].
  cbn [trace filter]. cbv zeta. unfold fetched. rewrite flat_map_app.
  assert (Hs : forall b : bool,
             flat_map (fun e => match e with Fetched u => [u] | _ => [] end)
                      (if b then [Slept (nth_error rateLimit 1)] else []) = []).
  { intros []; reflexivity. }
  rewrite Hs. cbn [app]. destruct (nonblank item).
  - cbn [flat_map app until_failure]. destruct (fetch item); [|reflexivity].
    f_equal. apply IH.
  - apply IH.
Qed.


Lemma no_sleep_trace {R} (fetch : string -> option R) (rateLimit : list nat) :
  forall data c,
  match rateLimit with
  | limit :: _ => limit < c
  | [] => True
  end ->
  existsb is_sleep (trace fetch rateLimit data c) = false.
Proof.
  induction data as [|item data IH]; intros c Hc; [reflexivity|].
  cbn [trace]. cbv zeta. destruct rateLimit as [|limit rest].
  - cbn [app]. destruct (nonblank item).
    + cbn [existsb is_sleep orb]. destruct (fetch item); [now apply IH|reflexivity].
    + now apply IH.
  - destruct (Nat.eqb_spec limit c) as [E|E]; [lia|]. cbn [app].
    destruct (nonblank item).
    + cbn [existsb is_sleep orb]. destruct (fetch item); [apply IH; lia|reflexivity].
    + apply IH; lia.
Qed.

(** X22.  With a rate limit that is empty or holds both the limit and the
    time, [fetchPDFs] requests the items that are not empty, in the order of
    [data], up to and with the first one whose request throws; it returns
    exactly when none throws, and then the responses of those items in that
    order.  The rate limit changes neither. *)
Theorem fetchPDFs_fetches_nonblank_in_order {R} (fetch : string -> option R)
  (data : list string) (rateLimit : list nat)
  (Hshape : List.length rateLimit <> 1) :
  returned (fetchPDFs fetch data rateLimit) = traverse fetch (filter nonblank data)
  /\ fetched (events (snd (fetchPDFs fetch data rateLimit)))
     = until_failure fetch (filter nonblank data).
Proof.
  unfold fetchPDFs. split.
  - rewrite fetchPDFs_loop_resources. cbn [resources].
    destruct (traverse fetch (filter nonblank data)); reflexivity.
  - rewrite fetchPDFs_loop_events. cbn [events count app]. apply fetched_trace.
Qed.

Lemma fetchPDFs_fetches_nonblank_in_order_witness :
  returned (fetchPDFs (fun u => if String.eqb u "c" then None else Some u)
                      ["a"; ""; "b"] [1; 500]) = Some ["a"; "b"]
  /\ fetched (events (snd (fetchPDFs (fun u => if String.eqb u "c" then None else Some u)
                                     ["a"; "c"; "b"] [1; 500]))) = ["a"; "c"].
Proof.
  split.
  - destruct (fetchPDFs_fetches_nonblank_in_order
                (fun u => if String.eqb u "c" then None else Some u)
                ["a"; ""; "b"] [1; 500]) as [H _]; [simpl; lia|].
    rewrite H. reflexivity.
  - destruct (fetchPDFs_fetches_nonblank_in_order
                (fun u => if String.eqb u "c" then None else Some u)
                ["a"; "c"; "b"] [1; 500]) as [_ H]; [simpl; lia|].
    rewrite H. reflexivity.
Defined.



(** X24.  A limit of zero limits nothing: [fetchPDFs] sleeps once, before the
    first item, and never again, whatever the number of items.  Without a
    rate limit it never sleeps. *)
Theorem fetchPDFs_limit_zero {R} (fetch : string -> option R)
  (item : string) (data : list string) (ms : nat) (rest : list nat) :
  (exists es,
      events (snd (fetchPDFs fetch (item :: data) (0 :: ms :: rest)))
      = Slept (Some ms) :: es
      /\ existsb is_sleep es = false)
  /\ existsb is_sleep (events (snd (fetchPDFs fetch (item :: data) []))) = false.
Proof.
  unfold fetchPDFs. rewrite !fetchPDFs_loop_events. cbn [events count app]. split.
  - cbn [trace Nat.eqb nth_error]. cbv zeta. cbn [app].
    eexists. split; [reflexivity|].
    destruct (nonblank item).
    + cbn [existsb is_sleep orb]. destruct (fetch item); [|reflexivity].
      apply no_sleep_trace; lia.
    + apply no_sleep_trace; lia.
  - now apply no_sleep_trace.
Qed.
